(** * IndraNet: graph assembly, flattening and belief aggregation

    A shallow embedding of [indra/assemblers/indranet/net.py].

    The Python module builds a [networkx.MultiDiGraph] from the rows of a
    [pandas.DataFrame] ([IndraNet.from_df]), collapses it into a simple
    directed graph ([to_digraph]) or into a signed multigraph
    ([to_signed_graph]) and assigns an aggregate belief to every collapsed
    edge ([_update_edge_belief]).

    Conventions of the embedding.
    - Python objects stored in table cells are the inductive type [value].
    - Python dictionaries whose iteration order is observable (the node and
      adjacency tables of networkx) are insertion-ordered association lists
      ([odict]); attribute dictionaries with string keys, whose order is
      never observed, are [gmap string value].
    - Exceptions and [logger.warning] calls are threaded by the monad [M]:
      a computation yields the records logged so far and either an exception
      or a result.
    - [numpy.longfloat] arithmetic is exact rational arithmetic followed by a
      range check that raises [FloatingPointError] the way
      [np.seterr(all='raise')] does; rounding is set aside, and the
      statements about the value of an aggregate are statements over exact
      arithmetic.
    - A [DataFrame] is a table with strings for its column labels and
      integers for its index labels; [LabelledFrame] is a table with
      arbitrary labels, and [from_df_labelled] is [from_df] on such a
      table, with the failures of the label handling. *)

From Stdlib Require Import ZArith QArith Qcanon Qcabs Lia Lqa.
From stdpp Require Import base numbers option strings gmap list.

Set Default Proof Using "Type".

(** ** Python values, exceptions and log records *)

(** What a table cell, a node name, an edge key or an attribute can hold.
    [VNaN] is the [numpy.nan] singleton: as a dictionary key it is found
    again by identity.  Floats other than NaN are exact rationals in
    canonical form, so that equal numbers are equal terms.  Dictionary keys
    are compared as terms; a key that Python identifies with an integer
    (the float [1.0], [True]) is represented by that integer. *)
Inductive value : Type :=
  | VNone
  | VNaN
  | VStr (s : string)
  | VInt (z : Z)
  | VFloat (q : Qc)
  | VDict (d : list (string * Z)).

Global Instance value_eq_dec : EqDecision value.
Proof. solve_decision. Defined.

(** Dictionaries are the only unhashable values of the model. *)
Definition hashable (v : value) : bool :=
  match v with VDict _ => false | _ => true end.

(** The conditions numpy reports under [np.seterr(all='raise')]. *)
Inductive fp_error : Type := Overflow | Underflow | Invalid | DivideByZero.

Global Instance fp_error_eq_dec : EqDecision fp_error.
Proof. solve_decision. Defined.

Inductive exn : Type :=
  | FloatingPointError (e : fp_error)
  | ValueError (named : list string)
  | TypeError
  | KeyError
  | AttributeError.

(** The three [logger.warning] calls of the module, with the values they
    interpolate into their messages. *)
Inductive log_record : Type :=
  | WarnNoneNode (index : Z)
  | WarnSkipped (skipped : nat)
  | WarnResetBelief (err : fp_error) (fallback : Qc).

(** ** The exception-and-logging monad *)

Definition M (A : Type) : Type := (list log_record * (exn + A))%type.

Definition ret {A} (a : A) : M A := ([], inr a).
Definition raise {A} (e : exn) : M A := ([], inl e).
Definition warning (r : log_record) : M unit := ([r], inr tt).

Definition bind {A B} (m : M A) (f : A → M B) : M B :=
  match m with
  | (l, inl e) => (l, inl e)
  | (l, inr a) => let '(l', r) := f a in (l ++ l', r)
  end.

Notation "x <- m ;; k" := (bind m (λ x, k))
  (at level 100, m at next level, right associativity).
Notation "m ;;; k" := (bind m (λ _, k))
  (at level 100, right associativity).

(** [try: m except FloatingPointError as err: h err] *)
Definition try_except_fp {A} (m : M A) (h : fp_error → M A) : M A :=
  match m with
  | (l, inl (FloatingPointError err)) => let '(l', r) := h err in (l ++ l', r)
  | _ => m
  end.

(** Sequential evaluation of a generator or a comprehension. *)
Fixpoint mapM {A B} (f : A → M B) (l : list A) : M (list B) :=
  match l with
  | [] => ret []
  | a :: l' => b <- f a ;; bs <- mapM f l' ;; ret (b :: bs)
  end.

(** A left-to-right loop that threads a state. *)
Fixpoint foldM {A S} (f : S → A → M S) (s : S) (l : list A) : M S :=
  match l with
  | [] => ret s
  | a :: l' => s' <- f s a ;; foldM f s' l'
  end.

(** ** Extended-precision floats *)

(** The part of [np.finfo(np.longfloat)] the module depends on: the number
    of mantissa bits, so that the machine epsilon is [2^-nmant]; the
    overflow threshold [2^maxexp]; and the smallest positive (subnormal)
    value [2^-tinyexp].  The subnormal numbers are the multiples of
    [2^-tinyexp] below the smallest normal number [2^(nmant - tinyexp)]. *)
Record finfo : Type := {
  nmant : positive;
  maxexp : positive;
  tinyexp : positive
}.

(** The 80-bit x87 format, which [np.longfloat] is on x86. *)
Definition x87_extended : finfo :=
  {| nmant := 63; maxexp := 16384; tinyexp := 16445 |}.

(** IEEE binary64, which [np.longfloat] is where the C [long double] is a
    [double]. *)
Definition binary64 : finfo :=
  {| nmant := 52; maxexp := 1024; tinyexp := 1074 |}.

Definition Qc_pow2 (e : positive) : Qc := Q2Qc (inject_Z (2 ^ Zpos e)).
Definition Qc_pow2_inv (e : positive) : Qc := Q2Qc (1 # (2 ^ e)%positive).

(** [np.finfo(t).eps]: the gap between 1.0 and the next float. *)
Definition finfo_eps (fmt : finfo) : Qc := Qc_pow2_inv (nmant fmt).

(** [floor (log10 x)] for [x >= 1], by repeated division. *)
Fixpoint floor_log10 (fuel : nat) (x : Z) : nat :=
  match fuel with
  | O => O
  | S fuel' => if (10 <=? x)%Z then S (floor_log10 fuel' (x / 10)%Z) else O
  end.

(** [np.finfo(t).precision = int(-log10(eps))]: the number of decimal
    digits to which the type is precise. *)
Definition finfo_precision (fmt : finfo) : nat :=
  floor_log10 (Pos.to_nat (nmant fmt)) (2 ^ Zpos (nmant fmt))%Z.

(** [NP_PRECISION = 10 ** -np.finfo(np.longfloat).precision] *)
Definition NP_PRECISION (fmt : finfo) : Qc :=
  Q2Qc (1 # Z.to_pos (10 ^ Z.of_nat (finfo_precision fmt))).

(** A [longfloat] is a quiet NaN or a number. *)
Inductive longfloat : Type :=
  | LNaN
  | LNum (q : Qc).

Global Instance longfloat_eq_dec : EqDecision longfloat.
Proof. solve_decision. Defined.

(** [np.finfo(t).tiny]: the smallest positive normal float, [2^-16382]
    for the x87 format and [2^-1022] for binary64. *)
Definition finfo_tiny (fmt : finfo) : Qc :=
  Qc_pow2_inv (tinyexp fmt - nmant fmt).

(** A multiple of the smallest subnormal [2^-tinyexp]: below
    [finfo_tiny] these are the numbers the format holds exactly, zero
    among them. *)
Definition subnormal_exact (fmt : finfo) (x : Qc) : bool :=
  (Qden (x * Qc_pow2 (tinyexp fmt))%Qc =? 1)%positive.

(** Under [np.seterr(all='raise')] an operation raises as soon as the
    hardware flags underflow or overflow.  Underflow is flagged when the
    result is tiny, that is below the smallest normal number, and cannot be
    delivered exactly; a result that is zero or a subnormal number is
    delivered without a flag.  Overflow is flagged when the magnitude
    reaches [2^maxexp].  Any other exact result [x] is delivered. *)
Definition fp_check (fmt : finfo) (x : Qc) : M longfloat :=
  if decide (Qcabs x < finfo_tiny fmt)%Qc then
    if subnormal_exact fmt x then ret (LNum x)
    else raise (FloatingPointError Underflow)
  else if decide (Qc_pow2 (maxexp fmt) ≤ Qcabs x)%Qc
       then raise (FloatingPointError Overflow)
  else ret (LNum x).

Definition lf_sub (fmt : finfo) (a b : longfloat) : M longfloat :=
  match a, b with
  | LNum x, LNum y => fp_check fmt (x - y)%Qc
  | _, _ => ret LNaN
  end.

Definition lf_mul (fmt : finfo) (a b : longfloat) : M longfloat :=
  match a, b with
  | LNum x, LNum y => fp_check fmt (x * y)%Qc
  | _, _ => ret LNaN
  end.

(** The right operand of [np.longfloat(1.0) - belief]: numbers convert,
    NaN stays NaN, anything else is not a number.  An integer beyond the
    64-bit range does not convert to a numpy scalar, and the subtraction
    is then not supported either. *)
Definition as_longfloat (v : value) : M longfloat :=
  match v with
  | VFloat q => ret (LNum q)
  | VInt z =>
      if decide (- 2 ^ 63 ≤ z < 2 ^ 63)%Z then ret (LNum (Qc_of_Z z))
      else raise TypeError
  | VNaN => ret LNaN
  | _ => raise TypeError
  end.

(** [np.prod] of a one-dimensional array: [multiply.reduce], left to
    right, starting from the first element; the empty product is 1. *)
Definition np_prod (fmt : finfo) (a : list longfloat) : M longfloat :=
  match a with
  | [] => ret (LNum 1)
  | x :: rest => foldM (lf_mul fmt) x rest
  end.

(** The body of the [try] block of [_complementary_belief]:
    [np.longfloat(1.0) - np.prod(np.fromiter(map(lambda belief:
    np.longfloat(1.0) - belief, belief_list), dtype=np.longfloat))];
    [complement_term] is the lambda. *)
Definition complement_term (fmt : finfo) (belief : value) : M longfloat :=
  b <- as_longfloat belief ;; lf_sub fmt (LNum 1) b.

Definition complement_product (fmt : finfo) (belief_list : list value)
  : M longfloat :=
  terms <- mapM (complement_term fmt) belief_list ;;
  p <- np_prod fmt terms ;;
  lf_sub fmt (LNum 1) p.

(** The [except] branch: log and return [NP_PRECISION * 10]. *)
Definition reset_belief (fmt : finfo) (err : fp_error) : M longfloat :=
  warning (WarnResetBelief err (NP_PRECISION fmt * Qc_of_Z 10)%Qc) ;;;
  ret (LNum (NP_PRECISION fmt * Qc_of_Z 10)%Qc).

Definition aggregate_beliefs (fmt : finfo) (belief_list : list value)
  : M longfloat :=
  try_except_fp (complement_product fmt belief_list) (reset_belief fmt).

(** ** Insertion-ordered dictionaries *)

(** A Python [dict] whose iteration order matters: the keys in the order
    in which they were first inserted. *)
Definition odict (K V : Type) : Type := list (K * V).

Section odict.
Context {K V : Type} `{EqDecision K}.

(** [d.get(k)] *)
Fixpoint od_get (k : K) (d : odict K V) : option V :=
  match d with
  | [] => None
  | (k', v) :: d' => if decide (k = k') then Some v else od_get k d'
  end.

(** [k in d] *)
Definition od_mem (k : K) (d : odict K V) : bool :=
  match od_get k d with Some _ => true | None => false end.

(** [d[k] = v]: an existing key keeps its position. *)
Fixpoint od_set (k : K) (v : V) (d : odict K V) : odict K V :=
  match d with
  | [] => [(k, v)]
  | (k', v') :: d' =>
      if decide (k = k') then (k, v) :: d' else (k', v') :: od_set k v d'
  end.

Definition od_keys (d : odict K V) : list K := d.*1.
Definition od_values (d : odict K V) : list V := d.*2.
End odict.

(** ** networkx graphs *)

(** Attribute dictionaries with string keys. *)
Abbreviation attrs := (gmap string value).

(** Edge data dictionaries support [old.update(new)]. *)
Class AttrDict (D : Type) := dict_update : D → D → D.
Global Instance attrs_update : AttrDict attrs := λ old new, new ∪ old.

(** [networkx.MultiDiGraph]: [_node] maps a node to its attributes and
    [_adj] (the successor table) maps [u], then [v], then the edge key to
    the edge data.  Both tables are keyed in node-creation order. *)
Record MultiDiGraph (D : Type) : Type := {
  mg_node : odict value attrs;
  mg_adj : odict value (odict value (odict value D))
}.
Arguments mg_node {D} _.
Arguments mg_adj {D} _.

(** [networkx.DiGraph]: at most one edge per ordered pair. *)
Record DiGraph (D : Type) : Type := {
  dg_node : odict value attrs;
  dg_adj : odict value (odict value D)
}.
Arguments dg_node {D} _.
Arguments dg_adj {D} _.

Definition check_hashable (v : value) : M unit :=
  if hashable v then ret tt else raise TypeError.

Section multidigraph.
Context {D : Type} `{AttrDict D}.

Definition mg_empty : MultiDiGraph D := {| mg_node := []; mg_adj := [] |}.

(** [n in G.nodes] *)
Definition mg_nodes_contains (G : MultiDiGraph D) (n : value) : M bool :=
  check_hashable n ;;; ret (od_mem n (mg_node G)).

(** [G.add_node(n, **attr)] *)
Definition mg_add_node (G : MultiDiGraph D) (n : value) (attr : attrs)
  : M (MultiDiGraph D) :=
  check_hashable n ;;;
  if od_mem n (mg_adj G) then
    ret {| mg_node := od_set n (attr ∪ default ∅ (od_get n (mg_node G)))
                        (mg_node G);
           mg_adj := mg_adj G |}
  else
    ret {| mg_node := od_set n attr (mg_node G);
           mg_adj := od_set n [] (mg_adj G) |}.

(** The block [if u not in self._succ: ...] of [add_edge]: a missing
    endpoint is created with no attributes. *)
Definition mg_touch (n : value) (G : MultiDiGraph D) : MultiDiGraph D :=
  if od_mem n (mg_adj G) then G
  else {| mg_node := od_set n ∅ (mg_node G);
          mg_adj := od_set n [] (mg_adj G) |}.

(** [G._adj[u][v]], with [None] for a [KeyError]. *)
Definition mg_keydict (G : MultiDiGraph D) (u v : value)
  : option (odict value D) :=
  nbrs ← od_get u (mg_adj G); od_get v nbrs.

(** The loop [while key in keydict: key += 1].  After [length keydict]
    occupied keys in a row the next one is free. *)
Fixpoint next_free_key (fuel : nat) (key : Z) (keydict : odict value D)
  : Z :=
  match fuel with
  | O => key
  | S fuel' =>
      if od_mem (VInt key) keydict
      then next_free_key fuel' (key + 1) keydict
      else key
  end.

(** [G.new_edge_key(u, v)] *)
Definition mg_new_edge_key (G : MultiDiGraph D) (u v : value) : value :=
  match mg_keydict G u v with
  | None => VInt 0
  | Some keydict =>
      VInt (next_free_key (length keydict) (Z.of_nat (length keydict))
              keydict)
  end.

(** [G.add_edge(u, v, key, **attr)] *)
Definition mg_add_edge (G : MultiDiGraph D) (u v key : value) (attr : D)
  : M (MultiDiGraph D) :=
  check_hashable u ;;;
  check_hashable v ;;;
  let G := mg_touch v (mg_touch u G) in
  let key := if decide (key = VNone) then mg_new_edge_key G u v else key in
  check_hashable key ;;;
  let nbrs := default [] (od_get u (mg_adj G)) in
  let keydict :=
    match od_get v nbrs with
    | Some keydict =>
        match od_get key keydict with
        | Some datadict => od_set key (dict_update datadict attr) keydict
        | None => od_set key attr keydict
        end
    | None => [(key, attr)]
    end in
  ret {| mg_node := mg_node G;
         mg_adj := od_set u (od_set v keydict nbrs) (mg_adj G) |}.

(** [G.has_edge(u, v, key)] *)
Definition mg_has_edge (G : MultiDiGraph D) (u v key : value) : M bool :=
  check_hashable u ;;;
  match od_get u (mg_adj G) with
  | None => ret false
  | Some nbrs =>
      check_hashable v ;;;
      if decide (key = VNone) then ret (od_mem v nbrs)
      else match od_get v nbrs with
           | None => ret false
           | Some keydict => check_hashable key ;;; ret (od_mem key keydict)
           end
  end.

(** [G.edges(data=True)]: for each node in creation order, for each of
    its successors, for each edge key. *)
Definition mg_edges_data (G : MultiDiGraph D) : list (value * value * D) :=
  '(u, nbrs) ← mg_adj G;
  '(v, keydict) ← nbrs;
  '(_, data) ← keydict;
  [(u, v, data)].

(** [G.edges] as a list of [(u, v, key)]. *)
Definition mg_edges (G : MultiDiGraph D)
  : list (value * value * value) :=
  '(u, nbrs) ← mg_adj G;
  '(v, keydict) ← nbrs;
  '(key, _) ← keydict;
  [(u, v, key)].

(** [G.edges[u, v, key]] *)
Definition mg_edge_data (G : MultiDiGraph D) (e : value * value * value)
  : option D :=
  let '(u, v, key) := e in
  keydict ← mg_keydict G u v; od_get key keydict.
End multidigraph.

Section digraph.
Context {D : Type} `{AttrDict D}.

Definition dg_empty : DiGraph D := {| dg_node := []; dg_adj := [] |}.

Definition dg_touch (n : value) (G : DiGraph D) : DiGraph D :=
  if od_mem n (dg_adj G) then G
  else {| dg_node := od_set n ∅ (dg_node G);
          dg_adj := od_set n [] (dg_adj G) |}.

(** [G._adj[u][v]] *)
Definition dg_edge_data (G : DiGraph D) (e : value * value) : option D :=
  let '(u, v) := e in
  nbrs ← od_get u (dg_adj G); od_get v nbrs.

(** [G.add_edge(u, v, **attr)] *)
Definition dg_add_edge (G : DiGraph D) (u v : value) (attr : D)
  : M (DiGraph D) :=
  check_hashable u ;;;
  check_hashable v ;;;
  let G := dg_touch v (dg_touch u G) in
  let nbrs := default [] (od_get u (dg_adj G)) in
  let datadict :=
    match od_get v nbrs with
    | Some datadict => dict_update datadict attr
    | None => attr
    end in
  ret {| dg_node := dg_node G;
         dg_adj := od_set u (od_set v datadict nbrs) (dg_adj G) |}.

(** [G.has_edge(u, v)] *)
Definition dg_has_edge (G : DiGraph D) (u v : value) : M bool :=
  check_hashable u ;;;
  match od_get u (dg_adj G) with
  | None => ret false
  | Some nbrs => check_hashable v ;;; ret (od_mem v nbrs)
  end.

(** [G.edges] *)
Definition dg_edges (G : DiGraph D) : list (value * value) :=
  '(u, nbrs) ← dg_adj G;
  '(v, _) ← nbrs;
  [(u, v)].
End digraph.

(** ** Flattened graphs *)

(** The data of a flattened edge: the list [statements] of the raw edge
    dictionaries grouped on it, the [sign] of a signed edge and the
    [belief] once it is set. *)
Record FlatAttrs : Type := {
  statements : list attrs;
  sign : option value;
  belief : option longfloat
}.

Global Instance flat_update : AttrDict FlatAttrs := λ old new,
  {| statements := statements new;
     sign := from_option Some (sign old) (sign new);
     belief := from_option Some (belief old) (belief new) |}.

Definition append_statement (data : attrs) (fa : FlatAttrs) : FlatAttrs :=
  {| statements := statements fa ++ [data];
     sign := sign fa;
     belief := belief fa |}.

Definition set_belief (b : longfloat) (fa : FlatAttrs) : FlatAttrs :=
  {| statements := statements fa; sign := sign fa; belief := Some b |}.

(** What [_update_edge_belief] and the strategies use of a graph [G]:
    the edge view [G.edges], the lookup [G.edges[e]] and the assignment
    [G.edges[e]['belief'] = b]. *)
Class NxGraph (G : Type) : Type := {
  edge_id : Type;
  nx_edges : G → list edge_id;
  nx_edge_data : G → edge_id → option FlatAttrs;
  nx_set_belief : G → edge_id → longfloat → G
}.

Definition dg_set_belief (G : DiGraph FlatAttrs) (e : value * value)
    (b : longfloat) : DiGraph FlatAttrs :=
  let '(u, v) := e in
  match od_get u (dg_adj G) with
  | None => G
  | Some nbrs =>
      match od_get v nbrs with
      | None => G
      | Some fa =>
          {| dg_node := dg_node G;
             dg_adj := od_set u (od_set v (set_belief b fa) nbrs) (dg_adj G) |}
      end
  end.

Definition mg_set_belief (G : MultiDiGraph FlatAttrs)
    (e : value * value * value) (b : longfloat) : MultiDiGraph FlatAttrs :=
  let '(u, v, key) := e in
  match od_get u (mg_adj G) with
  | None => G
  | Some nbrs =>
      match od_get v nbrs with
      | None => G
      | Some keydict =>
          match od_get key keydict with
          | None => G
          | Some fa =>
              {| mg_node := mg_node G;
                 mg_adj := od_set u (od_set v (od_set key (set_belief b fa)
                                                 keydict) nbrs) (mg_adj G) |}
          end
      end
  end.

Global Instance DiGraph_nx : NxGraph (DiGraph FlatAttrs) := {|
  edge_id := value * value;
  nx_edges := dg_edges;
  nx_edge_data := dg_edge_data;
  nx_set_belief := dg_set_belief
|}.

Global Instance MultiDiGraph_nx : NxGraph (MultiDiGraph FlatAttrs) := {|
  edge_id := value * value * value;
  nx_edges := mg_edges;
  nx_edge_data := mg_edge_data;
  nx_set_belief := mg_set_belief
|}.

(** [d[k]], raising [KeyError] *)
Definition getitem (d : attrs) (k : string) : M value :=
  match d !! k with Some v => ret v | None => raise KeyError end.

(** [G.edges[edge]['statements']] *)
Definition edge_statements {G} `{NxGraph G} (g : G) (edge : edge_id)
  : M (list attrs) :=
  match nx_edge_data g edge with
  | Some fa => ret (statements fa)
  | None => raise KeyError
  end.

(** The [flattening_method] argument: [None], a string or a callable. *)
Inductive flattening_method (G : Type) `{NxGraph G} : Type :=
  | MethodNone
  | MethodStr (name : string)
  | MethodCallable (f : G → edge_id → M longfloat).
Arguments MethodNone {G _}.
Arguments MethodStr {G _} name.
Arguments MethodCallable {G _} f.

Section belief.
(** The float format of [np.longfloat] and the external scorer
    [simple_scorer.score_statement], which receives the [source_api] of
    each reconstructed evidence. *)
Variable fmt : finfo.
Variable score_statement : list string → M longfloat.

Context {G : Type} `{NxGraph G}.

(** [for k, v in stmt_data['source_counts'].items(): for _ in range(v)] *)
Definition expand_source_counts (stmt_data : attrs) : M (list string) :=
  sc <- getitem stmt_data "source_counts" ;;
  match sc with
  | VDict d => ret ('(k, v) ← d; replicate (Z.to_nat v) k)
  | _ => raise AttributeError
  end.

Definition _simple_scorer_update (g : G) (edge : edge_id) : M longfloat :=
  stmts <- edge_statements g edge ;;
  evidence_list <- mapM expand_source_counts stmts ;;
  score_statement (concat evidence_list).

Definition _complementary_belief (g : G) (edge : edge_id) : M longfloat :=
  stmts <- edge_statements g edge ;;
  belief_list <- mapM (λ s, getitem s "belief") stmts ;;
  aggregate_beliefs fmt belief_list.

(** One strategy, applied to every edge of [G.edges] in turn, each
    result stored before the next edge is visited. *)
Definition update_with (f : G → edge_id → M longfloat) (g : G) : M G :=
  foldM (λ g e, b <- f g e ;; ret (nx_set_belief g e b)) g (nx_edges g).

Definition _update_edge_belief (g : G) (method : flattening_method G)
  : M G :=
  match method with
  | MethodNone => update_with _simple_scorer_update g
  | MethodStr name =>
      if decide (name = "") then update_with _simple_scorer_update g
      else if decide (name = "complementary_belief")
      then update_with _complementary_belief g
      else update_with (λ _ _, raise TypeError) g
  | MethodCallable f => update_with f g
  end.
End belief.

(** ** Data frames *)

(** A row is read by column name; [iterrows] yields the rows with their
    index labels.  In a [DataFrame] the column labels are strings and the
    index labels are integers, as in a table with the default index of
    pandas; tables with other labels are the [LabelledFrame]s below. *)
Definition Row : Type := string → value.

Record DataFrame : Type := {
  columns : list string;
  iterrows : list (Z * Row)
}.

(** ** IndraNet *)

Abbreviation IndraNet := (MultiDiGraph attrs).

Definition mandatory_columns : list string :=
  ["agA_name"; "agB_name"; "agA_ns"; "agA_id"; "agB_ns"; "agB_id";
   "stmt_type"; "evidence_count"; "stmt_hash"; "belief"; "source_counts"].

(** [set(mandatory_columns).issubset(set(df.columns))] *)
Definition has_mandatory_columns (df : DataFrame) : bool :=
  forallb (λ c, bool_decide (c ∈ columns df)) mandatory_columns.

Definition extra_column (key : string) : bool :=
  bool_decide (key ∉ mandatory_columns).

(** [node_keys['agA']], [node_keys['agB']] and [edge_keys] *)
Definition node_keys (role : string) (df : DataFrame) : list string :=
  filter (λ key, extra_column key && String.prefix (role +:+ "_") key)
         (columns df).

Definition edge_keys (df : DataFrame) : list string :=
  filter (λ key, extra_column key && negb (String.prefix "ag" key))
         (columns df).

(** [{key: row[key] for key in keys}] *)
Definition row_attrs (keys : list string) (row : Row) : attrs :=
  list_to_map ((λ key, (key, row key)) <$> keys).

(** [row['agA_name'] is None or row['agB_name'] is None] *)
Definition is_none_row (row : Row) : bool :=
  bool_decide (row "agA_name" = VNone) || bool_decide (row "agB_name" = VNone).

(** The dictionary [ed]: the entries of [edge_attr] come last in the
    literal and replace earlier entries with the same key. *)
Definition edge_kwargs (df : DataFrame) (row : Row) : attrs :=
  row_attrs (edge_keys df) row ∪
  list_to_map [("u_for_edge", row "agA_name");
               ("v_for_edge", row "agB_name");
               ("stmt_hash", row "stmt_hash");
               ("stmt_type", row "stmt_type");
               ("evidence_count", row "evidence_count");
               ("belief", row "belief");
               ("source_counts", row "source_counts")].

(** [graph.add_edge] applied to the keyword arguments [ed]: the
    parameters [u_for_edge], [v_for_edge] and [key] of [add_edge] are taken
    from [ed], the rest is edge data; a keyword [self] clashes with the
    bound receiver. *)
Definition add_edge_kwargs (graph : IndraNet) (ed : attrs) : M IndraNet :=
  if bool_decide (is_Some (ed !! "self")) then raise TypeError
  else
    match ed !! "u_for_edge", ed !! "v_for_edge" with
    | Some u, Some v =>
        mg_add_edge graph u v (default VNone (ed !! "key"))
          (delete "u_for_edge" (delete "v_for_edge" (delete "key" ed)))
    | _, _ => raise TypeError
    end.

(** [if name not in graph.nodes: graph.add_node(name, ns=..., id=...,
    **node_attr)] *)
Definition add_missing_node (graph : IndraNet) (name ns id : value)
    (node_attr : attrs) : M IndraNet :=
  known <- mg_nodes_contains graph name ;;
  if known : bool then ret graph
  else mg_add_node graph name (<["ns" := ns]> (<["id" := id]> node_attr)).

(** The part of the loop body that follows the [continue]: both
    endpoints, then the edge. *)
Definition add_row (df : DataFrame) (graph : IndraNet) (row : Row)
  : M IndraNet :=
  graph <- add_missing_node graph (row "agA_name") (row "agA_ns")
             (row "agA_id") (row_attrs (node_keys "agA" df) row) ;;
  graph <- add_missing_node graph (row "agB_name") (row "agB_ns")
             (row "agB_id") (row_attrs (node_keys "agB" df) row) ;;
  add_edge_kwargs graph (edge_kwargs df row).

(** The body of the loop over [df.iterrows()]; the state is the graph and
    the counter [skipped]. *)
Definition from_df_row (df : DataFrame) (st : IndraNet * nat)
    (ir : Z * Row) : M (IndraNet * nat) :=
  let '(graph, skipped) := st in
  let '(index, row) := ir in
  if is_none_row row then
    warning (WarnNoneNode index) ;;;
    ret (graph, S skipped)
  else
    graph <- add_row df graph row ;;
    ret (graph, skipped).

Definition from_df (df : DataFrame) : M IndraNet :=
  let graph : IndraNet := mg_empty in
  if negb (has_mandatory_columns df) then
    raise (ValueError mandatory_columns)
  else
    st <- foldM (from_df_row df) (graph, O) (iterrows df) ;;
    let '(graph, skipped) := st in
    (if decide (skipped = O) then ret tt
     else warning (WarnSkipped skipped)) ;;;
    ret graph.

(** *** Tables with arbitrary labels *)

(** pandas takes any value as a column label and as an index label; a
    [DataFrame] above is the table whose column labels are the strings
    [columns] and whose index labels are the integers of [iterrows]. *)
Record LabelledFrame : Type := {
  column_labels : list value;
  labelled_rows : list (value * Row)
}.

(** [key.startswith(...)]: only a string has the method. *)
Definition column_name (key : value) : M string :=
  match key with
  | VStr s => ret s
  | _ => raise AttributeError
  end.

(** The statements of [from_df] before the loop over the rows:
    [set(df.columns)] hashes every label, the mandatory columns must be
    among the labels, and the loop that sorts the columns calls
    [startswith] on every label that is not a mandatory column.  When they
    pass, the column labels are strings. *)
Definition string_columns (t : LabelledFrame) : M (list string) :=
  mapM check_hashable (column_labels t) ;;;
  if negb (forallb (λ c, bool_decide (VStr c ∈ column_labels t))
             mandatory_columns)
  then raise (ValueError mandatory_columns)
  else mapM column_name (column_labels t).

(** ['None found as node (index %d)' % index]: an integer is printed as
    it is and a float is truncated towards zero; NaN does not convert to an
    integer, and any other label is not a number. *)
Definition format_index (index : value) : M Z :=
  match index with
  | VInt z => ret z
  | VFloat q => ret (Z.quot (Qnum q) (Zpos (Qden q)))
  | VNaN => raise (ValueError [])
  | _ => raise TypeError
  end.

(** The body of the loop for an index label of any kind: the message is
    formatted before it is logged. *)
Definition from_df_row_labelled (df : DataFrame) (st : IndraNet * nat)
    (ir : value * Row) : M (IndraNet * nat) :=
  let '(graph, skipped) := st in
  let '(index, row) := ir in
  if is_none_row row then
    number <- format_index index ;;
    warning (WarnNoneNode number) ;;;
    ret (graph, S skipped)
  else
    graph <- add_row df graph row ;;
    ret (graph, skipped).

(** [from_df] on a table with arbitrary labels. *)
Definition from_df_labelled (t : LabelledFrame) : M IndraNet :=
  let graph : IndraNet := mg_empty in
  keys <- string_columns t ;;
  st <- foldM (from_df_row_labelled {| columns := keys; iterrows := [] |})
          (graph, O) (labelled_rows t) ;;
  let '(graph, skipped) := st in
  (if decide (skipped = O) then ret tt
   else warning (WarnSkipped skipped)) ;;;
  ret graph.

Section flatten.
Variable fmt : finfo.
Variable score_statement : list string → M longfloat.

(** The loop body of [to_digraph] *)
Definition to_digraph_step (g : DiGraph FlatAttrs)
    (e : value * value * attrs) : M (DiGraph FlatAttrs) :=
  let '(u, v, data) := e in
  present <- dg_has_edge g u v ;;
  if present : bool then
    match dg_edge_data g (u, v) with
    | Some fa =>
        let nbrs := default [] (od_get u (dg_adj g)) in
        ret {| dg_node := dg_node g;
               dg_adj := od_set u (od_set v (append_statement data fa) nbrs)
                           (dg_adj g) |}
    | None => raise KeyError
    end
  else
    dg_add_edge g u v
      {| statements := [data]; sign := None; belief := None |}.

Definition to_digraph (self : IndraNet)
    (method : flattening_method (DiGraph FlatAttrs))
  : M (DiGraph FlatAttrs) :=
  g <- foldM to_digraph_step dg_empty (mg_edges_data self) ;;
  _update_edge_belief fmt score_statement g method.

(** The loop body of [to_signed_graph]; [sign_dict] is a dictionary
    from statement types to signs. *)
Definition to_signed_graph_step (sign_dict : odict value value)
    (sg : MultiDiGraph FlatAttrs) (e : value * value * attrs)
  : M (MultiDiGraph FlatAttrs) :=
  let '(u, v, data) := e in
  stmt_type <- getitem data "stmt_type" ;;
  check_hashable stmt_type ;;;
  match od_get stmt_type sign_dict with
  | None => ret sg
  | Some sgn =>
      present <- mg_has_edge sg u v sgn ;;
      if present : bool then
        match mg_edge_data sg (u, v, sgn) with
        | Some fa =>
            let nbrs := default [] (od_get u (mg_adj sg)) in
            let keydict := default [] (od_get v nbrs) in
            ret {| mg_node := mg_node sg;
                   mg_adj :=
                     od_set u
                       (od_set v (od_set sgn (append_statement data fa)
                                    keydict) nbrs)
                       (mg_adj sg) |}
        | None => raise KeyError
        end
      else
        mg_add_edge sg u v sgn
          {| statements := [data]; sign := Some sgn; belief := None |}
  end.

Definition to_signed_graph (self : IndraNet)
    (sign_dict : odict value value)
    (method : flattening_method (MultiDiGraph FlatAttrs))
  : M (MultiDiGraph FlatAttrs) :=
  sg <- foldM (to_signed_graph_step sign_dict) mg_empty
          (mg_edges_data self) ;;
  _update_edge_belief fmt score_statement sg method.

Definition digraph_from_df (df : DataFrame)
    (method : flattening_method (DiGraph FlatAttrs))
  : M (DiGraph FlatAttrs) :=
  net <- from_df df ;;
  to_digraph net method.

Definition signed_from_df (df : DataFrame) (sign_dict : odict value value)
    (method : flattening_method (MultiDiGraph FlatAttrs))
  : M (MultiDiGraph FlatAttrs) :=
  net <- from_df df ;;
  to_signed_graph net sign_dict method.
End flatten.

(** ** Reference notions used in the statements *)

(** The probabilistic OR of independent beliefs, [1 - prod (1 - b_i)]. *)
Definition prob_or (bs : list Qc) : Qc :=
  (1 - foldr (λ b acc, (1 - b) * acc) 1 bs)%Qc.

(** The [FloatingPointError] the [try] block raises, if it raises one. *)
Definition arithmetic_failure (fmt : finfo) (belief_list : list value)
  : option fp_error :=
  match complement_product fmt belief_list with
  | (_, inl (FloatingPointError err)) => Some err
  | _ => None
  end.

(** The value the [except] branch returns. *)
Definition fallback_belief (fmt : finfo) : Qc :=
  (NP_PRECISION fmt * Qc_of_Z 10)%Qc.

(** The [belief] entries of a list of grouped raw edges. *)
Definition beliefs_of (stmts : list attrs) : list (option value) :=
  (λ s : attrs, s !! "belief") <$> stmts.

Definition Qc_max (x y : Qc) : Qc := if decide (x ≤ y)%Qc then y else x.

(** The maximum of the non-empty list [b :: bs]. *)
Definition max_belief (b : Qc) (bs : list Qc) : Qc := foldr Qc_max b bs.

(** A raw edge dictionary that carries only a belief. *)
Definition stmt_with_belief (b : Qc) : attrs := {[ "belief" := VFloat b ]}.

(** A flattened graph with the single edge A -> B grouping [bs]. *)
Definition single_edge_graph (bs : list Qc) : DiGraph FlatAttrs :=
  {| dg_node := [(VStr "A", ∅); (VStr "B", ∅)];
     dg_adj := [(VStr "A", [(VStr "B",
                  {| statements := stmt_with_belief <$> bs;
                     sign := None; belief := None |})]);
                (VStr "B", [])] |}.

Definition edge_AB : @edge_id (DiGraph FlatAttrs) DiGraph_nx :=
  (VStr "A", VStr "B").

(** The largest binary64 number below 1. *)
Definition almost_one : Qc := Q2Qc ((2 ^ 53 - 1) # (2 ^ 53)).

(** The binary64 number [1/2 - 2^-53]. *)
Definition almost_half : Qc := Q2Qc ((2 ^ 52 - 1) # (2 ^ 53)).

(** *** Tables *)

(** The mandatory columns a table lacks. *)
Definition missing_columns (df : DataFrame) : list string :=
  filter (λ c, c ∉ columns df) mandatory_columns.

(** The rows [from_df] skips and the rows it keeps. *)
Definition none_rows (df : DataFrame) : list (Z * Row) :=
  filter (λ ir, is_none_row ir.2 = true) (iterrows df).

Definition kept_rows (df : DataFrame) : list (Z * Row) :=
  filter (λ ir, is_none_row ir.2 = false) (iterrows df).

(** The table without its rows that have a [None] endpoint. *)
Definition drop_none_rows (df : DataFrame) : DataFrame :=
  {| columns := columns df; iterrows := kept_rows df |}.

(** What [from_df] logs on a table when it returns: one warning per
    skipped row, in row order, then the summary if any row was skipped. *)
Definition skip_log (df : DataFrame) : list log_record :=
  (WarnNoneNode <$> (none_rows df).*1) ++
  (if decide (length (none_rows df) = O) then []
   else [WarnSkipped (length (none_rows df))]).

(** A table with every mandatory column but [belief]. *)
Definition df_no_belief : DataFrame :=
  {| columns := filter (λ c, c ≠ "belief") mandatory_columns;
     iterrows := [] |}.

(** A computation that delivers the exact value [x] unless it raises a
    [FloatingPointError]; it logs nothing either way. *)
Definition exact_or_fp (m : M longfloat) (x : Qc) : Prop :=
  m = ret (LNum x) ∨ ∃ err, m = raise (FloatingPointError err).

(** A computation that logs nothing. *)
Definition silent {A} (m : M A) : Prop := m.1 = [].

(** A computation that does not raise [ValueError]. *)
Definition no_ValueError {A} (m : M A) : Prop :=
  ∀ l named, m ≠ (l, inl (ValueError named)).

(** The loop of [from_df] restricted to the rows it keeps. *)
Definition add_rows (df : DataFrame) (graph : IndraNet)
    (rows : list (Z * Row)) : M IndraNet :=
  foldM (λ graph ir, add_row df graph ir.2) graph rows.

(** *** Valid tables *)

(** The parameter names of [add_edge]: a residual column with one of
    these names would not become an edge attribute. *)
Definition reserved_keywords : list string :=
  ["self"; "u_for_edge"; "v_for_edge"; "key"].

(** A valid table has the mandatory columns, no column named like a
    parameter of [add_edge], and hashable endpoint names in the rows that
    are kept. *)
Definition valid_table (df : DataFrame) : bool :=
  has_mandatory_columns df
  && forallb (λ c, bool_decide (c ∉ reserved_keywords)) (columns df)
  && forallb (λ ir : Z * Row,
                hashable (ir.2 "agA_name") && hashable (ir.2 "agB_name"))
             (kept_rows df).

(** The node a row describes for the role [agA] or [agB]: its name and
    the attributes [ns], [id] and the extra columns of the role. *)
Definition node_spec (role : string) (df : DataFrame) (row : Row)
  : value * attrs :=
  (row (role +:+ "_name"),
   <["ns" := row (role +:+ "_ns")]>
     (<["id" := row (role +:+ "_id")]> (row_attrs (node_keys role df) row))).

(** The endpoints of the kept rows, in the order [from_df] meets them. *)
Definition endpoint_specs (df : DataFrame) : list (value * attrs) :=
  ir ← kept_rows df; [node_spec "agA" df ir.2; node_spec "agB" df ir.2].

Definition endpoint_names (df : DataFrame) : list value :=
  (endpoint_specs df).*1.

(** The data dictionary of the raw edge a row becomes. *)
Definition edge_data (df : DataFrame) (row : Row) : attrs :=
  delete "u_for_edge" (delete "v_for_edge" (delete "key" (edge_kwargs df row))).

(** The data of the raw edges from [u] to [v], in key order. *)
Definition pair_data {D} (g : MultiDiGraph D) (u v : value) : list D :=
  from_option od_values [] (mg_keydict g u v).

(** The kept rows that go from [u] to [v]. *)
Definition rows_between (df : DataFrame) (u v : value) : list (Z * Row) :=
  filter (λ ir, ir.2 "agA_name" = u ∧ ir.2 "agB_name" = v) (kept_rows df).

(** Adding a node unless its name is known, and adding an edge with the
    next index as its key: what a kept row of a valid table does. *)
Definition add_node_pure (g : IndraNet) (spec : value * attrs) : IndraNet :=
  if od_mem spec.1 (mg_node g) then g
  else {| mg_node := mg_node g ++ [spec];
          mg_adj := mg_adj g ++ [(spec.1, [])] |}.

Definition add_edge_pure (g : IndraNet) (u v : value) (data : attrs)
  : IndraNet :=
  let nbrs := default [] (od_get u (mg_adj g)) in
  let keydict := default [] (od_get v nbrs) in
  {| mg_node := mg_node g;
     mg_adj := od_set u (od_set v (keydict ++
                                   [(VInt (Z.of_nat (length keydict)), data)])
                           nbrs) (mg_adj g) |}.

Definition add_row_pure (df : DataFrame) (g : IndraNet) (row : Row)
  : IndraNet :=
  add_edge_pure
    (add_node_pure (add_node_pure g (node_spec "agA" df row))
       (node_spec "agB" df row))
    (row "agA_name") (row "agB_name") (edge_data df row).

(** The graphs [from_df] builds from valid tables: the node table and the
    adjacency table have the same keys, and the keys of the parallel edges
    of a pair are [0, 1, 2, ...] in order. *)
Record from_df_inv (g : IndraNet) : Prop := {
  inv_aligned : od_keys (mg_node g) = od_keys (mg_adj g);
  inv_keys : ∀ u v keydict,
    mg_keydict g u v = Some keydict →
    od_keys keydict = VInt <$> seqZ 0 (Z.of_nat (length keydict))
}.

(** A node table extended by a node unless its name is known; the table
    of the nodes first seen in a list of endpoints. *)
Definition add_if_new (nodes : odict value attrs) (spec : value * attrs)
  : odict value attrs :=
  if od_mem spec.1 nodes then nodes else nodes ++ [spec].

Definition first_seen (specs : list (value * attrs)) : odict value attrs :=
  foldl add_if_new [] specs.

(** *** Example tables *)

(** A row with the given endpoint names, statement type, hash and
    belief; the other mandatory cells hold fixed values and every other
    column is empty. *)
Definition example_row (a b : value) (stmt_type : string) (hash : Z)
    (belief : Qc) : Row := λ key,
  if decide (key = "agA_name") then a
  else if decide (key = "agB_name") then b
  else if decide (key = "stmt_type") then VStr stmt_type
  else if decide (key = "stmt_hash") then VInt hash
  else if decide (key = "belief") then VFloat belief
  else if decide (key = "evidence_count") then VInt 1
  else if decide (key = "source_counts") then VDict [("reach", 1%Z)]
  else if decide (key = "agA_ns") then VStr "HGNC"
  else if decide (key = "agB_ns") then VStr "HGNC"
  else VNone.

Definition row_AB_09 : Row :=
  example_row (VStr "A") (VStr "B") "Activation" 11 (Q2Qc (9 # 10)).
Definition row_AB_08 : Row :=
  example_row (VStr "A") (VStr "B") "Activation" 12 (Q2Qc (8 # 10)).
Definition row_NaN_B : Row :=
  example_row VNaN (VStr "B") "Inhibition" 13 (Q2Qc (1 # 2)).
Definition row_None_B : Row :=
  example_row VNone (VStr "B") "Complex" 14 (Q2Qc (1 # 2)).
Definition row_AB_complex : Row :=
  example_row (VStr "A") (VStr "B") "Complex" 15 (Q2Qc (1 # 2)).
Definition row_AB_inhibition : Row :=
  example_row (VStr "A") (VStr "B") "Inhibition" 16 (Q2Qc (1 # 2)).

(** The scenario table of the specification: two rows A -> B. *)
Definition df_scenario : DataFrame :=
  {| columns := mandatory_columns;
     iterrows := [(0%Z, row_AB_09); (1%Z, row_AB_08)] |}.

(** A table with an extra node column, an extra edge column, a row whose
    source is NaN and a row whose source is [None]. *)
Definition df_mixed : DataFrame :=
  {| columns := mandatory_columns ++ ["agA_location"; "curated"];
     iterrows := [(0%Z, row_AB_09); (1%Z, row_NaN_B); (2%Z, row_None_B);
                  (3%Z, row_AB_08)] |}.

(** A table with a residual column named like the first parameter of
    [add_edge]. *)
Definition df_reserved : DataFrame :=
  {| columns := mandatory_columns ++ ["u_for_edge"];
     iterrows :=
       [(0%Z, λ key, if decide (key = "u_for_edge") then VStr "Z"
                     else row_AB_09 key)] |}.

(** Three parallel rows A -> B of three statement types. *)
Definition df_three_types : DataFrame :=
  {| columns := mandatory_columns;
     iterrows := [(0%Z, row_AB_09); (1%Z, row_AB_inhibition);
                  (2%Z, row_AB_complex)] |}.

(** The integer keys of a key dictionary from [key] upwards: what the
    loop of [new_edge_key] can still run into. *)
Definition keys_from {D} (key : Z) (keydict : odict value D) : list value :=
  filter (λ k, match k with VInt z => bool_decide (key ≤ z)%Z | _ => false end
               = true)
         (od_keys keydict).

(** *** Adjacency tables *)

(** Two-level tables: [adj[u][v]], the assignment [adj[u][v] = x] (which
    creates [adj[u]] when it is missing) and the well-formedness of a
    table as a dictionary of dictionaries: no key occurs twice. *)
Definition adj_get {V} (adj : odict value (odict value V)) (u v : value)
  : option V :=
  nbrs ← od_get u adj; od_get v nbrs.

Definition adj_put {V} (adj : odict value (odict value V)) (u v : value)
    (x : V) : odict value (odict value V) :=
  od_set u (od_set v x (default [] (od_get u adj))) adj.

Definition adj_wf {V} (adj : odict value (odict value V)) : Prop :=
  NoDup (od_keys adj) ∧ ∀ u nbrs, (u, nbrs) ∈ adj → NoDup (od_keys nbrs).

(** The entries of a two-level table, each expanded by [h]. *)
Definition adj_bind {V B} (h : value → value → V → list B)
    (adj : odict value (odict value V)) : list B :=
  '(u, nbrs) ← adj; '(v, x) ← nbrs; h u v x.

(** *** Flattening *)

(** The data of the raw edges from [u] to [v], as [G.edges(data=True)]
    enumerates them. *)
Definition raw_edges_between (self : IndraNet) (u v : value) : list attrs :=
  (filter (λ e : value * value * attrs, e.1.1 = u ∧ e.1.2 = v)
     (mg_edges_data self)).*2.

(** The grouped list of the flattened edge from [u] to [v]; empty when
    there is no such edge. *)
Definition statements_at (G : DiGraph FlatAttrs) (u v : value) : list attrs :=
  from_option statements [] (dg_edge_data G (u, v)).

Definition stmt_hashes (stmts : list attrs) : list (option value) :=
  (λ d : attrs, d !! "stmt_hash") <$> stmts.

(** A flattened directed graph: a well-formed table whose edges each
    group at least one raw edge. *)
Definition flat_inv (adj : odict value (odict value FlatAttrs)) : Prop :=
  adj_wf adj ∧ ∀ u v fa, adj_get adj u v = Some fa → statements fa ≠ [].

(** A scorer for the examples: every statement scores one half. *)
Definition example_scorer : list string → M longfloat :=
  λ _, ret (LNum (Q2Qc (1 # 2))).

(** The result of a computation that returns, [d] otherwise. *)
Definition result_or {A} (d : A) (m : M A) : A :=
  match m.2 with inr a => a | inl _ => d end.

(** The multigraph of the scenario table and its directed flattening
    under the complementary-belief strategy. *)
Definition scenario_net : IndraNet := result_or mg_empty (from_df df_scenario).

Definition scenario_digraph : DiGraph FlatAttrs :=
  result_or dg_empty
    (to_digraph x87_extended example_scorer scenario_net
       (MethodStr "complementary_belief")).

(** *** Signed flattening *)

(** The key under which [add_edge] stores a new edge of sign [s]: the
    sign itself, except that the key [None] asks for a fresh index, which
    is 0 for the first edge of a pair. *)
Definition norm_sign (s : value) : value :=
  if decide (s = VNone) then VInt 0 else s.

(** A raw edge whose statement type has a sign. *)
Definition typed_by (sign_dict : odict value value) (data : attrs) : Prop :=
  ∃ stmt_type sgn,
    data !! "stmt_type" = Some stmt_type
    ∧ od_get stmt_type sign_dict = Some sgn.

(** The signed graphs built from the raw edges [edges]: the parallel
    edges of a pair have distinct keys, each the key of a sign of the
    mapping, and group raw edges of that pair whose type has a sign. *)
Definition signed_inv (sign_dict : odict value value)
    (edges : list (value * value * attrs))
    (adj : odict value (odict value (odict value FlatAttrs))) : Prop :=
  adj_wf adj ∧
  ∀ u v keydict, adj_get adj u v = Some keydict →
    NoDup (od_keys keydict)
    ∧ (∀ k, k ∈ od_keys keydict → k ∈ norm_sign <$> od_values sign_dict)
    ∧ ∀ k fa data, (k, fa) ∈ keydict → data ∈ statements fa →
        (u, v, data) ∈ edges ∧ typed_by sign_dict data.

(** The flattened edges from [u] to [v] in the edge view. *)
Definition signed_edges_between (SG : MultiDiGraph FlatAttrs) (u v : value)
  : list (value * value * value) :=
  filter (λ e : value * value * value, e.1.1 = u ∧ e.1.2 = v) (mg_edges SG).

(** A mapping with three signs, the multigraph of three parallel rows
    and its signed flattening. *)
Definition three_signs : odict value value :=
  [(VStr "Activation", VInt 1); (VStr "Inhibition", VInt (-1));
   (VStr "Complex", VInt 0)].

Definition three_types_net : IndraNet :=
  result_or mg_empty (from_df df_three_types).

Definition three_types_signed : MultiDiGraph FlatAttrs :=
  result_or mg_empty
    (to_signed_graph x87_extended example_scorer three_types_net three_signs
       (MethodStr "complementary_belief")).

(** The usual mapping, with two signs, and the flattening under it. *)
Definition two_signs : odict value value :=
  [(VStr "Activation", VInt 1); (VStr "Inhibition", VInt (-1))].

Definition two_signs_signed : MultiDiGraph FlatAttrs :=
  result_or mg_empty
    (to_signed_graph x87_extended example_scorer three_types_net two_signs
       (MethodStr "complementary_belief")).

(** *** Raw edges of a table *)

(** The index an edge key stands for: the keys [add_edge] hands out are
    the non-negative integers. *)
Definition key_index (key : value) : option nat :=
  match key with
  | VInt z => if decide (0 ≤ z)%Z then Some (Z.to_nat z) else None
  | _ => None
  end.

(** The fields of a row that [from_df] stores on the edge under their
    own names. *)
Definition edge_fields : list string :=
  ["stmt_hash"; "stmt_type"; "evidence_count"; "belief"; "source_counts"].

(** The attribute dictionary [from_df] gives a node first seen in [row]
    under the role [role], read key by key. *)
Definition node_attr_of (role : string) (df : DataFrame) (row : Row)
    (k : string) : option value :=
  if decide (k = "ns") then Some (row (role +:+ "_ns"))
  else if decide (k = "id") then Some (row (role +:+ "_id"))
  else if decide (k ∈ node_keys role df) then Some (row k)
  else None.


(** *** Exceptions of [from_df] *)





(** *** Nodes of a flattened graph *)

(** The endpoints of a list of edges in the order in which a loop over
    the edges meets them, each with an empty attribute dictionary. *)
Definition bare_endpoints {D} (edges : list (value * value * D))
  : list (value * attrs) :=
  '(u, v, _) ← edges; [(u, ∅); (v, ∅)].

(** The node table and the adjacency table of a directed graph have the
    same keys, and both ends of every edge are among them. *)
Definition dg_nodes_inv {D} (g : DiGraph D) : Prop :=
  od_keys (dg_node g) = od_keys (dg_adj g)
  ∧ ∀ u v, is_Some (adj_get (dg_adj g) u v) →
           u ∈ od_keys (dg_adj g) ∧ v ∈ od_keys (dg_adj g).

(** *** Flattened graphs as [_update_edge_belief] uses them *)

(** What the loop of [_update_edge_belief] relies on, for the graphs [g]
    that are well formed ([wf g]): the edge view lists every edge once,
    [G.edges[e]] is defined for exactly the edges of the view, and the
    assignment [G.edges[e]['belief'] = b] changes the belief of [e] and
    nothing else. *)
Class NxGraphLaws (G : Type) `{NxGraph G} `{EqDecision (@edge_id G _)}
    (wf : G → Prop) : Prop := {
  nx_edges_NoDup g : wf g → NoDup (nx_edges g);
  nx_edges_data g e : wf g → e ∈ nx_edges g ↔ is_Some (nx_edge_data g e);
  nx_set_belief_wf g e b : wf g → wf (nx_set_belief g e b);
  nx_set_belief_edges g e b :
    wf g → nx_edges (nx_set_belief g e b) = nx_edges g;
  nx_set_belief_data g e b e' :
    wf g →
    nx_edge_data (nx_set_belief g e b) e'
    = if decide (e' = e) then set_belief b <$> nx_edge_data g e
      else nx_edge_data g e'
}.

(** A well-formed directed graph and a well-formed multigraph: no key
    occurs twice in a dictionary of the adjacency table. *)
Definition dg_wf {D} (g : DiGraph D) : Prop := adj_wf (dg_adj g).

Definition mg_wf {D} (g : MultiDiGraph D) : Prop :=
  adj_wf (mg_adj g)
  ∧ ∀ u v keydict, adj_get (mg_adj g) u v = Some keydict →
                   NoDup (od_keys keydict).

(** The two built-in strategies as functions of the list
    [G.edges[edge]['statements']]. *)
Definition complementary_of (fmt : finfo) (stmts : list attrs)
  : M longfloat :=
  belief_list <- mapM (λ s, getitem s "belief") stmts ;;
  aggregate_beliefs fmt belief_list.

Definition simple_scorer_of (score_statement : list string → M longfloat)
    (stmts : list attrs) : M longfloat :=
  evidence_list <- mapM expand_source_counts stmts ;;
  score_statement (concat evidence_list).

(** A strategy that reads nothing of the graph but the statements of the
    edge it is given, and computes [S] of them. *)
Definition reads_statements {G} `{NxGraph G}
    (f : G → edge_id → M longfloat) (S : list attrs → M longfloat) : Prop :=
  ∀ g e, f g e = match nx_edge_data g e with
                 | Some fa => S (statements fa)
                 | None => raise KeyError
                 end.

(** The strategies [_update_edge_belief] selects without calling its
    argument: the simple scorer when [not flattening_method] holds, that
    is for [None] and for the empty string, and the complementary belief
    for the string ['complementary_belief']. *)
Inductive builtin_strategy (fmt : finfo)
    (score_statement : list string → M longfloat) {G} `{NxGraph G}
  : flattening_method G → (list attrs → M longfloat) → Prop :=
  | builtin_none :
      builtin_strategy fmt score_statement MethodNone
        (simple_scorer_of score_statement)
  | builtin_empty :
      builtin_strategy fmt score_statement (MethodStr "")
        (simple_scorer_of score_statement)
  | builtin_complementary :
      builtin_strategy fmt score_statement (MethodStr "complementary_belief")
        (complementary_of fmt).

(** The data of a flattened edge of a directed graph with its belief. *)
Definition flat_edge (stmts : list attrs) (b : longfloat) : FlatAttrs :=
  {| statements := stmts; sign := None; belief := Some b |}.

(** A directed graph none of whose edges carries a sign. *)
Definition unsigned (adj : odict value (odict value FlatAttrs)) : Prop :=
  ∀ u v fa, adj_get adj u v = Some fa → sign fa = None.

(** A flattened graph whose second edge groups a statement without a
    belief. *)
Definition two_edge_graph : DiGraph FlatAttrs :=
  {| dg_node := [(VStr "A", ∅); (VStr "B", ∅); (VStr "C", ∅)];
     dg_adj :=
       [(VStr "A",
         [(VStr "B", {| statements := [stmt_with_belief (Q2Qc (1 # 2))];
                        sign := None; belief := None |});
          (VStr "C", {| statements := [∅]; sign := None; belief := None |})]);
        (VStr "B", []); (VStr "C", [])] |}.

(** *** Evidence counts *)

(** The [source_counts] cells of a list of statements. *)
Definition source_counts_of (stmts : list attrs) : list (option value) :=
  (λ s : attrs, s !! "source_counts") <$> stmts.

(** The number of times the loops of [_simple_scorer_update] append an
    evidence with the source [k]: [range(v)] is empty for [v <= 0]. *)
Definition source_total (k : string) (ds : list (list (string * Z))) : nat :=
  sum_list ((λ kv : string * Z, if decide (kv.1 = k) then Z.to_nat kv.2 else O)
              <$> concat ds).

(** The number of evidences of all sources. *)
Definition evidence_total (ds : list (list (string * Z))) : nat :=
  sum_list ((λ kv : string * Z, Z.to_nat kv.2) <$> concat ds).

(** A scorer that returns the number of evidences it is given. *)
Definition counting_scorer : list string → M longfloat :=
  λ evidence, ret (LNum (Qc_of_Z (Z.of_nat (length evidence)))).

(** A flattened edge A -> B whose two statements count three evidences
    of two sources, one of them with a non-positive count besides. *)
Definition counted_graph : DiGraph FlatAttrs :=
  {| dg_node := [(VStr "A", ∅); (VStr "B", ∅)];
     dg_adj :=
       [(VStr "A",
         [(VStr "B",
           {| statements :=
                [{[ "source_counts" := VDict [("reach", 2%Z); ("sparser", 0%Z)] ]};
                 {[ "source_counts" := VDict [("signor", 1%Z); ("reach", (-1)%Z)] ]}];
              sign := None; belief := None |})]);
        (VStr "B", [])] |}.

(** *** Beliefs *)

(** A flattened edge A -> B one of whose statements has the belief NaN. *)
Definition nan_graph : DiGraph FlatAttrs :=
  {| dg_node := [(VStr "A", ∅); (VStr "B", ∅)];
     dg_adj :=
       [(VStr "A",
         [(VStr "B",
           {| statements := [stmt_with_belief (Q2Qc (1 # 2));
                             {[ "belief" := VNaN ]}];
              sign := None; belief := None |})]);
        (VStr "B", [])] |}.

(** Two flattened edges, the second of which groups one statement more
    than the first. *)
Definition nested_graph : DiGraph FlatAttrs :=
  {| dg_node := [(VStr "A", ∅); (VStr "B", ∅); (VStr "C", ∅)];
     dg_adj :=
       [(VStr "A",
         [(VStr "B",
           {| statements := stmt_with_belief <$> [Q2Qc (8 # 10)];
              sign := None; belief := None |});
          (VStr "C",
           {| statements :=
                stmt_with_belief <$> [Q2Qc (9 # 10); Q2Qc (8 # 10)];
              sign := None; belief := None |})]);
        (VStr "B", []); (VStr "C", [])] |}.

Definition edge_AC : @edge_id (DiGraph FlatAttrs) DiGraph_nx :=
  (VStr "A", VStr "C").

(** *** Grouping by sign *)

(** The sign of a raw edge: the entry of its statement type in the
    mapping, if it has one. *)
Definition sign_of (sign_dict : odict value value) (data : attrs)
  : option value :=
  stmt_type ← data !! "stmt_type"; od_get stmt_type sign_dict.

(** The raw edges from [u] to [v] whose sign is [s], as
    [G.edges(data=True)] enumerates them. *)
Definition signed_raw_edges (self : IndraNet) (sign_dict : odict value value)
    (u v s : value) : list attrs :=
  filter (λ data, sign_of sign_dict data = Some s) (raw_edges_between self u v).

(** The grouped list of the flattened edge from [u] to [v] with the key
    [key]; empty when there is no such edge. *)
Definition signed_statements_at (SG : MultiDiGraph FlatAttrs)
    (u v key : value) : list attrs :=
  from_option statements [] (mg_edge_data SG (u, v, key)).

(** A signed flattened graph: a well-formed table whose edges each group
    at least one raw edge and carry their key as their sign. *)
Definition signed_flat (SG : MultiDiGraph FlatAttrs) : Prop :=
  mg_wf SG
  ∧ ∀ e fa, mg_edge_data SG e = Some fa →
            statements fa ≠ [] ∧ sign fa = Some e.2.

(** The data of a flattened edge of a signed graph with its belief. *)
Definition signed_edge (stmts : list attrs) (s : value) (b : longfloat)
  : FlatAttrs :=
  {| statements := stmts; sign := Some s; belief := Some b |}.

(** The kept rows from [u] to [v] whose statement type has the sign
    [s]. *)
Definition signed_rows (df : DataFrame) (sign_dict : odict value value)
    (u v s : value) : list (Z * Row) :=
  filter (λ ir, od_get (ir.2 "stmt_type") sign_dict = Some s)
         (rows_between df u v).

(** *** Beliefs that are not numbers *)

(** A value that [np.longfloat(1.0) - belief] rejects with a
    [TypeError]: neither a float nor an integer of the 64-bit range. *)
Definition non_number (v : value) : bool :=
  match v with
  | VNone | VStr _ | VDict _ => true
  | VInt z => negb (bool_decide (- 2 ^ 63 ≤ z < 2 ^ 63)%Z)
  | VNaN | VFloat _ => false
  end.

(** A flattened edge A -> B one of whose statements has the belief
    [None], as a missing cell of a table has. *)
Definition none_belief_graph : DiGraph FlatAttrs :=
  {| dg_node := [(VStr "A", ∅); (VStr "B", ∅)];
     dg_adj :=
       [(VStr "A",
         [(VStr "B",
           {| statements := [stmt_with_belief (Q2Qc (1 # 2));
                             {[ "belief" := VNone ]}];
              sign := None; belief := None |})]);
        (VStr "B", [])] |}.

(** A flattened edge A -> B whose statement has the belief [2^64]. *)
Definition big_int_belief_graph : DiGraph FlatAttrs :=
  {| dg_node := [(VStr "A", ∅); (VStr "B", ∅)];
     dg_adj :=
       [(VStr "A",
         [(VStr "B",
           {| statements := [{[ "belief" := VInt (2 ^ 64) ]}];
              sign := None; belief := None |})]);
        (VStr "B", [])] |}.

(** *** A sign that is [None] *)

(** No edge of the graph has the key [None]: [add_edge] replaces that key
    by a fresh index. *)
Definition no_none_key (SG : MultiDiGraph FlatAttrs) : Prop :=
  ∀ u v, mg_edge_data SG (u, v, VNone) = None.

(** A mapping that sends inhibitions to [None]. *)
Definition none_signs : odict value value :=
  [(VStr "Activation", VInt 1); (VStr "Inhibition", VNone)].

(** *** Nodes of a signed graph *)

(** The node table and the adjacency table of a multigraph have the same
    keys, and both ends of every edge are among them. *)
Definition mg_nodes_inv {D} (g : MultiDiGraph D) : Prop :=
  od_keys (mg_node g) = od_keys (mg_adj g)
  ∧ ∀ u v, is_Some (adj_get (mg_adj g) u v) →
           u ∈ od_keys (mg_adj g) ∧ v ∈ od_keys (mg_adj g).

(** The raw edges whose statement type has a sign. *)
Definition signed_edges_data (self : IndraNet)
    (sign_dict : odict value value) : list (value * value * attrs) :=
  filter (λ e : value * value * attrs, is_Some (sign_of sign_dict e.2))
         (mg_edges_data self).
(** *** Tables with arbitrary labels *)

(** A [DataFrame] as a table with arbitrary labels. *)
Definition labelled (df : DataFrame) : LabelledFrame :=
  {| column_labels := VStr <$> columns df;
     labelled_rows := prod_map VInt id <$> iterrows df |}.






(** [set(mandatory_columns).issubset(set(df.columns))] *)
Definition has_mandatory_labels (t : LabelledFrame) : bool :=
  forallb (λ c, bool_decide (VStr c ∈ column_labels t)) mandatory_columns.

(** A table whose index mixes strings, integers and floats: the rows
    with a [None] endpoint are labelled [7] and [2.5]. *)
Definition mixed_index_frame : LabelledFrame :=
  {| column_labels := VStr <$> mandatory_columns;
     labelled_rows :=
       [(VStr "first", row_AB_09); (VInt 7, row_None_B);
        (VFloat (Q2Qc (5 # 2)), row_None_B); (VNone, row_AB_08)] |}.



(** A table with a column labelled by the integer [0]. *)
Definition int_column_frame : LabelledFrame :=
  {| column_labels := (VStr <$> mandatory_columns) ++ [VInt 0];
     labelled_rows := [(VInt 0, row_AB_09)] |}.

(** A table whose row with a [None] endpoint has the index label NaN. *)
Definition nan_index_frame : LabelledFrame :=
  {| column_labels := VStr <$> mandatory_columns;
     labelled_rows := [(VInt 0, row_AB_09); (VNaN, row_None_B)] |}.

(** *** The values a strategy returns *)

(** The strategy [_update_edge_belief] calls for a [flattening_method]. *)
Definition strategy_of (fmt : finfo) (score : list string → M longfloat)
    {G} `{NxGraph G} (method : flattening_method G)
  : G → edge_id → M longfloat :=
  match method with
  | MethodNone => _simple_scorer_update score
  | MethodStr name =>
      if decide (name = "") then _simple_scorer_update score
      else if decide (name = "complementary_belief")
      then _complementary_belief fmt
      else λ _ _, raise TypeError
  | MethodCallable f => f
  end.

(** The values the calls of a strategy return along the edges: every
    call sees the graph in which the values of the earlier calls are
    stored. *)
Fixpoint returned_beliefs {G} `{NxGraph G} (f : G → edge_id → M longfloat)
    (g : G) (edges : list edge_id) : M (list longfloat) :=
  match edges with
  | [] => ret []
  | e :: edges' =>
      b <- f g e ;;
      bs <- returned_beliefs f (nx_set_belief g e b) edges' ;;
      ret (b :: bs)
  end.

(** The graph [to_digraph] hands to [_update_edge_belief]. *)
Definition grouped_digraph (self : IndraNet) : M (DiGraph FlatAttrs) :=
  foldM to_digraph_step dg_empty (mg_edges_data self).

(** *** Rounding *)

(** [2^z] for an integer [z]. *)
Definition Qc_pow2Z (z : Z) : Qc :=
  match z with
  | Z0 => 1%Qc
  | Zpos p => Qc_pow2 p
  | Zneg p => Qc_pow2_inv p
  end.

(** [floor (log2 x)] for a positive rational [x]. *)
Definition Qc_log2 (x : Qc) : Z :=
  let e := (Z.log2 (Qnum x) - Z.log2 (Zpos (Qden x)))%Z in
  if decide (x < Qc_pow2Z e)%Qc then (e - 1)%Z else e.

(** The integer nearest to a non-negative rational, ties to even. *)
Definition Qc_nearest_even (m : Qc) : Z :=
  let f := (Qnum m / Zpos (Qden m))%Z in
  let r := (m - Qc_of_Z f)%Qc in
  if decide (r < Q2Qc (1 # 2))%Qc then f
  else if decide (Q2Qc (1 # 2) < r)%Qc then (f + 1)%Z
  else if Z.even f then f else (f + 1)%Z.

(** The float nearest to a number of the normal range when the
    significand has [nmant + 1] bits (64 for the x87 format), ties to
    even: what the hardware delivers in place of an exact result. *)
Definition round_nearest (fmt : finfo) (x : Qc) : Qc :=
  if decide (x = 0)%Qc then 0%Qc
  else
    let ulp := Qc_pow2Z (Qc_log2 (Qcabs x) - Zpos (nmant fmt)) in
    let m := Qc_of_Z (Qc_nearest_even (Qcabs x / ulp)) in
    if decide (x < 0)%Qc then (- (m * ulp))%Qc else (m * ulp)%Qc.

(** [_complementary_belief] for a single belief [b] when each of the two
    subtractions is rounded: [np.prod] of one element is that element. *)
Definition rounded_complement (fmt : finfo) (b : Qc) : Qc :=
  round_nearest fmt (1 - round_nearest fmt (1 - b)).

(** * Properties *)

(** ** The monad *)

Lemma bind_ret_l {A B} (a : A) (f : A → M B) : bind (ret a) f = f a.
Proof. unfold bind, ret. by destruct (f a). Qed.

Lemma bind_raise {A B} (e : exn) (f : A → M B) : bind (raise e) f = raise e.
Proof. done. Qed.

Lemma bind_inr {A B} (m : M A) (f : A → M B) l b :
  bind m f = (l, inr b) →
  ∃ l1 a l2, m = (l1, inr a) ∧ f a = (l2, inr b) ∧ l = l1 ++ l2.
Proof.
  destruct m as [l1 [e|a]]; simpl; [done|].
  destruct (f a) as [l2 r] eqn:Hf. intros [= <- ->]. eauto 6.
Qed.

Lemma mapM_ret {A B} (f : A → M B) (g : A → B) l :
  (∀ a, a ∈ l → f a = ret (g a)) → mapM f l = ret (g <$> l).
Proof.
  induction l as [|a l IH]; intros Hf; simpl; [done|].
  rewrite Hf by left. rewrite bind_ret_l, IH.
  - by rewrite !bind_ret_l.
  - intros. apply Hf. by right.
Qed.

(** ** Exact arithmetic with a range check *)

Lemma fp_check_exact fmt x : exact_or_fp (fp_check fmt x) x.
Proof.
  unfold fp_check, exact_or_fp. repeat case_decide; [case_match|..]; eauto.
Qed.

Lemma complement_term_float fmt (b : Qc) :
  complement_term fmt (VFloat b) = fp_check fmt (1 - b)%Qc.
Proof. unfold complement_term. simpl. apply bind_ret_l. Qed.

Lemma complement_terms_exact fmt (bs : list Qc) :
  mapM (complement_term fmt) (VFloat <$> bs)
  = ret (LNum <$> ((λ b, 1 - b)%Qc <$> bs))
  ∨ ∃ err, mapM (complement_term fmt) (VFloat <$> bs)
           = raise (FloatingPointError err).
Proof.
  induction bs as [|b bs IH]; [by left|].
  rewrite !fmap_cons. cbn [mapM]. rewrite complement_term_float.
  destruct (fp_check_exact fmt (1 - b)%Qc) as [-> | [err ->]].
  - rewrite bind_ret_l. destruct IH as [-> | [err ->]].
    + left. by rewrite !bind_ret_l.
    + right. by exists err.
  - right. by exists err.
Qed.

Lemma fold_left_Qcmult (qs : list Qc) (x : Qc) :
  fold_left Qcmult qs x = (x * foldr Qcmult 1%Qc qs)%Qc.
Proof.
  revert x. induction qs as [|q qs IH]; intros x; simpl; [ring|].
  rewrite IH. ring.
Qed.

Lemma foldM_mul_exact fmt (qs : list Qc) (x : Qc) :
  exact_or_fp (foldM (lf_mul fmt) (LNum x) (LNum <$> qs))
              (fold_left Qcmult qs x).
Proof.
  revert x. induction qs as [|q qs IH]; intros x; simpl; [by left|].
  destruct (fp_check_exact fmt (x * q)%Qc) as [-> | [err ->]].
  - rewrite bind_ret_l. apply IH.
  - right. by exists err.
Qed.

Lemma np_prod_exact fmt (qs : list Qc) :
  exact_or_fp (np_prod fmt (LNum <$> qs)) (foldr Qcmult 1%Qc qs).
Proof.
  destruct qs as [|q qs]; simpl; [by left|].
  rewrite <- fold_left_Qcmult. apply foldM_mul_exact.
Qed.

Lemma foldr_complements (bs : list Qc) :
  foldr Qcmult 1%Qc ((λ b, 1 - b)%Qc <$> bs)
  = foldr (λ b acc, (1 - b) * acc)%Qc 1%Qc bs.
Proof.
  induction bs as [|b bs IH]; [done|].
  rewrite fmap_cons. cbn [foldr]. by rewrite IH.
Qed.

Lemma complement_product_exact fmt (bs : list Qc) :
  exact_or_fp (complement_product fmt (VFloat <$> bs)) (prob_or bs).
Proof.
  unfold complement_product.
  destruct (complement_terms_exact fmt bs) as [-> | [err ->]];
    [|right; by exists err].
  rewrite bind_ret_l.
  destruct (np_prod_exact fmt ((λ b, 1 - b)%Qc <$> bs)) as [-> | [err ->]];
    [|right; by exists err].
  rewrite bind_ret_l, foldr_complements. apply fp_check_exact.
Qed.

Lemma arithmetic_failure_None fmt (bs : list Qc) :
  arithmetic_failure fmt (VFloat <$> bs) = None →
  complement_product fmt (VFloat <$> bs) = ret (LNum (prob_or bs)).
Proof.
  unfold arithmetic_failure.
  destruct (complement_product_exact fmt bs) as [-> | [err ->]]; done.
Qed.

Lemma silent_bind {A B} (m : M A) (f : A → M B) :
  silent m → (∀ a, silent (f a)) → silent (bind m f).
Proof.
  unfold silent. destruct m as [l [e|a]]; simpl; [done|].
  intros -> Hf. specialize (Hf a). by destruct (f a).
Qed.

Lemma silent_fp_check fmt x : silent (fp_check fmt x).
Proof. unfold fp_check. repeat case_decide; [by case_match|done..]. Qed.

Lemma silent_lf_sub fmt a b : silent (lf_sub fmt a b).
Proof. destruct a, b; simpl; try done; apply silent_fp_check. Qed.

Lemma silent_lf_mul fmt a b : silent (lf_mul fmt a b).
Proof. destruct a, b; simpl; try done; apply silent_fp_check. Qed.

Lemma silent_as_longfloat v : silent (as_longfloat v).
Proof. destruct v; simpl; try done. by case_decide. Qed.

Lemma silent_mapM {A B} (f : A → M B) l :
  (∀ a, silent (f a)) → silent (mapM f l).
Proof.
  intros Hf. induction l; simpl; [done|].
  apply silent_bind; [done|]. intros. apply silent_bind; [done|]. done.
Qed.

Lemma silent_foldM {A S} (f : S → A → M S) s l :
  (∀ s a, silent (f s a)) → silent (foldM f s l).
Proof.
  intros Hf. revert s. induction l; intros s; simpl; [done|].
  apply silent_bind; auto.
Qed.

Lemma silent_complement_product fmt belief_list :
  silent (complement_product fmt belief_list).
Proof.
  unfold complement_product. apply silent_bind.
  - apply silent_mapM. intros. apply silent_bind;
      auto using silent_as_longfloat, silent_lf_sub.
  - intros terms. apply silent_bind; [|auto using silent_lf_sub].
    destruct terms; simpl; [done|]. apply silent_foldM, silent_lf_mul.
Qed.

(** Reading the beliefs of the grouped statements succeeds when each
    statement has one. *)
Lemma read_beliefs (stmts : list attrs) (belief_list : list value) :
  beliefs_of stmts = Some <$> belief_list →
  mapM (λ s, getitem s "belief") stmts = ret belief_list.
Proof.
  revert belief_list. unfold beliefs_of.
  induction stmts as [|s stmts IH]; intros [|b bl]; simpl; try done.
  intros [= Hs Hrest]. unfold getitem at 1. rewrite Hs, bind_ret_l.
  rewrite (IH bl Hrest). by rewrite !bind_ret_l.
Qed.

Lemma complementary_belief_unfold fmt {G} `{NxGraph G} (g : G) edge fa bl :
  nx_edge_data g edge = Some fa →
  beliefs_of (statements fa) = Some <$> bl →
  _complementary_belief fmt g edge = aggregate_beliefs fmt bl.
Proof.
  intros Hfa Hbl. unfold _complementary_belief, edge_statements.
  rewrite Hfa, bind_ret_l, (read_beliefs _ _ Hbl). by rewrite bind_ret_l.
Qed.

(** ** Order facts on canonical rationals *)

Ltac Qc_to_Q :=
  unfold Qcle, Qclt, Qcminus, Qcplus, Qcopp, Qcmult in *; simpl in *;
  rewrite ?Qred_correct in *.

Lemma Qc_complement_unit (b : Qc) :
  (0 ≤ b ≤ 1)%Qc → (0 ≤ 1 - b ≤ 1)%Qc.
Proof. intros [H0 H1]. split; Qc_to_Q; lra. Qed.

Lemma Qc_mult_unit (x y : Qc) :
  (0 ≤ x ≤ 1)%Qc → (0 ≤ y ≤ 1)%Qc → (0 ≤ x * y ≤ y)%Qc.
Proof.
  intros [Hx0 Hx1] [Hy0 Hy1]. split.
  - rewrite <- (Qcmult_0_l y). by apply Qcmult_le_compat_r.
  - rewrite <- (Qcmult_1_l y) at 2. by apply Qcmult_le_compat_r.
Qed.

Lemma Qc_mult_unit_l (x y : Qc) :
  (0 ≤ x ≤ 1)%Qc → (0 ≤ y ≤ 1)%Qc → (x * y ≤ x)%Qc.
Proof.
  intros Hx Hy. rewrite Qcmult_comm. by apply Qc_mult_unit.
Qed.

Lemma complements_product_unit (bs : list Qc) :
  Forall (λ b, 0 ≤ b ≤ 1)%Qc bs →
  (0 ≤ foldr (λ b acc, (1 - b) * acc) 1 bs ≤ 1)%Qc.
Proof.
  induction 1 as [|b bs Hb _ IH]; simpl; [done|].
  pose proof (Qc_complement_unit b Hb) as Hc.
  destruct (Qc_mult_unit _ _ Hc IH) as [Hlo Hhi]. split; [done|].
  destruct IH as [_ IH]. by etrans.
Qed.

(** Each belief is below the probabilistic OR of the whole list. *)
Lemma prob_or_ge_each (bs : list Qc) (b : Qc) :
  Forall (λ b, 0 ≤ b ≤ 1)%Qc bs → b ∈ bs → (b ≤ prob_or bs)%Qc.
Proof.
  unfold prob_or. induction 1 as [|a bs Ha Hbs IH]; [by inversion 1|].
  pose proof (Qc_complement_unit a Ha) as Hc.
  pose proof (complements_product_unit bs Hbs) as Hp.
  simpl. set (p := foldr (λ b acc, (1 - b) * acc)%Qc 1%Qc bs) in *.
  intros [-> | Hin]%elem_of_cons.
  - pose proof (Qc_mult_unit_l _ _ Hc Hp) as Hle.
    revert Hle. generalize ((1 - a) * p)%Qc. intros q Hq.
    Qc_to_Q; lra.
  - specialize (IH Hin).
    destruct (Qc_mult_unit _ _ Hc Hp) as [_ Hle].
    revert Hle IH. generalize ((1 - a) * p)%Qc. intros q Hq IH.
    Qc_to_Q; lra.
Qed.

Lemma max_belief_elem (b : Qc) (bs : list Qc) :
  max_belief b bs ∈ b :: bs.
Proof.
  unfold max_belief. induction bs as [|a bs IH]; simpl; [by left|].
  unfold Qc_max at 1. case_decide.
  - apply elem_of_cons in IH as [-> | IH]; [by left|].
    by do 2 right.
  - right. by left.
Qed.

Lemma prob_or_perm (bs bs' : list Qc) :
  bs ≡ₚ bs' → prob_or bs = prob_or bs'.
Proof.
  unfold prob_or. intros Hp. f_equal.
  induction Hp as [|b bs bs' _ IH|a b bs|bs1 bs2 bs3 _ IH1 _ IH2]; simpl.
  - done.
  - by rewrite IH.
  - ring.
  - by rewrite IH1.
Qed.

Lemma NP_PRECISION_pos fmt : (0 < NP_PRECISION fmt)%Qc.
Proof. unfold NP_PRECISION. Qc_to_Q. reflexivity. Qed.

Lemma fallback_belief_pos fmt : (0 < fallback_belief fmt)%Qc.
Proof.
  unfold fallback_belief. pose proof (NP_PRECISION_pos fmt) as Hp.
  rewrite <- (Qcmult_0_l (Qc_of_Z 10)). by apply Qcmult_lt_compat_r.
Qed.

(** ** Complementary belief *)

(** Without a floating-point error the strategy returns the exact
    probabilistic OR and logs nothing. *)
Lemma complementary_belief_exact fmt {G} `{NxGraph G}
    (g : G) (edge : edge_id) (fa : FlatAttrs) (bs : list Qc) :
  nx_edge_data g edge = Some fa →
  beliefs_of (statements fa) = Some <$> (VFloat <$> bs) →
  arithmetic_failure fmt (VFloat <$> bs) = None →
  _complementary_belief fmt g edge = ret (LNum (prob_or bs)).
Proof.
  intros Hfa Hbs Hok.
  rewrite (complementary_belief_unfold fmt g edge fa _ Hfa Hbs).
  unfold aggregate_beliefs. by rewrite (arithmetic_failure_None fmt bs Hok).
Qed.

(** C1: on a flattened edge whose grouped statements have beliefs
    [b_1 .. b_n], the complementary-belief strategy returns
    [1 - (1 - b_1) * ... * (1 - b_n)] whenever the arithmetic raises no
    floating-point error; nothing is logged. *)
Theorem complementary_belief_prob_or fmt {G} `{NxGraph G}
    (g : G) (edge : edge_id) (fa : FlatAttrs) (bs : list Qc) :
  nx_edge_data g edge = Some fa →
  beliefs_of (statements fa) = Some <$> (VFloat <$> bs) →
  arithmetic_failure fmt (VFloat <$> bs) = None →
  _complementary_belief fmt g edge = ret (LNum (prob_or bs)).
Proof.
  intros Hfa Hbs Hok.
  unfold _complementary_belief, edge_statements.
  rewrite Hfa, bind_ret_l, (read_beliefs _ _ Hbs), bind_ret_l.
  unfold aggregate_beliefs.
  destruct (complement_product_exact fmt bs) as [Hexact | [err Hraise]].
  - by rewrite Hexact.
  - unfold arithmetic_failure in Hok. by rewrite Hraise in Hok.
Qed.

Lemma complementary_belief_prob_or_witness :
  _complementary_belief x87_extended
    (single_edge_graph [Q2Qc (9 # 10); Q2Qc (8 # 10)]) edge_AB
  = ret (LNum (prob_or [Q2Qc (9 # 10); Q2Qc (8 # 10)])).
Proof.
  apply (complementary_belief_prob_or x87_extended
           (single_edge_graph [Q2Qc (9 # 10); Q2Qc (8 # 10)]) edge_AB
           {| statements := stmt_with_belief <$> [Q2Qc (9 # 10); Q2Qc (8 # 10)];
              sign := None; belief := None |}).
  - reflexivity.
  - vm_compute. reflexivity.
  - vm_compute. reflexivity.
Defined.

(** The scenario of the specification: beliefs 0.9 and 0.8 give 0.98. *)
Example prob_or_scenario :
  prob_or [Q2Qc (9 # 10); Q2Qc (8 # 10)] = Q2Qc (98 # 100).
Proof. apply Qc_is_canon. vm_compute. reflexivity. Qed.

(** *** The fallback *)

Lemma NP_PRECISION_resolution fmt :
  (NP_PRECISION fmt * Qc_of_Z (10 ^ Z.of_nat (finfo_precision fmt)) = 1)%Qc.
Proof.
  unfold NP_PRECISION. generalize (finfo_precision fmt). intros p.
  assert (0 < 10 ^ Z.of_nat p)%Z as Hpos by (apply Z.pow_pos_nonneg; lia).
  apply Qc_is_canon. unfold Qc_of_Z. Qc_to_Q.
  generalize dependent (10 ^ Z.of_nat p)%Z. intros n Hn.
  unfold Qeq, Qmult, inject_Z. cbn [Qnum Qden].
  destruct n; lia.
Qed.

(** A power of ten is a power of two only if both are 1, so the
    resolution [10^-p] is never the machine epsilon [2^-nmant]. *)
Lemma pow2_mod5 (n : nat) : ((2 ^ Z.of_nat n) mod 5 ≠ 0)%Z.
Proof.
  induction n as [|n IH]; [done|].
  rewrite Nat2Z.inj_succ, Z.pow_succ_r, <- Z.mul_mod_idemp_r by lia.
  pose proof (Z.mod_pos_bound (2 ^ Z.of_nat n) 5 ltac:(lia)) as Hr.
  revert IH Hr. generalize ((2 ^ Z.of_nat n) mod 5)%Z. intros r Hr0 Hr.
  assert (r = 1 ∨ r = 2 ∨ r = 3 ∨ r = 4)%Z as [->|[->|[->| ->]]] by lia;
    done.
Qed.

Lemma pow10_ne_pow2 (p : nat) (n : positive) :
  (10 ^ Z.of_nat p)%Z ≠ (2 ^ Z.pos n)%Z.
Proof.
  destruct p as [|p].
  - simpl. pose proof (Z.pow_gt_1 2 (Z.pos n)). lia.
  - intros Heq. apply (pow2_mod5 (Pos.to_nat n)).
    rewrite positive_nat_Z, <- Heq, Nat2Z.inj_succ, Z.pow_succ_r by lia.
    replace (10 * 10 ^ Z.of_nat p)%Z with (2 * 10 ^ Z.of_nat p * 5)%Z by lia.
    apply Z.mod_mul. lia.
Qed.

Lemma NP_PRECISION_ne_eps fmt : NP_PRECISION fmt ≠ finfo_eps fmt.
Proof.
  unfold NP_PRECISION, finfo_eps, Qc_pow2_inv. intros Heq.
  apply (f_equal this) in Heq. simpl in Heq. apply Qred_eq_iff in Heq.
  unfold Qeq in Heq. simpl in Heq.
  apply (pow10_ne_pow2 (finfo_precision fmt) (nmant fmt)).
  assert (0 < 10 ^ Z.of_nat (finfo_precision fmt))%Z
    by (apply Z.pow_pos_nonneg; lia).
  rewrite Pos2Z.inj_pow in Heq.
  destruct (10 ^ Z.of_nat (finfo_precision fmt))%Z eqn:E; lia.
Qed.

Lemma fallback_ne_ten_eps fmt :
  fallback_belief fmt ≠ (finfo_eps fmt * Qc_of_Z 10)%Qc.
Proof.
  unfold fallback_belief. intros Heq. apply (NP_PRECISION_ne_eps fmt).
  rewrite <- (Qcmult_1_r (NP_PRECISION fmt)), <- (Qcmult_1_r (finfo_eps fmt)).
  assert (1 = Qc_of_Z 10 * / Qc_of_Z 10)%Qc as ->
    by (apply Qc_is_canon; reflexivity).
  by rewrite !Qcmult_assoc, Heq.
Qed.

Lemma aggregate_beliefs_fallback fmt belief_list err :
  arithmetic_failure fmt belief_list = Some err →
  aggregate_beliefs fmt belief_list
  = ([WarnResetBelief err (fallback_belief fmt)],
     inr (LNum (fallback_belief fmt))).
Proof.
  unfold arithmetic_failure, aggregate_beliefs.
  pose proof (silent_complement_product fmt belief_list) as Hs.
  unfold silent in Hs.
  destruct (complement_product fmt belief_list) as [l [e|a]]; [|done].
  simpl in Hs. subst l. destruct e; try done. by intros [= ->].
Qed.

(** C2 (amended): when the arithmetic of the complementary-belief
    computation raises a floating-point error [err], the error is not
    propagated: the strategy returns the positive value
    [10 * NP_PRECISION], where [NP_PRECISION * 10^p = 1] for the number [p]
    of decimal digits of precision of the float type, and logs exactly one
    warning that carries [err] and that value.  This value is not ten
    times the machine epsilon of the type. *)
Theorem complementary_belief_fallback fmt {G} `{NxGraph G}
    (g : G) (edge : edge_id) (fa : FlatAttrs) (belief_list : list value)
    (err : fp_error) :
  nx_edge_data g edge = Some fa →
  beliefs_of (statements fa) = Some <$> belief_list →
  arithmetic_failure fmt belief_list = Some err →
  _complementary_belief fmt g edge
  = ([WarnResetBelief err (fallback_belief fmt)],
     inr (LNum (fallback_belief fmt)))
  ∧ (0 < fallback_belief fmt)%Qc
  ∧ fallback_belief fmt = (NP_PRECISION fmt * Qc_of_Z 10)%Qc
  ∧ (NP_PRECISION fmt * Qc_of_Z (10 ^ Z.of_nat (finfo_precision fmt)) = 1)%Qc
  ∧ fallback_belief fmt ≠ (finfo_eps fmt * Qc_of_Z 10)%Qc.
Proof.
  intros Hfa Hbl Herr. split_and!.
  - rewrite (complementary_belief_unfold fmt g edge fa _ Hfa Hbl).
    by apply aggregate_beliefs_fallback.
  - apply fallback_belief_pos.
  - done.
  - apply NP_PRECISION_resolution.
  - apply fallback_ne_ten_eps.
Qed.

Lemma complementary_belief_fallback_witness :
  _complementary_belief x87_extended
    (single_edge_graph (replicate 311 almost_one)) edge_AB
  = ([WarnResetBelief Underflow (fallback_belief x87_extended)],
     inr (LNum (fallback_belief x87_extended))).
Proof.
  apply (complementary_belief_fallback x87_extended
           (single_edge_graph (replicate 311 almost_one)) edge_AB
           {| statements := stmt_with_belief <$> replicate 311 almost_one;
              sign := None; belief := None |}
           (VFloat <$> replicate 311 almost_one) Underflow).
  - reflexivity.
  - vm_compute. reflexivity.
  - vm_compute. reflexivity.
Defined.

(** On the x87 format the value returned after a failure is [1e-17],
    whereas ten times the machine epsilon is [10 * 2^-63]. *)
Lemma fallback_is_not_ten_eps :
  arithmetic_failure x87_extended (VFloat <$> replicate 311 almost_one)
  = Some Underflow
  ∧ (_complementary_belief x87_extended
       (single_edge_graph (replicate 311 almost_one)) edge_AB).2
    = inr (LNum (fallback_belief x87_extended))
  ∧ fallback_belief x87_extended = Q2Qc (1 # 100000000000000000)
  ∧ fallback_belief x87_extended
    ≠ (Qc_of_Z 10 * finfo_eps x87_extended)%Qc.
Proof.
  split_and!.
  - vm_compute. reflexivity.
  - vm_compute. reflexivity.
  - apply Qc_is_canon. vm_compute. reflexivity.
  - intros Heq. apply (f_equal this) in Heq. vm_compute in Heq.
    discriminate Heq.
Qed.

(** *** Bounds and symmetry *)

(** C6 (amended): over exact arithmetic, for a non-empty grouped list
    whose beliefs all lie in [0, 1], and when the arithmetic raises no
    floating-point error, the complementary-belief aggregate is at least
    the maximum of the individual beliefs. *)
Theorem complementary_belief_ge_max fmt {G} `{NxGraph G}
    (g : G) (edge : edge_id) (fa : FlatAttrs) (b : Qc) (bs : list Qc) :
  nx_edge_data g edge = Some fa →
  beliefs_of (statements fa) = Some <$> (VFloat <$> b :: bs) →
  Forall (λ x, 0 ≤ x ≤ 1)%Qc (b :: bs) →
  arithmetic_failure fmt (VFloat <$> b :: bs) = None →
  ∃ r, _complementary_belief fmt g edge = ret (LNum r)
       ∧ (max_belief b bs ≤ r)%Qc.
Proof.
  intros Hfa Hbs Hunit Hok. exists (prob_or (b :: bs)). split.
  - by apply (complementary_belief_exact fmt g edge fa).
  - apply prob_or_ge_each; [done|]. apply max_belief_elem.
Qed.

Lemma complementary_belief_ge_max_witness :
  ∃ r, _complementary_belief x87_extended
         (single_edge_graph [Q2Qc (9 # 10); Q2Qc (8 # 10)]) edge_AB
       = ret (LNum r)
       ∧ (max_belief (Q2Qc (9 # 10)) [Q2Qc (8 # 10)] ≤ r)%Qc.
Proof.
  apply (complementary_belief_ge_max x87_extended
           (single_edge_graph [Q2Qc (9 # 10); Q2Qc (8 # 10)]) edge_AB
           {| statements := stmt_with_belief <$> [Q2Qc (9 # 10); Q2Qc (8 # 10)];
              sign := None; belief := None |}).
  - reflexivity.
  - vm_compute. reflexivity.
  - repeat constructor; vm_compute; discriminate.
  - vm_compute. reflexivity.
Defined.

(** Beliefs that are only known to be non-negative can aggregate below
    their maximum: [2, 2] gives [1 - (-1)(-1) = 0].  For beliefs within
    [0, 1] the fallback value is below the maximum: 311 beliefs of
    [1 - 2^-53] underflow the product.  And the bound is one of exact
    arithmetic: with a significand of 64 bits the complement of the single
    belief [2^-70] rounds to 1, and the rounded aggregate is 0. *)
Lemma complementary_belief_below_max :
  (Forall (λ x, 0 ≤ x)%Qc [Qc_of_Z 2; Qc_of_Z 2]
   ∧ arithmetic_failure x87_extended (VFloat <$> [Qc_of_Z 2; Qc_of_Z 2])
     = None
   ∧ (_complementary_belief x87_extended
        (single_edge_graph [Qc_of_Z 2; Qc_of_Z 2]) edge_AB).2
     = inr (LNum (prob_or [Qc_of_Z 2; Qc_of_Z 2]))
   ∧ (prob_or [Qc_of_Z 2; Qc_of_Z 2]
      < max_belief (Qc_of_Z 2) [Qc_of_Z 2])%Qc)
  ∧ (Forall (λ x, 0 ≤ x ≤ 1)%Qc (replicate 311 almost_one)
     ∧ (_complementary_belief x87_extended
          (single_edge_graph (replicate 311 almost_one)) edge_AB).2
       = inr (LNum (fallback_belief x87_extended))
     ∧ (fallback_belief x87_extended
        < max_belief almost_one (replicate 310 almost_one))%Qc)
  ∧ (Forall (λ x, 0 ≤ x ≤ 1)%Qc [Qc_pow2_inv 70]
     ∧ arithmetic_failure x87_extended (VFloat <$> [Qc_pow2_inv 70]) = None
     ∧ (rounded_complement x87_extended (Qc_pow2_inv 70)
        < max_belief (Qc_pow2_inv 70) [])%Qc).
Proof.
  split; [|split]; split_and!.
  - repeat constructor; vm_compute; discriminate.
  - vm_compute. reflexivity.
  - vm_compute. reflexivity.
  - vm_compute. reflexivity.
  - apply Forall_replicate. split; vm_compute; discriminate.
  - vm_compute. reflexivity.
  - vm_compute. reflexivity.
  - repeat constructor; vm_compute; discriminate.
  - vm_compute. reflexivity.
  - vm_compute. reflexivity.
Qed.

(** C7: over exact arithmetic, that is when neither evaluation raises a
    floating-point error, the complementary-belief aggregate of a grouped
    list and of any permutation of it are the same value. *)
Theorem complementary_belief_permutation fmt {G} `{NxGraph G}
    (g g' : G) (edge edge' : edge_id) (fa fa' : FlatAttrs)
    (bs bs' : list Qc) :
  nx_edge_data g edge = Some fa →
  beliefs_of (statements fa) = Some <$> (VFloat <$> bs) →
  nx_edge_data g' edge' = Some fa' →
  beliefs_of (statements fa') = Some <$> (VFloat <$> bs') →
  bs ≡ₚ bs' →
  arithmetic_failure fmt (VFloat <$> bs) = None →
  arithmetic_failure fmt (VFloat <$> bs') = None →
  _complementary_belief fmt g edge = _complementary_belief fmt g' edge'.
Proof.
  intros Hfa Hbs Hfa' Hbs' Hperm Hok Hok'.
  rewrite (complementary_belief_exact fmt g edge fa bs) by done.
  rewrite (complementary_belief_exact fmt g' edge' fa' bs') by done.
  by rewrite (prob_or_perm bs bs').
Qed.

Lemma complementary_belief_permutation_witness :
  _complementary_belief x87_extended
    (single_edge_graph [Q2Qc (9 # 10); Q2Qc (8 # 10)]) edge_AB
  = _complementary_belief x87_extended
      (single_edge_graph [Q2Qc (8 # 10); Q2Qc (9 # 10)]) edge_AB.
Proof.
  apply (complementary_belief_permutation x87_extended _ _ _ _
           {| statements := stmt_with_belief <$> [Q2Qc (9 # 10); Q2Qc (8 # 10)];
              sign := None; belief := None |}
           {| statements := stmt_with_belief <$> [Q2Qc (8 # 10); Q2Qc (9 # 10)];
              sign := None; belief := None |}
           [Q2Qc (9 # 10); Q2Qc (8 # 10)] [Q2Qc (8 # 10); Q2Qc (9 # 10)]).
  - reflexivity.
  - vm_compute. reflexivity.
  - reflexivity.
  - vm_compute. reflexivity.
  - apply Permutation_swap.
  - vm_compute. reflexivity.
  - vm_compute. reflexivity.
Defined.

(** Once the range check is involved the order matters: the same beliefs
    underflow when the factor 0 comes last and do not when it comes
    first. *)
Example fallback_depends_on_order :
  (aggregate_beliefs x87_extended
     (VFloat <$> replicate 311 almost_one ++ [Qc_of_Z 1])).2
  = inr (LNum (fallback_belief x87_extended))
  ∧ (aggregate_beliefs x87_extended
       (VFloat <$> Qc_of_Z 1 :: replicate 311 almost_one)).2
    = inr (LNum (prob_or (Qc_of_Z 1 :: replicate 311 almost_one))).
Proof. split; vm_compute; reflexivity. Qed.

(** Underflow is raised as soon as a product is below the smallest normal
    number and not a subnormal number: 310 factors [2^-53] give the
    subnormal [2^-16430] without an error, and one more factor
    [1/2 + 2^-53] gives a product that no subnormal number holds. *)
Example underflow_below_normal :
  (aggregate_beliefs x87_extended (VFloat <$> replicate 310 almost_one)).2
  = inr (LNum (prob_or (replicate 310 almost_one)))
  ∧ aggregate_beliefs x87_extended
      (VFloat <$> replicate 310 almost_one ++ [almost_half])
    = ([WarnResetBelief Underflow (fallback_belief x87_extended)],
       inr (LNum (fallback_belief x87_extended))).
Proof. split; vm_compute; reflexivity. Qed.

(** ** Ordered dictionaries *)

Section odict_facts.
Context {K V : Type} `{EqDecision K}.
Implicit Types (d : odict K V) (k : K) (v : V).

Lemma od_get_None k d : od_get k d = None ↔ k ∉ od_keys d.
Proof.
  unfold od_keys. induction d as [|[k' v'] d IH]; csimpl.
  - split; [intros _; apply not_elem_of_nil|done].
  - rewrite not_elem_of_cons. case_decide; [|rewrite IH]; naive_solver.
Qed.

Lemma od_get_Some_elem k v d : od_get k d = Some v → (k, v) ∈ d.
Proof.
  induction d as [|[k' v'] d IH]; simpl; [done|].
  case_decide; [intros [= ->]; subst; left|right; auto].
Qed.

Lemma od_mem_true k d : od_mem k d = true ↔ k ∈ od_keys d.
Proof.
  unfold od_mem. destruct (od_get k d) eqn:Hg.
  - split; [intros _|done]. apply od_get_Some_elem in Hg.
    unfold od_keys. apply list_elem_of_fmap. by exists (k, v).
  - apply od_get_None in Hg. naive_solver.
Qed.

Lemma od_mem_false k d : od_mem k d = false ↔ od_get k d = None.
Proof. unfold od_mem. by destruct (od_get k d). Qed.

Lemma od_get_set k k' v d :
  od_get k' (od_set k v d) = if decide (k' = k) then Some v else od_get k' d.
Proof.
  induction d as [|[k0 v0] d IH]; simpl.
  - by case_decide.
  - destruct (decide (k = k0)) as [->|Hne]; simpl.
    + by destruct (decide (k' = k0)).
    + rewrite IH. destruct (decide (k' = k0)) as [->|]; [|done].
      by rewrite decide_False.
Qed.

Lemma od_set_fresh k v d : od_get k d = None → od_set k v d = d ++ [(k, v)].
Proof.
  induction d as [|[k0 v0] d IH]; simpl; [done|].
  case_decide; [done|]. intros Hd. by rewrite IH.
Qed.

Lemma od_keys_set_present k v d :
  is_Some (od_get k d) → od_keys (od_set k v d) = od_keys d.
Proof.
  unfold od_keys. induction d as [|[k0 v0] d IH]; csimpl.
  - by intros [? ?].
  - case_decide; [by subst|]. intros Hd. csimpl. by rewrite IH.
Qed.

Lemma od_keys_set k v d :
  od_keys (od_set k v d)
  = if od_mem k d then od_keys d else od_keys d ++ [k].
Proof.
  destruct (od_mem k d) eqn:Hm.
  - apply od_keys_set_present. unfold od_mem in Hm.
    destruct (od_get k d); [eauto|done].
  - apply od_mem_false in Hm. rewrite od_set_fresh by done.
    unfold od_keys. by rewrite fmap_app.
Qed.

Lemma od_set_NoDup k v d : NoDup (od_keys d) → NoDup (od_keys (od_set k v d)).
Proof.
  rewrite od_keys_set. destruct (od_mem k d) eqn:Hm; [done|].
  intros Hnd. apply NoDup_app. split_and!; [done| |apply NoDup_singleton].
  intros k' Hk' ->%list_elem_of_singleton.
  apply od_mem_true in Hk'. congruence.
Qed.

Lemma od_get_NoDup k v d : NoDup (od_keys d) → (k, v) ∈ d → od_get k d = Some v.
Proof.
  unfold od_keys. induction d as [|[k0 v0] d IH]; csimpl.
  - by intros _ ?%elem_of_nil.
  - intros [Hk0 Hnd]%NoDup_cons [[= -> ->]|Hin]%elem_of_cons.
    + by rewrite decide_True.
    + rewrite decide_False; [auto|]. intros ->. apply Hk0.
      apply list_elem_of_fmap. by exists (k0, v).
Qed.
End odict_facts.

(** ** The schema check *)

Lemma no_ValueError_bind {A B} (m : M A) (f : A → M B) :
  no_ValueError m → (∀ a, no_ValueError (f a)) → no_ValueError (bind m f).
Proof.
  unfold no_ValueError. intros Hm Hf l named.
  destruct m as [l1 [e|a]]; simpl.
  - intros [= -> ->]. by eapply Hm.
  - destruct (f a) as [l2 r] eqn:Hfa. intros [= <- ->]. by eapply Hf.
Qed.

Lemma no_ValueError_ret {A} (a : A) : no_ValueError (ret a).
Proof. done. Qed.

Lemma no_ValueError_TypeError {A} : no_ValueError (@raise A TypeError).
Proof. done. Qed.

Lemma no_ValueError_warning r : no_ValueError (warning r).
Proof. done. Qed.

Lemma no_ValueError_check_hashable v : no_ValueError (check_hashable v).
Proof. unfold check_hashable. by destruct (hashable v). Qed.

Create HintDb no_value_error.

Local Hint Resolve no_ValueError_ret no_ValueError_TypeError
  no_ValueError_warning no_ValueError_check_hashable : no_value_error.

Ltac no_value_error :=
  repeat first
    [ solve [intros ? ?; done]
    | progress auto with no_value_error
    | apply no_ValueError_bind; [|intros ?]
    | case_match ].

Lemma no_ValueError_add_edge (graph : IndraNet) u v key attr :
  no_ValueError (mg_add_edge graph u v key attr).
Proof. unfold mg_add_edge. no_value_error. Qed.

Lemma no_ValueError_add_missing_node graph name ns id node_attr :
  no_ValueError (add_missing_node graph name ns id node_attr).
Proof.
  unfold add_missing_node, mg_nodes_contains, mg_add_node. no_value_error.
Qed.

Lemma no_ValueError_add_row df graph row :
  no_ValueError (add_row df graph row).
Proof.
  unfold add_row, add_edge_kwargs.
  repeat (apply no_ValueError_bind;
          [apply no_ValueError_add_missing_node|intros ?]).
  repeat case_match; auto using no_ValueError_add_edge with no_value_error.
Qed.

Lemma no_ValueError_foldM {A S} (f : S → A → M S) s l :
  (∀ s a, no_ValueError (f s a)) → no_ValueError (foldM f s l).
Proof.
  intros Hf. revert s. induction l; intros s; simpl.
  - apply no_ValueError_ret.
  - apply no_ValueError_bind; auto.
Qed.

Lemma no_ValueError_from_df_row df st ir :
  no_ValueError (from_df_row df st ir).
Proof.
  destruct st as [graph skipped], ir as [index row]. simpl.
  destruct (is_none_row row).
  - no_value_error.
  - apply no_ValueError_bind; [apply no_ValueError_add_row|intros ?; no_value_error].
Qed.

Lemma has_mandatory_columns_missing df :
  has_mandatory_columns df = true ↔ missing_columns df = [].
Proof.
  unfold has_mandatory_columns, missing_columns.
  induction mandatory_columns as [|c l IH]; [done|].
  rewrite filter_cons. cbn [forallb].
  destruct (decide (c ∈ columns df)) as [Hc|Hc].
  - rewrite bool_decide_eq_true_2 by done. rewrite decide_False by auto.
    apply IH.
  - rewrite bool_decide_eq_false_2 by done. by rewrite decide_True.
Qed.

(** C3 (amended): when a mandatory column is absent, [from_df] raises
    before it processes any row and logs nothing; the error lists all
    eleven mandatory columns, whichever are missing (so every missing
    column is among those it names).  When all mandatory columns are
    present, [from_df] raises no such error. *)
Theorem from_df_schema_check (df : DataFrame) :
  match missing_columns df with
  | [] => no_ValueError (from_df df)
  | _ :: _ =>
      from_df df = ([], inl (ValueError mandatory_columns))
      ∧ missing_columns df ⊆ mandatory_columns
  end.
Proof.
  destruct (missing_columns df) as [|c cs] eqn:Hmiss.
  - apply has_mandatory_columns_missing in Hmiss.
    unfold from_df. rewrite Hmiss. simpl.
    apply no_ValueError_bind;
      [apply no_ValueError_foldM, no_ValueError_from_df_row|].
    intros [graph skipped]. no_value_error.
  - split.
    + unfold from_df.
      destruct (has_mandatory_columns df) eqn:Hall; [|done].
      apply has_mandatory_columns_missing in Hall. congruence.
    + rewrite <- Hmiss. unfold missing_columns.
      intros x [_ ?]%list_elem_of_filter. done.
Qed.

(** With only [belief] missing, the error still names [agA_name] and the
    other ten columns: it is the same error for every incomplete table, so
    it does not name the missing columns. *)
Lemma from_df_error_names_all_columns :
  missing_columns df_no_belief = ["belief"]
  ∧ from_df df_no_belief = ([], inl (ValueError mandatory_columns))
  ∧ from_df df_no_belief
    ≠ ([], inl (ValueError (missing_columns df_no_belief))).
Proof. split_and!; [by vm_compute..|]. vm_compute. discriminate. Qed.

(** ** Rows with a [None] endpoint *)

Lemma silent_ret {A} (a : A) : silent (ret a).
Proof. done. Qed.

Lemma silent_raise {A} (e : exn) : silent (@raise A e).
Proof. done. Qed.

Lemma silent_check_hashable v : silent (check_hashable v).
Proof. unfold check_hashable. by destruct (hashable v). Qed.

Ltac silent_tac :=
  repeat first
    [ solve [unfold silent; done]
    | apply silent_check_hashable
    | apply silent_bind; [|intros ?]
    | case_match ].

Lemma silent_mg_add_edge (graph : IndraNet) u v key attr :
  silent (mg_add_edge graph u v key attr).
Proof. unfold mg_add_edge. silent_tac. Qed.

Lemma silent_add_missing_node graph name ns id node_attr :
  silent (add_missing_node graph name ns id node_attr).
Proof.
  unfold add_missing_node, mg_nodes_contains, mg_add_node. silent_tac.
Qed.

Lemma silent_add_row df graph row : silent (add_row df graph row).
Proof.
  unfold add_row, add_edge_kwargs.
  repeat (apply silent_bind; [apply silent_add_missing_node|intros ?]).
  repeat case_match; auto using silent_mg_add_edge, silent_raise.
Qed.

Lemma silent_add_rows df graph rows : silent (add_rows df graph rows).
Proof. apply silent_foldM. intros. apply silent_add_row. Qed.

Lemma bind_nil_inr {A B} (a : A) (f : A → M B) : bind ([], inr a) f = f a.
Proof. apply bind_ret_l. Qed.

(** The loop over all rows does to the graph what the loop over the kept
    rows does, counts the skipped rows and logs one warning for each. *)
Lemma from_df_loop df (rows : list (Z * Row)) (graph : IndraNet) (k : nat) :
  let kept := filter (λ ir, is_none_row ir.2 = false) rows in
  let none := filter (λ ir, is_none_row ir.2 = true) rows in
  match (add_rows df graph kept).2 with
  | inr graph' =>
      foldM (from_df_row df) (graph, k) rows
      = (WarnNoneNode <$> none.*1, inr (graph', k + length none))
  | inl e => (foldM (from_df_row df) (graph, k) rows).2 = inl e
  end.
Proof.
  revert graph k. induction rows as [|[index row] rows IH]; intros graph k.
  - simpl. unfold ret. by rewrite Nat.add_0_r.
  - cbn zeta. rewrite !filter_cons. cbn [snd foldM from_df_row].
    destruct (is_none_row row) eqn:Hnone.
    + rewrite decide_False by done. rewrite decide_True by done.
      specialize (IH graph (S k)). cbn zeta in IH.
      destruct (add_rows df graph _).2 as [e|graph'].
      * unfold warning, bind. simpl.
        destruct (foldM (from_df_row df) (graph, S k) rows) as [l r].
        simpl in *. done.
      * unfold warning, bind. simpl. rewrite IH. csimpl.
        do 3 f_equal. lia.
    + rewrite decide_True by done. rewrite decide_False by done.
      unfold add_rows. cbn [foldM snd].
      pose proof (silent_add_row df graph row) as Hs. unfold silent in Hs.
      destruct (add_row df graph row) as [l [e|graph1]]; simpl in Hs; subst l.
      * done.
      * rewrite !bind_nil_inr, bind_ret_l. apply IH.
Qed.

(** [from_df] in terms of the loop over the kept rows. *)
Lemma from_df_kept df :
  has_mandatory_columns df = true →
  match (add_rows df mg_empty (kept_rows df)).2 with
  | inr graph => from_df df = (skip_log df, inr graph)
  | inl e => (from_df df).2 = inl e
  end.
Proof.
  intros Hcols. unfold from_df. rewrite Hcols. cbn [negb].
  pose proof (from_df_loop df (iterrows df) mg_empty O) as Hloop.
  cbn zeta in Hloop. fold (kept_rows df) in Hloop. fold (none_rows df) in Hloop.
  destruct (add_rows df mg_empty (kept_rows df)).2 as [e|graph].
  - destruct (foldM _ _ _) as [l r]. simpl in *. by subst r.
  - rewrite Hloop. unfold skip_log. cbn [bind]. rewrite Nat.add_0_l.
    by destruct (decide (length (none_rows df) = 0)).
Qed.

(** *** Tables with arbitrary labels *)

Lemma bind_ext {A B} (m : M A) (f g : A → M B) :
  (∀ a, f a = g a) → bind m f = bind m g.
Proof. intros Hfg. destruct m as [l [e|a]]; simpl; [done|]. by rewrite Hfg. Qed.












Lemma has_mandatory_labels_labelled df :
  has_mandatory_labels (labelled df) = has_mandatory_columns df.
Proof.
  unfold has_mandatory_labels, has_mandatory_columns. cbn [column_labels labelled].
  induction mandatory_columns as [|c l IH]; [done|]. cbn [forallb].
  rewrite IH. f_equal. apply bool_decide_ext. rewrite list_elem_of_fmap.
  split; [by intros (s & [= ->] & ?)|eauto].
Qed.

Lemma mapM_check_hashable_strings (keys : list string) {B} (k : M B) :
  (mapM check_hashable (VStr <$> keys) ;;; k) = k.
Proof.
  rewrite (mapM_ret check_hashable (λ _, tt)); [apply bind_ret_l|].
  by intros a (s & -> & _)%list_elem_of_fmap.
Qed.

Lemma mapM_column_name_strings (keys : list string) :
  mapM column_name (VStr <$> keys) = ret keys.
Proof.
  induction keys as [|s keys IH]; [done|].
  rewrite fmap_cons. cbn [mapM column_name].
  by rewrite bind_ret_l, IH, bind_ret_l.
Qed.

Lemma string_columns_strings t keys :
  column_labels t = VStr <$> keys →
  has_mandatory_labels t = true →
  string_columns t = ret keys.
Proof.
  unfold string_columns, has_mandatory_labels. intros Hkeys Hcols.
  rewrite Hcols. cbn [negb]. rewrite Hkeys.
  rewrite mapM_check_hashable_strings. apply mapM_column_name_strings.
Qed.

Lemma string_columns_missing t keys :
  column_labels t = VStr <$> keys →
  has_mandatory_labels t = false →
  string_columns t = raise (ValueError mandatory_columns).
Proof.
  unfold string_columns, has_mandatory_labels. intros Hkeys Hcols.
  rewrite Hcols. cbn [negb]. rewrite Hkeys.
  by rewrite mapM_check_hashable_strings.
Qed.

Lemma labelled_loop_int df (rows : list (Z * Row)) st :
  foldM (from_df_row_labelled {| columns := columns df; iterrows := [] |})
    st (prod_map VInt id <$> rows)
  = foldM (from_df_row df) st rows.
Proof.
  revert st. induction rows as [|[index row] rows IH]; intros st; [done|].
  rewrite fmap_cons. cbn [foldM prod_map fst snd id].
  etrans; [|apply bind_ext, IH]. done.
Qed.

(** On a table with string column labels and integer index labels the
    two embeddings of [from_df] agree. *)
Lemma from_df_labelled_int (df : DataFrame) :
  from_df_labelled (labelled df) = from_df df.
Proof.
  unfold from_df_labelled, from_df.
  destruct (has_mandatory_columns df) eqn:Hcols; cbn [negb].
  - rewrite (string_columns_strings (labelled df) (columns df));
      [|done|by rewrite has_mandatory_labels_labelled].
    rewrite bind_ret_l. cbn [labelled_rows labelled].
    by rewrite labelled_loop_int.
  - by rewrite (string_columns_missing (labelled df) (columns df));
      [|done|rewrite has_mandatory_labels_labelled].
Qed.




(** With the index labels [7] and [2.5] on the skipped rows the warnings
    name the rows [7] and [2]. *)
Example from_df_mixed_index_log :
  (from_df_labelled mixed_index_frame).1
  = [WarnNoneNode 7; WarnNoneNode 2; WarnSkipped 2].
Proof. vm_compute. reflexivity. Qed.

(** ** Rows of a valid table *)

Section odict_more.
Context {K V : Type} `{EqDecision K}.
Implicit Types (d : odict K V) (k : K) (v : V).

Lemma od_get_app k d1 d2 :
  od_get k (d1 ++ d2)
  = match od_get k d1 with Some v => Some v | None => od_get k d2 end.
Proof.
  induction d1 as [|[k0 v0] d1 IH]; simpl; [done|]. by case_decide.
Qed.

Lemma od_mem_keys_eq {V'} k d (d' : odict K V') :
  od_keys d = od_keys d' → od_mem k d = od_mem k d'.
Proof.
  intros Hk. destruct (od_mem k d') eqn:Hm.
  - apply od_mem_true. rewrite Hk. by apply od_mem_true.
  - destruct (od_mem k d) eqn:Hm'; [|done].
    apply od_mem_true in Hm'. rewrite Hk in Hm'.
    apply od_mem_true in Hm'. congruence.
Qed.
End odict_more.

Lemma check_hashable_true v : hashable v = true → check_hashable v = ret ().
Proof. unfold check_hashable. by intros ->. Qed.

Lemma add_missing_node_pure (g : IndraNet) name ns id node_attr :
  hashable name = true →
  od_keys (mg_node g) = od_keys (mg_adj g) →
  add_missing_node g name ns id node_attr
  = ret (add_node_pure g (name, <["ns" := ns]> (<["id" := id]> node_attr))).
Proof.
  intros Hh Hal. unfold add_missing_node, mg_nodes_contains, mg_add_node,
    add_node_pure. rewrite (check_hashable_true _ Hh), !bind_ret_l. cbn [fst].
  destruct (od_mem name (mg_node g)) eqn:Hm; [done|].
  rewrite <- (od_mem_keys_eq name _ _ Hal), Hm.
  apply od_mem_false in Hm as Hg.
  rewrite (od_set_fresh _ _ _ Hg).
  rewrite (od_mem_keys_eq name _ _ Hal) in Hm. apply od_mem_false in Hm.
  by rewrite (od_set_fresh _ _ _ Hm).
Qed.

Lemma mg_touch_known {D} (g : MultiDiGraph D) n :
  n ∈ od_keys (mg_adj g) → mg_touch n g = g.
Proof. intros Hn%od_mem_true. unfold mg_touch. by rewrite Hn. Qed.

Lemma seqZ_keys_fresh {D} (keydict : odict value D) :
  od_keys keydict = VInt <$> seqZ 0 (Z.of_nat (length keydict)) →
  od_get (VInt (Z.of_nat (length keydict))) keydict = None.
Proof.
  intros Hk. apply od_get_None. rewrite Hk.
  intros (z & [= <-] & Hz%elem_of_seqZ)%list_elem_of_fmap. lia.
Qed.

Lemma next_free_key_fresh {D} (keydict : odict value D) fuel key :
  od_get (VInt key) keydict = None → next_free_key fuel key keydict = key.
Proof.
  intros Hk%od_mem_false. destruct fuel; simpl; [done|]. by rewrite Hk.
Qed.

(** The loop of [new_edge_key] ends within its fuel on a free key. *)
Lemma keys_from_succ {D} (keydict : odict value D) key :
  od_mem (VInt key) keydict = true →
  length (keys_from (key + 1) keydict) < length (keys_from key keydict).
Proof.
  intros Hm%od_mem_true. unfold keys_from. revert Hm.
  induction (od_keys keydict) as [|k ks IH]; [by intros ?%elem_of_nil|].
  assert (length (filter (λ k, match k with
                               | VInt z => bool_decide (key + 1 ≤ z)%Z
                               | _ => false end = true) ks)
          ≤ length (filter (λ k, match k with
                                 | VInt z => bool_decide (key ≤ z)%Z
                                 | _ => false end = true) ks)) as Hle.
  { clear. induction ks as [|k ks IH]; [done|]. rewrite !filter_cons.
    destruct k as [| | |z| |]; try (rewrite !decide_False by done; done).
    destruct (decide (key + 1 ≤ z)%Z).
    - rewrite !decide_True by (apply bool_decide_eq_true; lia). simpl. lia.
    - rewrite (decide_False (P:=bool_decide (key + 1 ≤ z)%Z = true))
        by (rewrite bool_decide_eq_true; lia).
      case_decide; simpl; lia. }
  rewrite !filter_cons. intros [<-|Hin]%elem_of_cons.
  - rewrite decide_False by (rewrite bool_decide_eq_true; lia).
    rewrite decide_True by (apply bool_decide_eq_true; lia). simpl. lia.
  - specialize (IH Hin). repeat case_decide; simpl; try lia.
    destruct k; try done. rewrite bool_decide_eq_true in *. lia.
Qed.

Lemma next_free_key_free {D} (keydict : odict value D) fuel key :
  length (keys_from key keydict) ≤ fuel →
  od_get (VInt (next_free_key fuel key keydict)) keydict = None.
Proof.
  revert key. induction fuel as [|fuel IH]; intros key Hlen; simpl.
  - apply od_get_None. intros Hin.
    assert (VInt key ∈ keys_from key keydict) as Hf.
    { apply list_elem_of_filter. split; [|done].
      apply bool_decide_eq_true. lia. }
    destruct (keys_from key keydict); [by apply elem_of_nil in Hf|].
    simpl in Hlen. lia.
  - destruct (od_mem (VInt key) keydict) eqn:Hm.
    + apply IH. pose proof (keys_from_succ keydict key Hm). lia.
    + by apply od_mem_false.
Qed.

Lemma mg_new_edge_key_free {D} (G : MultiDiGraph D) u v keydict :
  mg_keydict G u v = Some keydict →
  od_get (mg_new_edge_key G u v) keydict = None.
Proof.
  intros Hkd. unfold mg_new_edge_key. rewrite Hkd.
  apply next_free_key_free. unfold keys_from.
  etrans; [apply length_filter|]. unfold od_keys. by rewrite length_fmap.
Qed.

Lemma mg_add_edge_pure (g : IndraNet) u v data :
  from_df_inv g →
  hashable u = true → hashable v = true →
  u ∈ od_keys (mg_adj g) → v ∈ od_keys (mg_adj g) →
  mg_add_edge g u v VNone data = ret (add_edge_pure g u v data).
Proof.
  intros [Hal Hkeys] Hu Hv Huin Hvin.
  unfold mg_add_edge.
  rewrite (check_hashable_true _ Hu), (check_hashable_true _ Hv), !bind_ret_l.
  rewrite (mg_touch_known g u Huin), (mg_touch_known g v Hvin).
  rewrite decide_True by done. unfold mg_new_edge_key, add_edge_pure.
  specialize (Hkeys u v). unfold mg_keydict in *.
  destruct (od_get u (mg_adj g)) as [nbrs|] eqn:Hnbrs; simpl in *.
  - destruct (od_get v nbrs) as [keydict|] eqn:Hkd; simpl.
    + pose proof (seqZ_keys_fresh keydict (Hkeys _ eq_refl)) as Hfresh.
      rewrite (next_free_key_fresh _ _ _ Hfresh), Hfresh.
      by rewrite (od_set_fresh _ _ _ Hfresh).
    + done.
  - done.
Qed.

Lemma row_attrs_lookup_None keys row k :
  k ∉ keys → row_attrs keys row !! k = None.
Proof.
  intros Hk. apply not_elem_of_list_to_map_1.
  by rewrite <- list_fmap_compose, list_fmap_id.
Qed.

Lemma edge_keys_columns df k : k ∈ edge_keys df → k ∈ columns df.
Proof. unfold edge_keys. by intros [_ ?]%list_elem_of_filter. Qed.

Lemma add_edge_kwargs_valid df (g : IndraNet) row :
  forallb (λ c, bool_decide (c ∉ reserved_keywords)) (columns df) = true →
  add_edge_kwargs g (edge_kwargs df row)
  = mg_add_edge g (row "agA_name") (row "agB_name") VNone (edge_data df row).
Proof.
  intros Hcols. rewrite forallb_forall in Hcols.
  assert (∀ k, k ∈ reserved_keywords →
               row_attrs (edge_keys df) row !! k = None) as Hres.
  { intros k Hk. apply row_attrs_lookup_None. intros Hin%edge_keys_columns.
    apply list_elem_of_In, Hcols, bool_decide_eq_true in Hin. done. }
  unfold add_edge_kwargs, edge_data, edge_kwargs.
  rewrite !lookup_union_r by (apply Hres; set_solver).
  done.
Qed.

Lemma add_node_pure_node g spec :
  mg_node (add_node_pure g spec) = add_if_new (mg_node g) spec.
Proof. unfold add_node_pure, add_if_new. by case_match. Qed.

Lemma add_node_pure_keydict g spec u v :
  mg_keydict (add_node_pure g spec) u v = mg_keydict g u v.
Proof.
  unfold add_node_pure, mg_keydict. case_match; [done|]. cbn [mg_adj].
  rewrite od_get_app. destruct (od_get u (mg_adj g)); [done|].
  simpl. by case_decide.
Qed.

Lemma add_node_pure_inv g spec :
  from_df_inv g → from_df_inv (add_node_pure g spec).
Proof.
  intros [Hal Hkeys]. split.
  - unfold add_node_pure. case_match; [done|]. cbn [mg_node mg_adj].
    unfold od_keys in *. by rewrite !fmap_app, Hal.
  - intros u v keydict. rewrite add_node_pure_keydict. apply Hkeys.
Qed.

Lemma add_node_pure_mono g spec n :
  n ∈ od_keys (mg_adj g) → n ∈ od_keys (mg_adj (add_node_pure g spec)).
Proof.
  unfold add_node_pure. case_match; [done|]. cbn [mg_adj].
  unfold od_keys. rewrite fmap_app. set_solver.
Qed.

Lemma add_node_pure_known g spec :
  od_keys (mg_node g) = od_keys (mg_adj g) →
  spec.1 ∈ od_keys (mg_adj (add_node_pure g spec)).
Proof.
  intros Hal. unfold add_node_pure.
  destruct (od_mem spec.1 (mg_node g)) eqn:Hm.
  - rewrite <- Hal. by apply od_mem_true.
  - cbn [mg_adj]. unfold od_keys. rewrite fmap_app. set_solver.
Qed.

Lemma add_edge_pure_keydict g u v data u' v' :
  mg_keydict (add_edge_pure g u v data) u' v'
  = if decide (u' = u ∧ v' = v)
    then Some (default [] (mg_keydict g u v) ++
               [(VInt (Z.of_nat (length (default [] (mg_keydict g u v)))),
                 data)])
    else mg_keydict g u' v'.
Proof.
  unfold add_edge_pure, mg_keydict. cbn [mg_adj].
  rewrite od_get_set. destruct (decide (u' = u)) as [->|Hu].
  - simpl. rewrite od_get_set. destruct (decide (v' = v)) as [->|Hv].
    + rewrite decide_True by done. by destruct (od_get u (mg_adj g)).
    + rewrite decide_False by naive_solver.
      by destruct (od_get u (mg_adj g)).
  - by rewrite decide_False by naive_solver.
Qed.

Lemma add_edge_pure_inv g u v data :
  from_df_inv g → u ∈ od_keys (mg_adj g) →
  from_df_inv (add_edge_pure g u v data).
Proof.
  intros [Hal Hkeys] Hu. split.
  - unfold add_edge_pure. cbn [mg_node mg_adj].
    rewrite od_keys_set_present; [done|].
    apply od_mem_true in Hu. unfold od_mem in Hu.
    destruct (od_get u (mg_adj g)); [eauto|done].
  - intros u' v' keydict. rewrite add_edge_pure_keydict.
    case_decide as Huv; [|apply Hkeys]. intros [= <-].
    specialize (Hkeys u v).
    destruct (mg_keydict g u v) as [kd|]; simpl; [|done].
    unfold od_keys in *. rewrite fmap_app, length_app, (Hkeys kd eq_refl).
    simpl. rewrite Nat2Z.inj_add. rewrite seqZ_app by lia.
    by rewrite fmap_app.
Qed.

Lemma add_row_valid df (g : IndraNet) row :
  forallb (λ c, bool_decide (c ∉ reserved_keywords)) (columns df) = true →
  from_df_inv g →
  hashable (row "agA_name") = true → hashable (row "agB_name") = true →
  add_row df g row = ret (add_row_pure df g row)
  ∧ from_df_inv (add_row_pure df g row).
Proof.
  intros Hcols Hinv HA HB.
  pose proof (add_node_pure_inv g (node_spec "agA" df row) Hinv) as Hinv1.
  pose proof (add_node_pure_inv _ (node_spec "agB" df row) Hinv1) as Hinv2.
  assert (row "agA_name" ∈ od_keys (mg_adj
            (add_node_pure (add_node_pure g (node_spec "agA" df row))
               (node_spec "agB" df row)))) as HAin.
  { apply add_node_pure_mono.
    apply (add_node_pure_known g (node_spec "agA" df row)), Hinv. }
  assert (row "agB_name" ∈ od_keys (mg_adj
            (add_node_pure (add_node_pure g (node_spec "agA" df row))
               (node_spec "agB" df row)))) as HBin.
  { apply (add_node_pure_known _ (node_spec "agB" df row)), Hinv1. }
  split; [|by apply add_edge_pure_inv].
  unfold add_row.
  rewrite (add_missing_node_pure g _ _ _ _ HA (inv_aligned _ Hinv)).
  rewrite bind_ret_l.
  rewrite (add_missing_node_pure _ _ _ _ _ HB (inv_aligned _ Hinv1)).
  rewrite bind_ret_l, (add_edge_kwargs_valid _ _ _ Hcols).
  by apply mg_add_edge_pure.
Qed.

Lemma add_rows_valid df (rows : list (Z * Row)) (g : IndraNet) :
  forallb (λ c, bool_decide (c ∉ reserved_keywords)) (columns df) = true →
  from_df_inv g →
  forallb (λ ir : Z * Row,
             hashable (ir.2 "agA_name") && hashable (ir.2 "agB_name")) rows
  = true →
  add_rows df g rows = ret (foldl (add_row_pure df) g rows.*2)
  ∧ from_df_inv (foldl (add_row_pure df) g rows.*2).
Proof.
  intros Hcols. revert g.
  induction rows as [|[index row] rows IH]; intros g Hinv Hh; [done|].
  cbn [forallb snd] in Hh. apply andb_true_iff in Hh as [Hrow Hh].
  apply andb_true_iff in Hrow as [HA HB].
  destruct (add_row_valid df g row Hcols Hinv HA HB) as [Hstep Hinv'].
  unfold add_rows. cbn [foldM snd]. rewrite Hstep, bind_ret_l.
  csimpl. apply (IH _ Hinv' Hh).
Qed.

Lemma from_df_inv_empty : from_df_inv mg_empty.
Proof. split; [done|]. by intros u v keydict. Qed.

(** On a valid table [from_df] returns; its graph is the kept rows
    added one after the other. *)
Lemma from_df_valid df :
  valid_table df = true →
  from_df df
  = (skip_log df, inr (foldl (add_row_pure df) mg_empty (kept_rows df).*2))
  ∧ from_df_inv (foldl (add_row_pure df) mg_empty (kept_rows df).*2).
Proof.
  unfold valid_table. intros [[Hm Hcols]%andb_true_iff Hh]%andb_true_iff.
  destruct (add_rows_valid df (kept_rows df) mg_empty Hcols
              from_df_inv_empty Hh) as [Hrun Hinv].
  split; [|done]. pose proof (from_df_kept df Hm) as Hk.
  by rewrite Hrun in Hk.
Qed.

(** ** Nodes: first-seen attributes *)

Lemma foldl_add_if_new_get name specs acc :
  od_get name (foldl add_if_new acc specs)
  = match od_get name acc with
    | Some a => Some a
    | None => od_get name specs
    end.
Proof.
  revert acc. induction specs as [|[n a] specs IH]; intros acc; simpl.
  - by destruct (od_get name acc).
  - rewrite IH. unfold add_if_new. cbn [fst].
    destruct (od_mem n acc) eqn:Hm.
    + destruct (od_get name acc) eqn:Hg; [done|].
      case_decide; [|done]. subst. apply od_mem_true, od_get_None in Hm; done.
    + rewrite od_get_app. destruct (od_get name acc); [done|].
      simpl. by case_decide.
Qed.

Lemma add_if_new_NoDup nodes spec :
  NoDup (od_keys nodes) → NoDup (od_keys (add_if_new nodes spec)).
Proof.
  unfold add_if_new. destruct (od_mem spec.1 nodes) eqn:Hm; [done|].
  intros Hnd. unfold od_keys. rewrite fmap_app. apply NoDup_app.
  split_and!; [done| |apply NoDup_singleton].
  intros k Hk ->%list_elem_of_singleton.
  apply od_mem_true in Hk. congruence.
Qed.

Lemma foldl_add_if_new_NoDup specs acc :
  NoDup (od_keys acc) → NoDup (od_keys (foldl add_if_new acc specs)).
Proof.
  revert acc. induction specs as [|spec specs IH]; intros acc; simpl; [done|].
  intros. by apply IH, add_if_new_NoDup.
Qed.

Lemma first_seen_keys specs name :
  name ∈ od_keys (first_seen specs) ↔ name ∈ specs.*1.
Proof.
  unfold first_seen.
  rewrite <- (od_mem_true (V:=attrs)). unfold od_mem.
  rewrite foldl_add_if_new_get. simpl.
  apply (od_mem_true name specs).
Qed.

Lemma first_seen_length specs :
  length (first_seen specs) = length (remove_dups specs.*1).
Proof.
  rewrite <- (length_fmap fst (first_seen specs)).
  apply Permutation_length, NoDup_Permutation.
  - apply (foldl_add_if_new_NoDup specs []). constructor.
  - apply NoDup_remove_dups.
  - intros name. rewrite elem_of_remove_dups. apply first_seen_keys.
Qed.

Lemma add_row_pure_node df g row :
  mg_node (add_row_pure df g row)
  = add_if_new (add_if_new (mg_node g) (node_spec "agA" df row))
      (node_spec "agB" df row).
Proof. unfold add_row_pure. cbn [add_edge_pure mg_node].
  by rewrite !add_node_pure_node. Qed.

Lemma foldl_add_row_pure_node df (rows : list (Z * Row)) g :
  mg_node (foldl (add_row_pure df) g rows.*2)
  = foldl add_if_new (mg_node g)
      (ir ← rows; [node_spec "agA" df ir.2; node_spec "agB" df ir.2]).
Proof.
  revert g. induction rows as [|[index row] rows IH]; intros g; [done|].
  csimpl. by rewrite IH, add_row_pure_node.
Qed.

Lemma add_missing_node_known (graph : IndraNet) name ns id node_attr :
  hashable name = true → od_mem name (mg_node graph) = true →
  add_missing_node graph name ns id node_attr = ret graph.
Proof.
  intros Hh Hm. unfold add_missing_node, mg_nodes_contains.
  by rewrite (check_hashable_true _ Hh), !bind_ret_l, Hm.
Qed.

Lemma from_df_nodes_first_seen_aux df :
  valid_table df = true →
  ∃ g, from_df df = (skip_log df, inr g)
       ∧ mg_node g = first_seen (endpoint_specs df).
Proof.
  intros Hvalid. destruct (from_df_valid df Hvalid) as [Hrun _].
  eexists. split; [exact Hrun|]. apply foldl_add_row_pure_node.
Qed.

(** C9: on a valid table (mandatory columns present, no column named
    like a parameter of [add_edge], hashable endpoint names) [from_df]
    returns a graph whose node table holds, for each name, the attributes
    of the first endpoint of the kept rows that has this name: the name
    identifies the node and later rows neither overwrite nor merge.  The
    table has one entry per distinct endpoint name of the kept rows.
    Adding a node under a known name leaves any graph as it is. *)
Theorem from_df_nodes_first_seen (df : DataFrame) :
  valid_table df = true →
  ∃ g, from_df df = (skip_log df, inr g)
       ∧ mg_node g = first_seen (endpoint_specs df)
       ∧ (∀ name, od_get name (mg_node g) = od_get name (endpoint_specs df))
       ∧ NoDup (od_keys (mg_node g))
       ∧ length (mg_node g) = length (remove_dups (endpoint_names df))
       ∧ (∀ (graph : IndraNet) name ns id node_attr,
            hashable name = true → od_mem name (mg_node graph) = true →
            add_missing_node graph name ns id node_attr = ret graph).
Proof.
  intros Hvalid. destruct (from_df_valid df Hvalid) as [Hrun _].
  eexists. split; [exact Hrun|].
  assert (mg_node (foldl (add_row_pure df) mg_empty (kept_rows df).*2)
          = first_seen (endpoint_specs df)) as Hnodes
    by apply foldl_add_row_pure_node.
  rewrite Hnodes. split_and!.
  - done.
  - intros name. unfold first_seen. by rewrite foldl_add_if_new_get.
  - apply (foldl_add_if_new_NoDup _ []). constructor.
  - apply first_seen_length.
  - apply add_missing_node_known.
Qed.

Lemma from_df_nodes_first_seen_witness :
  ∃ g, from_df df_mixed = (skip_log df_mixed, inr g)
       ∧ mg_node g = first_seen (endpoint_specs df_mixed)
       ∧ (∀ name, od_get name (mg_node g)
                  = od_get name (endpoint_specs df_mixed))
       ∧ NoDup (od_keys (mg_node g))
       ∧ length (mg_node g) = length (remove_dups (endpoint_names df_mixed))
       ∧ (∀ (graph : IndraNet) name ns id node_attr,
            hashable name = true → od_mem name (mg_node graph) = true →
            add_missing_node graph name ns id node_attr = ret graph).
Proof. apply (from_df_nodes_first_seen df_mixed). reflexivity. Defined.

(** The mixed table has the three nodes A, B and NaN. *)
Example df_mixed_nodes :
  od_keys (first_seen (endpoint_specs df_mixed)) = [VStr "A"; VStr "B"; VNaN]
  ∧ skip_log df_mixed = [WarnNoneNode 2; WarnSkipped 1].
Proof. split; reflexivity. Qed.

(** Why validity excludes columns named like a parameter of
    [add_edge]: the keyword arguments of the call are built from the row,
    so such a column replaces the source of the edge, and [add_edge]
    creates the node it names. *)
Example reserved_column_becomes_endpoint :
  valid_table df_reserved = false
  ∧ od_keys (mg_node (result_or mg_empty (from_df df_reserved)))
    = [VStr "A"; VStr "B"; VStr "Z"]
  ∧ mg_edges (result_or mg_empty (from_df df_reserved))
    = [(VStr "Z", VStr "B", VInt 0)].
Proof. split_and!; vm_compute; reflexivity. Qed.

(** ** Edges of the kept rows *)

Lemma od_values_app {K V} (d1 d2 : odict K V) :
  od_values (d1 ++ d2) = od_values d1 ++ od_values d2.
Proof. unfold od_values. apply fmap_app. Qed.

Lemma pair_data_add_row df g row u v :
  pair_data (add_row_pure df g row) u v
  = pair_data g u v ++
    (if decide (row "agA_name" = u ∧ row "agB_name" = v)
     then [edge_data df row] else []).
Proof.
  unfold pair_data, add_row_pure. rewrite add_edge_pure_keydict.
  rewrite !add_node_pure_keydict.
  destruct (decide (u = row "agA_name" ∧ v = row "agB_name")) as [[-> ->]|Hne].
  - rewrite decide_True by done. simpl. rewrite od_values_app.
    by destruct (mg_keydict g _ _).
  - rewrite decide_False by naive_solver. by rewrite app_nil_r.
Qed.

Lemma pair_data_foldl df (rows : list (Z * Row)) g u v :
  pair_data (foldl (add_row_pure df) g rows.*2) u v
  = pair_data g u v ++
    (edge_data df <$>
       (filter (λ ir : Z * Row,
                  ir.2 "agA_name" = u ∧ ir.2 "agB_name" = v) rows).*2).
Proof.
  revert g. induction rows as [|[index row] rows IH]; intros g.
  - by rewrite app_nil_r.
  - csimpl. rewrite IH, pair_data_add_row, <- app_assoc. f_equal.
    rewrite filter_cons. cbn [snd]. by case_decide.
Qed.

Lemma pair_data_edges {D} (g : MultiDiGraph D) u v data :
  data ∈ pair_data g u v → (u, v, data) ∈ mg_edges_data g.
Proof.
  unfold pair_data, mg_keydict, mg_edges_data.
  destruct (od_get u (mg_adj g)) as [nbrs|] eqn:Hu; simpl;
    [|by intros ?%elem_of_nil].
  destruct (od_get v nbrs) as [keydict|] eqn:Hv; simpl;
    [|by intros ?%elem_of_nil].
  intros ([key d] & -> & Hin)%list_elem_of_fmap.
  apply od_get_Some_elem in Hu, Hv.
  apply list_elem_of_bind. exists (u, nbrs). split; [|done].
  apply list_elem_of_bind. exists (v, keydict). split; [|done].
  apply list_elem_of_bind. exists (key, d). split; [|done].
  by apply list_elem_of_singleton.
Qed.

(** The raw edges between two nodes are the kept rows between them, in
    row order. *)
Lemma from_df_pair_data df u v :
  valid_table df = true →
  ∃ g, from_df df = (skip_log df, inr g)
       ∧ pair_data g u v = edge_data df <$> (rows_between df u v).*2.
Proof.
  intros Hvalid. destruct (from_df_valid df Hvalid) as [Hrun _].
  eexists. split; [exact Hrun|]. by rewrite pair_data_foldl.
Qed.

(** C10: the skip test compares with [None] only.  On a valid table, a
    row one endpoint name of which is NaN, the other not being [None], is
    not skipped and is not among the rows the skip count counts; the graph
    has a node keyed by NaN and the raw edge of the row, which is incident
    to that node. *)
Theorem from_df_keeps_nan_rows (df : DataFrame) (index : Z) (row : Row) :
  valid_table df = true →
  (index, row) ∈ iterrows df →
  row "agA_name" = VNaN ∨ row "agB_name" = VNaN →
  row "agA_name" ≠ VNone → row "agB_name" ≠ VNone →
  ∃ g, from_df df = (skip_log df, inr g)
       ∧ is_none_row row = false
       ∧ ¬ ((index, row) ∈ none_rows df)
       ∧ VNaN ∈ od_keys (mg_node g)
       ∧ (row "agA_name", row "agB_name", edge_data df row)
         ∈ mg_edges_data g.
Proof.
  intros Hvalid Hin Hnan HA HB.
  assert (is_none_row row = false) as Hkeep.
  { unfold is_none_row. by rewrite !bool_decide_eq_false_2. }
  assert ((index, row) ∈ kept_rows df) as Hkept.
  { unfold kept_rows. by apply list_elem_of_filter. }
  destruct (from_df_nodes_first_seen_aux df Hvalid) as (g & Hrun & Hnodes).
  destruct (from_df_pair_data df (row "agA_name") (row "agB_name") Hvalid)
    as (g' & Hrun' & Hpair).
  assert (g' = g) as -> by congruence.
  exists g. split_and!; [done|done| | |].
  - unfold none_rows. intros [Hn _]%list_elem_of_filter. simpl in Hn.
    congruence.
  - rewrite Hnodes. apply first_seen_keys. unfold endpoint_specs.
    apply list_elem_of_fmap.
    destruct Hnan as [Hnan|Hnan].
    + exists (node_spec "agA" df row). split; [by rewrite <- Hnan|].
      apply list_elem_of_bind. exists (index, row). split; [|done]. by left.
    + exists (node_spec "agB" df row). split; [by rewrite <- Hnan|].
      apply list_elem_of_bind. exists (index, row). split; [|done].
      right. by left.
  - apply pair_data_edges. rewrite Hpair.
    apply list_elem_of_fmap. exists row. split; [done|].
    apply list_elem_of_fmap. exists (index, row). split; [done|].
    unfold rows_between. by apply list_elem_of_filter.
Qed.

Lemma from_df_keeps_nan_rows_witness :
  ∃ g, from_df df_mixed = (skip_log df_mixed, inr g)
       ∧ is_none_row row_NaN_B = false
       ∧ ¬ ((1%Z, row_NaN_B) ∈ none_rows df_mixed)
       ∧ VNaN ∈ od_keys (mg_node g)
       ∧ (row_NaN_B "agA_name", row_NaN_B "agB_name",
          edge_data df_mixed row_NaN_B) ∈ mg_edges_data g.
Proof.
  apply (from_df_keeps_nan_rows df_mixed 1 row_NaN_B).
  - reflexivity.
  - apply list_elem_of_further, list_elem_of_here.
  - left. reflexivity.
  - discriminate.
  - discriminate.
Defined.

(** ** Adjacency tables *)

Section adjacency.
Context {V : Type}.
Implicit Types (adj : odict value (odict value V)) (u v : value) (x : V).

Lemma od_set_elem {K W} `{EqDecision K} (k : K) (w : W) (d : odict K W) e :
  e ∈ od_set k w d → e = (k, w) ∨ e ∈ d.
Proof.
  induction d as [|[k0 w0] d IH]; simpl.
  - intros ->%list_elem_of_singleton. by left.
  - case_decide.
    + intros [->|?]%elem_of_cons; [by left|]. right. by right.
    + intros [->|?]%elem_of_cons; [right; by left|].
      destruct IH as [->|?]; [done|by left|]. right. by right.
Qed.

Lemma adj_get_put adj u v x u' v' :
  adj_get (adj_put adj u v x) u' v'
  = if decide (u' = u ∧ v' = v) then Some x else adj_get adj u' v'.
Proof.
  unfold adj_get, adj_put. rewrite od_get_set.
  destruct (decide (u' = u)) as [->|Hu].
  - simpl. rewrite od_get_set. destruct (decide (v' = v)) as [->|Hv].
    + by rewrite decide_True.
    + rewrite decide_False by naive_solver.
      by destruct (od_get u adj).
  - by rewrite decide_False by naive_solver.
Qed.

Lemma adj_get_touch adj n u v :
  od_mem n adj = false → adj_get (od_set n [] adj) u v = adj_get adj u v.
Proof.
  intros Hn%od_mem_false. rewrite (od_set_fresh _ _ _ Hn).
  unfold adj_get. rewrite od_get_app.
  destruct (od_get u adj); [done|]. simpl. by case_decide.
Qed.

Lemma adj_wf_nil : adj_wf (@nil (value * odict value V)).
Proof. split; [constructor|]. by intros ? ? ?%elem_of_nil. Qed.

Lemma adj_wf_set adj u (nbrs : odict value V) :
  adj_wf adj → NoDup (od_keys nbrs) → adj_wf (od_set u nbrs adj).
Proof.
  intros [Hk Hin] Hn. split; [by apply od_set_NoDup|].
  intros u' nbrs' [[= -> ->]|?]%od_set_elem; eauto.
Qed.

Lemma adj_wf_get adj u (nbrs : odict value V) :
  adj_wf adj → od_get u adj = Some nbrs → NoDup (od_keys nbrs).
Proof. intros [_ Hin] Hg%od_get_Some_elem. eauto. Qed.

Lemma adj_wf_put adj u v x : adj_wf adj → adj_wf (adj_put adj u v x).
Proof.
  intros Hwf. apply adj_wf_set; [done|]. apply od_set_NoDup.
  destruct (od_get u adj) eqn:Hg; simpl; [|constructor].
  by eapply adj_wf_get.
Qed.

Lemma adj_wf_touch adj n : adj_wf adj → adj_wf (od_set n [] adj).
Proof. intros. apply adj_wf_set; [done|constructor]. Qed.

(** Filtering the expansion of a table for one ordered pair yields the
    expansion of the entry of that pair. *)
Section filter.
Context {B : Type} (h : value → value → V → list B).
Context (P : B → Prop) `{!∀ b, Decision (P b)} (u v : value).
Hypothesis P_spec : ∀ u' v' x b, b ∈ h u' v' x → P b ↔ u' = u ∧ v' = v.

Lemma filter_expansion u' v' x :
  filter P (h u' v' x)
  = if decide (u' = u ∧ v' = v) then h u' v' x else [].
Proof using P_spec.
  pose proof (P_spec u' v' x) as Hb. revert Hb.
  generalize (h u' v' x). intros l Hl.
  induction l as [|b l IH]; [by case_decide|].
  rewrite filter_cons.
  assert (∀ b', b' ∈ l → P b' ↔ u' = u ∧ v' = v) as Hl'
    by (intros; apply Hl; by right).
  specialize (IH Hl'). pose proof (Hl b (list_elem_of_here _ _)) as Hb.
  destruct (decide (u' = u ∧ v' = v)) as [Huv|Huv].
  - rewrite decide_True by (by apply Hb). by rewrite IH.
  - rewrite decide_False by (by rewrite Hb). done.
Qed.

Lemma filter_nbrs u' (nbrs : odict value V) :
  NoDup (od_keys nbrs) →
  filter P ('(v', x) ← nbrs; h u' v' x)
  = if decide (u' = u) then from_option (h u v) [] (od_get v nbrs)
    else [].
Proof using P_spec.
  unfold od_keys. induction nbrs as [|[v0 x0] nbrs IH]; csimpl.
  - intros _. by case_decide.
  - intros [Hv0 Hnd]%NoDup_cons. rewrite filter_app, (IH Hnd).
    rewrite filter_expansion.
    destruct (decide (u' = u)) as [->|Hu].
    + destruct (decide (v = v0)) as [->|Hv].
      * rewrite decide_True by done.
        assert (od_get v0 nbrs = None) as ->
          by (by apply od_get_None).
        simpl. by rewrite app_nil_r.
      * by rewrite decide_False by naive_solver.
    + by rewrite decide_False by naive_solver.
Qed.

Lemma filter_adj_bind adj :
  adj_wf adj →
  filter P (adj_bind h adj) = from_option (h u v) [] (adj_get adj u v).
Proof using P_spec.
  unfold adj_bind, adj_get.
  induction adj as [|[u0 nbrs0] adj IH]; [done|].
  intros [Hk Hin]. unfold od_keys in Hk. csimpl in Hk.
  apply NoDup_cons in Hk as [Hu0 Hk].
  assert (adj_wf adj) as Hwf.
  { split; [done|]. intros. eapply Hin. by right. }
  rewrite bind_cons, filter_app, (IH Hwf).
  rewrite filter_nbrs by (eapply Hin; by left).
  cbn [od_get]. destruct (decide (u = u0)) as [->|Hu].
  - rewrite decide_True by done.
    assert (od_get u0 adj = None) as -> by (by apply od_get_None).
    simpl. by rewrite app_nil_r.
  - by rewrite decide_False by done.
Qed.
End filter.
End adjacency.

(** ** Directed flattening *)

Lemma bind_check_hashable_inr {A} v (m : M A) l a :
  (check_hashable v ;;; m) = (l, inr a) → hashable v = true ∧ m = (l, inr a).
Proof.
  unfold check_hashable. destruct (hashable v); [|done].
  by rewrite bind_ret_l.
Qed.

Lemma od_get_default_nbrs {V} (adj : odict value (odict value V)) u v :
  od_get v (default [] (od_get u adj)) = adj_get adj u v.
Proof. unfold adj_get. by destruct (od_get u adj). Qed.

Lemma dg_touch_get {D} (g : DiGraph D) n u v :
  adj_get (dg_adj (dg_touch n g)) u v = adj_get (dg_adj g) u v.
Proof.
  unfold dg_touch. destruct (od_mem n (dg_adj g)) eqn:Hm; [done|].
  by apply adj_get_touch.
Qed.

Lemma dg_touch_wf {D} (g : DiGraph D) n :
  adj_wf (dg_adj g) → adj_wf (dg_adj (dg_touch n g)).
Proof.
  unfold dg_touch. destruct (od_mem n (dg_adj g)); [done|].
  apply adj_wf_touch.
Qed.

(** What [add_edge] does to the table of a directed graph. *)
Lemma dg_add_edge_inr (g g' : DiGraph FlatAttrs) u v attr l :
  dg_add_edge g u v attr = (l, inr g') →
  ∃ adj, (∀ u' v', adj_get adj u' v' = adj_get (dg_adj g) u' v')
         ∧ (adj_wf (dg_adj g) → adj_wf adj)
         ∧ dg_adj g'
           = adj_put adj u v
               match adj_get adj u v with
               | Some datadict => dict_update datadict attr
               | None => attr
               end.
Proof.
  unfold dg_add_edge.
  intros [_ [_ Hret]%bind_check_hashable_inr]%bind_check_hashable_inr.
  injection Hret as <- <-. cbn [dg_adj].
  exists (dg_adj (dg_touch v (dg_touch u g))). split_and!.
  - intros. by rewrite !dg_touch_get.
  - intros. by do 2 apply dg_touch_wf.
  - by rewrite od_get_default_nbrs.
Qed.

Lemma flat_inv_put adj u v fa :
  flat_inv adj → statements fa ≠ [] → flat_inv (adj_put adj u v fa).
Proof.
  intros [Hwf Hne] Hfa. split; [by apply adj_wf_put|].
  intros u' v' fa'. rewrite adj_get_put. case_decide; [|apply Hne].
  by intros [= <-].
Qed.

Lemma statements_at_put (g g' : DiGraph FlatAttrs) adj u v fa u' v' :
  dg_adj g' = adj_put adj u v fa →
  (∀ u' v', adj_get adj u' v' = adj_get (dg_adj g) u' v') →
  statements_at g' u' v'
  = if decide (u' = u ∧ v' = v) then statements fa else statements_at g u' v'.
Proof.
  intros Hadj Hget. unfold statements_at, dg_edge_data.
  change (adj_get (dg_adj g') u' v') with (adj_get (dg_adj g') u' v').
  fold (adj_get (dg_adj g') u' v'). fold (adj_get (dg_adj g) u' v').
  rewrite Hadj, adj_get_put. case_decide; [done|]. by rewrite Hget.
Qed.

Lemma to_digraph_step_inr (g g' : DiGraph FlatAttrs) u v data l :
  to_digraph_step g (u, v, data) = (l, inr g') →
  flat_inv (dg_adj g) →
  flat_inv (dg_adj g')
  ∧ ∀ u' v', statements_at g' u' v'
             = statements_at g u' v' ++
               (if decide (u' = u ∧ v' = v) then [data] else []).
Proof.
  intros Hstep Hinv. unfold to_digraph_step in Hstep.
  apply bind_inr in Hstep as (l1 & present & l2 & Hhas & Hstep & ->).
  assert (present = od_mem v (default [] (od_get u (dg_adj g)))) as Hpres.
  { unfold dg_has_edge in Hhas.
    apply bind_check_hashable_inr in Hhas as [_ Hhas].
    destruct (od_get u (dg_adj g)) as [nbrs|]; simpl.
    - apply bind_check_hashable_inr in Hhas as [_ Hhas]. by injection Hhas.
    - by injection Hhas. }
  unfold od_mem in Hpres. rewrite od_get_default_nbrs in Hpres.
  destruct (adj_get (dg_adj g) u v) as [fa|] eqn:Hfa; subst present.
  - unfold dg_edge_data in Hstep. fold (adj_get (dg_adj g) u v) in Hstep.
    rewrite Hfa in Hstep. injection Hstep as <- <-. cbn [dg_adj].
    fold (adj_put (dg_adj g) u v (append_statement data fa)). split.
    + apply flat_inv_put; [done|]. simpl. by destruct (statements fa).
    + intros u' v'.
      rewrite (statements_at_put g _ (dg_adj g) u v
                 (append_statement data fa)) by done.
      case_decide as Huv; [|by rewrite app_nil_r].
      destruct Huv as [-> ->]. unfold statements_at, dg_edge_data.
      fold (adj_get (dg_adj g) u v). by rewrite Hfa.
  - apply dg_add_edge_inr in Hstep as (adj & Hget & Hwf & Hadj).
    rewrite Hget, Hfa in Hadj. split.
    + rewrite Hadj. apply flat_inv_put; [|done].
      destruct Hinv as [Hw Hne]. split; [by apply Hwf|].
      intros u' v' fa'. rewrite Hget. apply Hne.
    + intros u' v'. rewrite (statements_at_put g _ adj u v _ u' v' Hadj Hget).
      case_decide as Huv; [|by rewrite app_nil_r].
      destruct Huv as [-> ->]. unfold statements_at, dg_edge_data.
      fold (adj_get (dg_adj g) u v). by rewrite Hfa.
Qed.

Lemma to_digraph_loop_inr edges (g g' : DiGraph FlatAttrs) l :
  foldM to_digraph_step g edges = (l, inr g') →
  flat_inv (dg_adj g) →
  flat_inv (dg_adj g')
  ∧ ∀ u v, statements_at g' u v
           = statements_at g u v ++
             (filter (λ e : value * value * attrs, e.1.1 = u ∧ e.1.2 = v)
                edges).*2.
Proof.
  revert g l. induction edges as [|[[u0 v0] data] edges IH]; intros g l.
  - intros [= <- <-] Hinv. split; [done|]. intros. by rewrite app_nil_r.
  - cbn [foldM]. intros (l1 & g1 & l2 & Hstep & Hrest & ->)%bind_inr Hinv.
    destruct (to_digraph_step_inr _ _ _ _ _ _ Hstep Hinv) as [Hinv1 Hst1].
    destruct (IH _ _ Hrest Hinv1) as [Hinv' Hst']. split; [done|].
    intros u v. rewrite Hst', Hst1, <- app_assoc. f_equal.
    rewrite filter_cons. cbn [fst snd].
    destruct (decide (u = u0 ∧ v = v0)) as [[-> ->]|Hne].
    + by rewrite decide_True.
    + by rewrite decide_False by naive_solver.
Qed.

(** The grouping loop returns whenever the endpoints are hashable, as
    the nodes of a graph are. *)
Lemma to_digraph_step_total (g : DiGraph FlatAttrs) u v data :
  hashable u = true → hashable v = true →
  ∃ g', to_digraph_step g (u, v, data) = ([], inr g').
Proof.
  intros Hu Hv. unfold to_digraph_step, dg_has_edge, dg_add_edge, dg_edge_data.
  rewrite !(check_hashable_true _ Hu), !(check_hashable_true _ Hv).
  rewrite !bind_ret_l.
  destruct (od_get u (dg_adj g)) as [nbrs|] eqn:Hnbrs.
  - rewrite !bind_ret_l. cbn [mbind option_bind].
    unfold od_mem. destruct (od_get v nbrs) as [fa|] eqn:Hfa; eauto.
  - rewrite bind_ret_l. eauto.
Qed.

Lemma to_digraph_loop_total edges (g : DiGraph FlatAttrs) :
  Forall (λ e : value * value * attrs,
            hashable e.1.1 = true ∧ hashable e.1.2 = true) edges →
  ∃ g', foldM to_digraph_step g edges = ([], inr g').
Proof.
  intros Hh. revert g.
  induction Hh as [|[[u v] data] edges [Hu Hv] _ IH]; intros g.
  - by exists g.
  - destruct (to_digraph_step_total g u v data Hu Hv) as [g1 Hstep].
    destruct (IH g1) as [g' Hrest]. exists g'.
    cbn [foldM]. by rewrite Hstep, bind_nil_inr.
Qed.

(** Setting a belief changes neither the edges nor their grouped
    statements. *)
Lemma dg_set_belief_inv (g : DiGraph FlatAttrs) e b :
  flat_inv (dg_adj g) →
  flat_inv (dg_adj (dg_set_belief g e b))
  ∧ ∀ u v, statements_at (dg_set_belief g e b) u v = statements_at g u v.
Proof.
  intros Hinv. destruct e as [u0 v0]. unfold dg_set_belief.
  destruct (od_get u0 (dg_adj g)) as [nbrs|] eqn:Hu; [|done].
  destruct (od_get v0 nbrs) as [fa|] eqn:Hv; [|done].
  assert (adj_get (dg_adj g) u0 v0 = Some fa) as Hfa.
  { unfold adj_get. by rewrite Hu. }
  cbn [dg_adj].
  assert (od_set u0 (od_set v0 (set_belief b fa) nbrs) (dg_adj g)
          = adj_put (dg_adj g) u0 v0 (set_belief b fa)) as Hput.
  { unfold adj_put. by rewrite Hu. }
  rewrite Hput. split.
  - apply flat_inv_put; [done|]. simpl. by apply (proj2 Hinv u0 v0).
  - intros u v.
    rewrite (statements_at_put g _ (dg_adj g) u0 v0 (set_belief b fa))
      by done.
    case_decide as Huv; [|done]. destruct Huv as [-> ->].
    unfold statements_at, dg_edge_data. fold (adj_get (dg_adj g) u0 v0).
    by rewrite Hfa.
Qed.

Lemma update_loop_dg (f : DiGraph FlatAttrs → value * value → M longfloat)
    es (g g' : DiGraph FlatAttrs) l :
  foldM (λ g e, b <- f g e ;; ret (dg_set_belief g e b)) g es = (l, inr g') →
  flat_inv (dg_adj g) →
  flat_inv (dg_adj g') ∧ ∀ u v, statements_at g' u v = statements_at g u v.
Proof.
  revert g l. induction es as [|e es IH]; intros g l.
  - by intros [= <- <-].
  - cbn [foldM]. intros (l1 & g1 & l2 & Hstep & Hrest & ->)%bind_inr Hinv.
    apply bind_inr in Hstep as (l3 & b & l4 & _ & [= <- <-] & _).
    destruct (dg_set_belief_inv g e b Hinv) as [Hinv1 Hst1].
    destruct (IH _ _ Hrest Hinv1) as [Hinv' Hst']. split; [done|].
    intros. by rewrite Hst', Hst1.
Qed.

Lemma update_edge_belief_dg fmt score (g g' : DiGraph FlatAttrs) method l :
  _update_edge_belief fmt score g method = (l, inr g') →
  flat_inv (dg_adj g) →
  flat_inv (dg_adj g') ∧ ∀ u v, statements_at g' u v = statements_at g u v.
Proof.
  unfold _update_edge_belief, update_with.
  destruct method as [|name|f]; repeat case_decide; apply update_loop_dg.
Qed.

Lemma flat_inv_empty : flat_inv (dg_adj (@dg_empty FlatAttrs)).
Proof. split; [apply adj_wf_nil|]. by intros u v fa. Qed.

Lemma dg_edges_filter (g : DiGraph FlatAttrs) u v :
  adj_wf (dg_adj g) →
  filter (λ e, e = (u, v)) (dg_edges g)
  = if dg_edge_data g (u, v) is Some _ then [(u, v)] else [].
Proof.
  intros Hwf.
  transitivity (from_option (λ _ : FlatAttrs, [(u, v)]) []
                  (dg_edge_data g (u, v))); [|by destruct (dg_edge_data _ _)].
  apply (filter_adj_bind (λ u' v' (_ : FlatAttrs), [(u', v')])
           (λ e, e = (u, v)) u v); [|done].
  intros u' v' x b ->%list_elem_of_singleton. naive_solver.
Qed.

Lemma dg_edges_elem (g : DiGraph FlatAttrs) u v :
  adj_wf (dg_adj g) →
  (u, v) ∈ dg_edges g ↔ is_Some (dg_edge_data g (u, v)).
Proof.
  intros Hwf.
  assert ((u, v) ∈ dg_edges g ↔ (u, v) ∈ filter (λ e, e = (u, v)) (dg_edges g))
    as -> by (rewrite list_elem_of_filter; naive_solver).
  rewrite (dg_edges_filter g u v Hwf).
  destruct (dg_edge_data g (u, v)).
  - split; [eauto|]. intros _. by left.
  - split; [by intros ?%elem_of_nil|]. by intros [? ?].
Qed.

(** C4: directed flattening is a pure grouping.  When [to_digraph]
    returns, the grouped list of the flattened edge from [u] to [v] is the
    list of the raw edges from [u] to [v] in their order of enumeration, in
    particular with the same [stmt_hash] values in the same order; and the
    edge view of the flattened graph contains [(u, v)] exactly once if
    there is such a raw edge and not at all otherwise. *)
Theorem to_digraph_groups fmt score (self : IndraNet)
    (method : flattening_method (DiGraph FlatAttrs))
    (logs : list log_record) (G : DiGraph FlatAttrs) (u v : value) :
  to_digraph fmt score self method = (logs, inr G) →
  statements_at G u v = raw_edges_between self u v
  ∧ stmt_hashes (statements_at G u v)
    = stmt_hashes (raw_edges_between self u v)
  ∧ filter (λ e, e = (u, v)) (dg_edges G)
    = (if raw_edges_between self u v is [] then [] else [(u, v)]).
Proof.
  unfold to_digraph.
  intros (l1 & g1 & l2 & Hloop & Hupd & ->)%bind_inr.
  destruct (to_digraph_loop_inr _ _ _ _ Hloop flat_inv_empty) as [Hinv1 Hst1].
  destruct (update_edge_belief_dg _ _ _ _ _ _ Hupd Hinv1) as [Hinv Hst].
  assert (statements_at G u v = raw_edges_between self u v) as Heq.
  { by rewrite Hst, Hst1. }
  split_and!; [done|by rewrite Heq|].
  rewrite (dg_edges_filter G u v (proj1 Hinv)), <- Heq.
  unfold statements_at. destruct (dg_edge_data G (u, v)) as [fa|] eqn:Hfa.
  - simpl. pose proof (proj2 Hinv u v fa Hfa). by destruct (statements fa).
  - done.
Qed.

Lemma to_digraph_groups_witness :
  statements_at scenario_digraph (VStr "A") (VStr "B")
  = raw_edges_between scenario_net (VStr "A") (VStr "B")
  ∧ stmt_hashes (statements_at scenario_digraph (VStr "A") (VStr "B"))
    = stmt_hashes (raw_edges_between scenario_net (VStr "A") (VStr "B"))
  ∧ filter (λ e, e = (VStr "A", VStr "B")) (dg_edges scenario_digraph)
    = (if raw_edges_between scenario_net (VStr "A") (VStr "B") is []
       then [] else [(VStr "A", VStr "B")]).
Proof.
  apply (to_digraph_groups x87_extended example_scorer scenario_net
           (MethodStr "complementary_belief") [] scenario_digraph).
  vm_compute. reflexivity.
Defined.

(** The scenario of the specification: one flattened edge A -> B that
    groups the two statements, with complementary belief 0.98. *)
Example scenario_digraph_edge :
  dg_edges scenario_digraph = [(VStr "A", VStr "B")]
  ∧ stmt_hashes (statements_at scenario_digraph (VStr "A") (VStr "B"))
    = [Some (VInt 11); Some (VInt 12)]
  ∧ (belief <$> dg_edge_data scenario_digraph (VStr "A", VStr "B"))
    = Some (Some (LNum (prob_or [Q2Qc (9 # 10); Q2Qc (8 # 10)]))).
Proof. split_and!; vm_compute; reflexivity. Qed.

(** ** Signed flattening *)

Lemma od_keys_set_elem {K W} `{EqDecision K} (k k' : K) (w : W)
    (d : odict K W) :
  k' ∈ od_keys (od_set k w d) → k' = k ∨ k' ∈ od_keys d.
Proof.
  rewrite od_keys_set. destruct (od_mem k d); [by right|].
  intros [?|Hk%list_elem_of_singleton]%elem_of_app; [by right|by left].
Qed.

Lemma signed_inv_ext sign_dict edges adj adj' :
  (∀ u v, adj_get adj' u v = adj_get adj u v) → adj_wf adj' →
  signed_inv sign_dict edges adj → signed_inv sign_dict edges adj'.
Proof.
  intros Hget Hwf [_ Hinv]. split; [done|].
  intros u v keydict. rewrite Hget. apply Hinv.
Qed.

(** Storing a value under the key of a sign, or under a key that is
    already there, keeps the invariant. *)
Lemma signed_inv_put sign_dict edges adj u v key (X : FlatAttrs) :
  signed_inv sign_dict edges adj →
  key ∈ norm_sign <$> od_values sign_dict
  ∨ key ∈ od_keys (default [] (adj_get adj u v)) →
  (∀ data, data ∈ statements X →
           (u, v, data) ∈ edges ∧ typed_by sign_dict data) →
  signed_inv sign_dict edges
    (adj_put adj u v (od_set key X (default [] (adj_get adj u v)))).
Proof.
  intros [Hwf Hinv] Hkey HX. split; [by apply adj_wf_put|].
  intros u' v' keydict. rewrite adj_get_put.
  case_decide as Huv; [|apply Hinv]. destruct Huv as [-> ->].
  intros [= <-].
  assert (NoDup (od_keys (default [] (adj_get adj u v)))
          ∧ (∀ k, k ∈ od_keys (default [] (adj_get adj u v)) →
                  k ∈ norm_sign <$> od_values sign_dict)
          ∧ ∀ k fa data, (k, fa) ∈ default [] (adj_get adj u v) →
              data ∈ statements fa →
              (u, v, data) ∈ edges ∧ typed_by sign_dict data)
    as (Hnd & Hks & Hst).
  { destruct (adj_get adj u v) as [kd|] eqn:Hkd; simpl.
    - by apply Hinv.
    - split_and!; [constructor|by intros ? ?%elem_of_nil|].
      by intros ? ? ? ?%elem_of_nil. }
  split_and!.
  - by apply od_set_NoDup.
  - intros k [->|Hk]%od_keys_set_elem; [|by apply Hks].
    destruct Hkey as [?|?]; [done|by apply Hks].
  - intros k fa data [[= -> ->]|Hin]%od_set_elem; [apply HX|].
    by apply (Hst k fa).
Qed.

Lemma getitem_inr (d : attrs) k l v :
  getitem d k = (l, inr v) → d !! k = Some v.
Proof. unfold getitem. destruct (d !! k); [|done]. by intros [= _ ->]. Qed.

Lemma mg_touch_get {D} (g : MultiDiGraph D) n u v :
  adj_get (mg_adj (mg_touch n g)) u v = adj_get (mg_adj g) u v.
Proof.
  unfold mg_touch. destruct (od_mem n (mg_adj g)) eqn:Hm; [done|].
  by apply adj_get_touch.
Qed.

Lemma mg_touch_wf {D} (g : MultiDiGraph D) n :
  adj_wf (mg_adj g) → adj_wf (mg_adj (mg_touch n g)).
Proof.
  unfold mg_touch. destruct (od_mem n (mg_adj g)); [done|].
  apply adj_wf_touch.
Qed.

(** [has_edge] with the key [None] asks whether the pair has any edge. *)
Lemma mg_has_edge_false (sg : MultiDiGraph FlatAttrs) u v key l :
  mg_has_edge sg u v key = (l, inr false) →
  key = VNone → adj_get (mg_adj sg) u v = None.
Proof.
  unfold mg_has_edge, adj_get. intros [_ Hhas]%bind_check_hashable_inr ->.
  destruct (od_get u (mg_adj sg)) as [nbrs|]; [|done].
  apply bind_check_hashable_inr in Hhas as [_ Hhas].
  rewrite decide_True in Hhas by done. injection Hhas as _ Hmem.
  by apply od_mem_false.
Qed.

(** What [add_edge] does to the table of a flattened multigraph. *)
Lemma mg_add_edge_inr (sg sg' : MultiDiGraph FlatAttrs) u v key attr l :
  mg_add_edge sg u v key attr = (l, inr sg') →
  ∃ adj X,
    (∀ u' v', adj_get adj u' v' = adj_get (mg_adj sg) u' v')
    ∧ (adj_wf (mg_adj sg) → adj_wf adj)
    ∧ statements X = statements attr
    ∧ mg_adj sg'
      = adj_put adj u v
          (od_set (if decide (key = VNone)
                   then match adj_get adj u v with
                        | None => VInt 0
                        | Some keydict =>
                            VInt (next_free_key (length keydict)
                                    (Z.of_nat (length keydict)) keydict)
                        end
                   else key)
             X (default [] (adj_get adj u v))).
Proof.
  unfold mg_add_edge.
  intros [_ [_ Hret]%bind_check_hashable_inr]%bind_check_hashable_inr.
  apply bind_check_hashable_inr in Hret as [_ Hret].
  injection Hret as <- <-. cbn [mg_adj].
  set (G := mg_touch v (mg_touch u sg)).
  set (k := if decide (key = VNone) then mg_new_edge_key G u v else key).
  assert (∀ u' v', adj_get (mg_adj G) u' v' = adj_get (mg_adj sg) u' v')
    as Hget by (intros; unfold G; by rewrite !mg_touch_get).
  rewrite od_get_default_nbrs.
  destruct (adj_get (mg_adj G) u v) as [keydict|] eqn:Hkd.
  - destruct (od_get k keydict) as [datadict|] eqn:Hk.
    + exists (mg_adj G), (dict_update datadict attr). split_and!; [done| |done|].
      * intros. by do 2 apply mg_touch_wf.
      * unfold adj_put. rewrite <- (od_get_default_nbrs (mg_adj G) u v) in Hkd.
        unfold k, mg_new_edge_key, mg_keydict.
        fold (adj_get (mg_adj G) u v).
        rewrite od_get_default_nbrs in Hkd. by rewrite Hkd.
    + exists (mg_adj G), attr. split_and!; [done| |done|].
      * intros. by do 2 apply mg_touch_wf.
      * unfold adj_put, k, mg_new_edge_key, mg_keydict.
        fold (adj_get (mg_adj G) u v). by rewrite Hkd.
  - exists (mg_adj G), attr. split_and!; [done| |done|].
    + intros. by do 2 apply mg_touch_wf.
    + unfold adj_put, k, mg_new_edge_key, mg_keydict.
      fold (adj_get (mg_adj G) u v). by rewrite Hkd.
Qed.

Lemma next_free_key_nil fuel key :
  next_free_key fuel key (@nil (value * FlatAttrs)) = key.
Proof. by destruct fuel. Qed.

Lemma to_signed_graph_step_inr sign_dict edges
    (sg sg' : MultiDiGraph FlatAttrs) u v data l :
  to_signed_graph_step sign_dict sg (u, v, data) = (l, inr sg') →
  (u, v, data) ∈ edges →
  signed_inv sign_dict edges (mg_adj sg) →
  signed_inv sign_dict edges (mg_adj sg').
Proof.
  intros Hstep Hin Hinv. unfold to_signed_graph_step in Hstep.
  apply bind_inr in Hstep as (l1 & stmt_type & l2 & Htype & Hstep & ->).
  apply getitem_inr in Htype.
  apply bind_check_hashable_inr in Hstep as [_ Hstep].
  destruct (od_get stmt_type sign_dict) as [sgn|] eqn:Hsgn;
    [|by injection Hstep as _ <-].
  assert (typed_by sign_dict data) as Htyped by (by exists stmt_type, sgn).
  assert (norm_sign sgn ∈ norm_sign <$> od_values sign_dict) as Hallowed.
  { apply list_elem_of_fmap. exists sgn. split; [done|].
    apply od_get_Some_elem in Hsgn. apply list_elem_of_fmap.
    by exists (stmt_type, sgn). }
  apply bind_inr in Hstep as (l3 & present & l4 & Hhas & Hstep & ->).
  destruct present.
  - unfold mg_edge_data, mg_keydict in Hstep.
    fold (adj_get (mg_adj sg) u v) in Hstep.
    rewrite !od_get_default_nbrs in Hstep.
    destruct (adj_get (mg_adj sg) u v) as [keydict|] eqn:Hkd; [|done].
    simpl in Hstep. destruct (od_get sgn keydict) as [fa|] eqn:Hfa; [|done].
    injection Hstep as _ <-. cbn [mg_adj].
    fold (adj_put (mg_adj sg) u v (od_set sgn (append_statement data fa)
                                     keydict)).
    replace keydict with (default [] (adj_get (mg_adj sg) u v))
      by (by rewrite Hkd).
    apply signed_inv_put; [done| |].
    + right. rewrite Hkd. simpl. apply od_get_Some_elem in Hfa.
      apply list_elem_of_fmap. by exists (sgn, fa).
    + simpl.
      intros d [Hd|Hd%list_elem_of_singleton]%elem_of_app; [|by subst].
      destruct Hinv as [_ Hinv].
      destruct (Hinv u v keydict Hkd) as (_ & _ & Hst).
      apply (Hst sgn fa); [by apply od_get_Some_elem|done].
  - apply mg_add_edge_inr in Hstep as (adj & X & Hget & Hwf & HX & Hadj).
    rewrite Hadj.
    assert (signed_inv sign_dict edges adj) as Hinv'.
    { eapply signed_inv_ext; [done|apply Hwf, Hinv|done]. }
    apply signed_inv_put; [done| |].
    + left. unfold norm_sign in Hallowed.
      destruct (decide (sgn = VNone)) as [->|Hne]; [|done].
      rewrite Hget, (mg_has_edge_false _ _ _ _ _ Hhas eq_refl). done.
    + rewrite HX. simpl. by intros d ->%list_elem_of_singleton.
Qed.

Lemma to_signed_graph_loop_inr sign_dict edges es
    (sg sg' : MultiDiGraph FlatAttrs) l :
  foldM (to_signed_graph_step sign_dict) sg es = (l, inr sg') →
  (∀ e, e ∈ es → e ∈ edges) →
  signed_inv sign_dict edges (mg_adj sg) →
  signed_inv sign_dict edges (mg_adj sg').
Proof.
  revert sg l. induction es as [|[[u v] data] es IH]; intros sg l.
  - by intros [= _ <-].
  - cbn [foldM]. intros (l1 & sg1 & l2 & Hstep & Hrest & ->)%bind_inr Hes Hinv.
    eapply IH; [done| |].
    + intros. apply Hes. by right.
    + eapply to_signed_graph_step_inr; [done| |done]. apply Hes. by left.
Qed.

Lemma mg_set_belief_inv sign_dict edges (sg : MultiDiGraph FlatAttrs) e b :
  signed_inv sign_dict edges (mg_adj sg) →
  signed_inv sign_dict edges (mg_adj (mg_set_belief sg e b)).
Proof.
  intros Hinv. destruct e as [[u v] key]. unfold mg_set_belief.
  destruct (od_get u (mg_adj sg)) as [nbrs|] eqn:Hu; [|done].
  destruct (od_get v nbrs) as [keydict|] eqn:Hv; [|done].
  destruct (od_get key keydict) as [fa|] eqn:Hk; [|done].
  assert (adj_get (mg_adj sg) u v = Some keydict) as Hkd.
  { unfold adj_get. by rewrite Hu. }
  cbn [mg_adj].
  assert (od_set u (od_set v (od_set key (set_belief b fa) keydict) nbrs)
            (mg_adj sg)
          = adj_put (mg_adj sg) u v
              (od_set key (set_belief b fa)
                 (default [] (adj_get (mg_adj sg) u v)))) as ->.
  { unfold adj_put. by rewrite Hkd, Hu. }
  apply od_get_Some_elem in Hk.
  apply signed_inv_put; [done| |].
  - right. rewrite Hkd. simpl. apply list_elem_of_fmap. by exists (key, fa).
  - simpl. intros d Hd. destruct Hinv as [_ Hinv].
    destruct (Hinv u v keydict Hkd) as (_ & _ & Hst). by apply (Hst key fa).
Qed.

Lemma update_loop_mg sign_dict edges
    (f : MultiDiGraph FlatAttrs → value * value * value → M longfloat)
    es (sg sg' : MultiDiGraph FlatAttrs) l :
  foldM (λ g e, b <- f g e ;; ret (mg_set_belief g e b)) sg es
  = (l, inr sg') →
  signed_inv sign_dict edges (mg_adj sg) →
  signed_inv sign_dict edges (mg_adj sg').
Proof.
  revert sg l. induction es as [|e es IH]; intros sg l.
  - by intros [= _ <-].
  - cbn [foldM]. intros (l1 & sg1 & l2 & Hstep & Hrest & ->)%bind_inr Hinv.
    apply bind_inr in Hstep as (l3 & b & l4 & _ & [= <- <-] & _).
    eapply IH; [done|]. by apply mg_set_belief_inv.
Qed.

Lemma update_edge_belief_mg sign_dict edges fmt score
    (sg sg' : MultiDiGraph FlatAttrs) method l :
  _update_edge_belief fmt score sg method = (l, inr sg') →
  signed_inv sign_dict edges (mg_adj sg) →
  signed_inv sign_dict edges (mg_adj sg').
Proof.
  unfold _update_edge_belief, update_with.
  destruct method as [|name|f]; repeat case_decide; apply update_loop_mg.
Qed.

Lemma signed_inv_empty sign_dict edges :
  signed_inv sign_dict edges (mg_adj (@mg_empty FlatAttrs)).
Proof. split; [apply adj_wf_nil|]. by intros u v keydict. Qed.

Lemma to_signed_graph_inv fmt score (self : IndraNet) sign_dict method
    logs (SG : MultiDiGraph FlatAttrs) :
  to_signed_graph fmt score self sign_dict method = (logs, inr SG) →
  signed_inv sign_dict (mg_edges_data self) (mg_adj SG).
Proof.
  unfold to_signed_graph.
  intros (l1 & sg1 & l2 & Hloop & Hupd & ->)%bind_inr.
  eapply update_edge_belief_mg; [done|].
  eapply to_signed_graph_loop_inr; [done|done|apply signed_inv_empty].
Qed.

(** The flattened edges of a pair in the edge view are the keys of its
    key dictionary. *)
Lemma signed_edges_between_keys (SG : MultiDiGraph FlatAttrs) u v :
  adj_wf (mg_adj SG) →
  signed_edges_between SG u v
  = (λ k, (u, v, k)) <$> od_keys (default [] (adj_get (mg_adj SG) u v)).
Proof.
  intros Hwf. unfold signed_edges_between.
  transitivity (from_option
                  (λ keydict : odict value FlatAttrs,
                     '(k, _) ← keydict; [(u, v, k)])
                  [] (adj_get (mg_adj SG) u v)).
  - apply (filter_adj_bind
             (λ u' v' (keydict : odict value FlatAttrs),
                '(k, _) ← keydict; [(u', v', k)])
             (λ e : value * value * value, e.1.1 = u ∧ e.1.2 = v) u v);
      [|done].
    intros u' v' keydict b ([k fa] & ->%list_elem_of_singleton & _)%list_elem_of_bind.
    done.
  - destruct (adj_get (mg_adj SG) u v) as [keydict|]; [|done]. simpl.
    unfold od_keys. induction keydict as [|[k fa] keydict IH]; [done|].
    csimpl. by rewrite IH.
Qed.

Lemma remove_dups_fmap_length {A B} `{EqDecision A, EqDecision B}
    (f : A → B) (l : list A) :
  length (remove_dups (f <$> l)) ≤ length (remove_dups l).
Proof.
  rewrite <- (length_fmap f (remove_dups l)).
  apply submseteq_length, NoDup_submseteq; [apply NoDup_remove_dups|].
  intros y (x & -> & Hx)%elem_of_remove_dups%list_elem_of_fmap.
  apply list_elem_of_fmap. exists x. by rewrite elem_of_remove_dups.
Qed.

(** C5: when signed flattening returns, the edge view has, for each
    ordered pair, no edge twice and at most as many flattened edges as the
    mapping has distinct sign values; hence at most 2 when the mapping
    takes at most two sign values [s1] and [s2], as a mapping into the
    signs [+1] and [-1] does.  Every statement grouped on a flattened edge
    is a raw edge of that pair whose [stmt_type] is in the mapping: a raw
    edge whose type is absent contributes to no flattened edge. *)
Theorem to_signed_graph_bounds fmt score (self : IndraNet)
    (sign_dict : odict value value)
    (method : flattening_method (MultiDiGraph FlatAttrs))
    (logs : list log_record) (SG : MultiDiGraph FlatAttrs) (u v : value) :
  to_signed_graph fmt score self sign_dict method = (logs, inr SG) →
  NoDup (signed_edges_between SG u v)
  ∧ length (signed_edges_between SG u v)
    ≤ length (remove_dups (od_values sign_dict))
  ∧ (∀ s1 s2, (∀ s, s ∈ od_values sign_dict → s = s1 ∨ s = s2) →
              length (signed_edges_between SG u v) ≤ 2)
  ∧ ∀ key fa data,
      mg_edge_data SG (u, v, key) = Some fa → data ∈ statements fa →
      (u, v, data) ∈ mg_edges_data self ∧ typed_by sign_dict data.
Proof.
  intros Hrun.
  destruct (to_signed_graph_inv _ _ _ _ _ _ _ Hrun) as [Hwf Hinv].
  rewrite (signed_edges_between_keys SG u v Hwf).
  destruct (adj_get (mg_adj SG) u v) as [keydict|] eqn:Hkd.
  - destruct (Hinv u v keydict Hkd) as (Hnd & Hkeys & Hst). simpl.
    split_and!.
    + apply NoDup_fmap_2; [|done]. by intros k1 k2 [= ->].
    + rewrite length_fmap.
      trans (length (remove_dups (norm_sign <$> od_values sign_dict)));
        [|apply remove_dups_fmap_length].
      apply submseteq_length, NoDup_submseteq; [done|].
      intros k Hk. by apply elem_of_remove_dups, Hkeys.
    + intros s1 s2 Hsigns. rewrite length_fmap.
      change 2 with (length [norm_sign s1; norm_sign s2]).
      apply submseteq_length, NoDup_submseteq; [done|].
      intros k (s & -> & Hs)%Hkeys%list_elem_of_fmap.
      destruct (Hsigns s Hs) as [->| ->]; set_solver.
    + intros key fa data Hfa Hdata.
      unfold mg_edge_data, mg_keydict in Hfa.
      fold (adj_get (mg_adj SG) u v) in Hfa. rewrite Hkd in Hfa.
      simpl in Hfa. apply od_get_Some_elem in Hfa. by apply (Hst key fa).
  - simpl. split_and!; [constructor|lia|intros; lia|].
    intros key fa data Hfa. unfold mg_edge_data, mg_keydict in Hfa.
    fold (adj_get (mg_adj SG) u v) in Hfa. by rewrite Hkd in Hfa.
Qed.

Lemma to_signed_graph_bounds_witness :
  NoDup (signed_edges_between two_signs_signed (VStr "A") (VStr "B"))
  ∧ length (signed_edges_between two_signs_signed (VStr "A") (VStr "B"))
    ≤ length (remove_dups (od_values two_signs))
  ∧ (∀ s1 s2, (∀ s, s ∈ od_values two_signs → s = s1 ∨ s = s2) →
              length (signed_edges_between two_signs_signed
                        (VStr "A") (VStr "B")) ≤ 2)
  ∧ ∀ key fa data,
      mg_edge_data two_signs_signed (VStr "A", VStr "B", key) = Some fa →
      data ∈ statements fa →
      (VStr "A", VStr "B", data) ∈ mg_edges_data three_types_net
      ∧ typed_by two_signs data.
Proof.
  apply (to_signed_graph_bounds x87_extended example_scorer three_types_net
           two_signs (MethodStr "complementary_belief") []
           two_signs_signed).
  vm_compute. reflexivity.
Defined.

(** The bound of 2 rests on the signs being [+1] and [-1]: a dictionary
    that also maps a type to [0] is outside the sign mappings of the
    specification, and with it three parallel raw edges of three types
    become three flattened edges between the same ordered pair. *)
Example to_signed_graph_three_edges :
  to_signed_graph x87_extended example_scorer three_types_net three_signs
    (MethodStr "complementary_belief")
  = ([], inr three_types_signed)
  ∧ signed_edges_between three_types_signed (VStr "A") (VStr "B")
    = [(VStr "A", VStr "B", VInt 1); (VStr "A", VStr "B", VInt (-1));
       (VStr "A", VStr "B", VInt 0)]
  ∧ ¬ length (signed_edges_between three_types_signed (VStr "A") (VStr "B"))
      ≤ 2.
Proof.
  split_and!; [vm_compute; reflexivity..|]. vm_compute. lia.
Qed.

(** The signed scenario of the specification and the dropped type: under
    the two-sign mapping the Complex row is in no flattened edge. *)
Example two_signs_signed_edges :
  mg_edges two_signs_signed
  = [(VStr "A", VStr "B", VInt 1); (VStr "A", VStr "B", VInt (-1))]
  ∧ (stmt_hashes ∘ statements <$>
       od_values (default [] (adj_get (mg_adj two_signs_signed)
                                (VStr "A") (VStr "B"))))
    = [[Some (VInt 11)]; [Some (VInt 16)]].
Proof. split; vm_compute; reflexivity. Qed.

(** * Further properties *)

(** ** The raw edges of a table *)

Lemma add_node_pure_wf g spec :
  od_keys (mg_node g) = od_keys (mg_adj g) →
  adj_wf (mg_adj g) → adj_wf (mg_adj (add_node_pure g spec)).
Proof.
  intros Hal Hwf. unfold add_node_pure.
  destruct (od_mem spec.1 (mg_node g)) eqn:Hm; [done|]. cbn [mg_adj].
  rewrite (od_mem_keys_eq _ _ _ Hal) in Hm. apply od_mem_false in Hm.
  rewrite <- (od_set_fresh _ _ _ Hm). by apply adj_wf_touch.
Qed.

Lemma add_edge_pure_wf g u v data :
  adj_wf (mg_adj g) → adj_wf (mg_adj (add_edge_pure g u v data)).
Proof. intros Hwf. by apply (adj_wf_put (mg_adj g)). Qed.

Lemma add_row_pure_inv df g row :
  from_df_inv g → adj_wf (mg_adj g) →
  from_df_inv (add_row_pure df g row)
  ∧ adj_wf (mg_adj (add_row_pure df g row)).
Proof.
  intros Hinv Hwf.
  pose proof (add_node_pure_inv g (node_spec "agA" df row) Hinv) as Hinv1.
  pose proof (add_node_pure_inv _ (node_spec "agB" df row) Hinv1) as Hinv2.
  split.
  - apply add_edge_pure_inv; [done|]. apply add_node_pure_mono.
    apply (add_node_pure_known g (node_spec "agA" df row)), Hinv.
  - apply add_edge_pure_wf, add_node_pure_wf; [apply Hinv1|].
    apply add_node_pure_wf; [apply Hinv|done].
Qed.

Lemma foldl_add_row_pure_inv df (rows : list (Z * Row)) g :
  from_df_inv g → adj_wf (mg_adj g) →
  from_df_inv (foldl (add_row_pure df) g rows.*2)
  ∧ adj_wf (mg_adj (foldl (add_row_pure df) g rows.*2)).
Proof.
  revert g. induction rows as [|[index row] rows IH]; intros g Hinv Hwf;
    [done|].
  csimpl. destruct (add_row_pure_inv df g row Hinv Hwf) as [Hinv' Hwf'].
  by apply IH.
Qed.

(** Counting the entries of a dictionary after an assignment. *)
Lemma od_set_sum {K V} `{EqDecision K} (f : K * V → nat) k v
    (d : odict K V) :
  sum_list (f <$> od_set k v d) + from_option (λ v0, f (k, v0)) 0 (od_get k d)
  = sum_list (f <$> d) + f (k, v).
Proof.
  induction d as [|[k0 v0] d IH]; csimpl; [lia|].
  case_decide; subst; csimpl; lia.
Qed.

Lemma length_bind_sum {A B} (f : A → list B) (l : list A) :
  length (l ≫= f) = sum_list (length ∘ f <$> l).
Proof.
  induction l as [|a l IH]; [done|].
  rewrite bind_cons, length_app, IH. done.
Qed.

Lemma length_adj_bind {V B} (h : value → value → V → list B)
    (adj : odict value (odict value V)) :
  length (adj_bind h adj)
  = sum_list ((λ un : value * odict value V,
                 sum_list ((λ vx : value * V, length (h un.1 vx.1 vx.2))
                             <$> un.2)) <$> adj).
Proof.
  unfold adj_bind. rewrite length_bind_sum. f_equal.
  apply list_fmap_ext. intros i [u nbrs] _. simpl.
  rewrite length_bind_sum. f_equal.
  apply list_fmap_ext. by intros j [v x] _.
Qed.

(** The expansion of a table after [adj[u][v] = x]: the entry of the
    pair is exchanged. *)
Lemma length_adj_bind_put {V B} (h : value → value → V → list B)
    (adj : odict value (odict value V)) u v x :
  length (adj_bind h (adj_put adj u v x))
  + from_option (λ x0, length (h u v x0)) 0 (adj_get adj u v)
  = length (adj_bind h adj) + length (h u v x).
Proof.
  rewrite !length_adj_bind. unfold adj_put, adj_get.
  pose proof (od_set_sum
                (λ un : value * odict value V,
                   sum_list ((λ vx : value * V, length (h un.1 vx.1 vx.2))
                               <$> un.2))
                u (od_set v x (default [] (od_get u adj))) adj) as Houter.
  pose proof (od_set_sum (λ vx : value * V, length (h u vx.1 vx.2))
                v x (default [] (od_get u adj))) as Hinner.
  cbn [fst snd] in *.
  destruct (od_get u adj) as [nbrs|]; simpl in *; lia.
Qed.

Lemma length_keydict_edges {D} (u v : value) (keydict : odict value D) :
  length ('(_, data) ← keydict; [(u, v, data)]) = length keydict.
Proof.
  induction keydict as [|[k d] keydict IH]; [done|]. csimpl. by rewrite IH.
Qed.

(** [add_edge] with a fresh index adds exactly one raw edge. *)
Lemma add_edge_pure_count g u v data :
  length (mg_edges_data (add_edge_pure g u v data))
  = S (length (mg_edges_data g)).
Proof.
  pose proof (length_adj_bind_put
                (λ u v (keydict : odict value attrs),
                   '(_, data) ← keydict; [(u, v, data)])
                (mg_adj g) u v
                (default [] (adj_get (mg_adj g) u v) ++
                 [(VInt (Z.of_nat (length (default []
                                             (adj_get (mg_adj g) u v)))),
                   data)])) as Hput.
  cbv beta in Hput.
  rewrite !length_keydict_edges, length_app in Hput. simpl in Hput.
  assert (from_option
            (λ x0 : odict value attrs,
               length ('(_, data) ← x0; [(u, v, data)]))
            0 (adj_get (mg_adj g) u v)
          = length (default [] (adj_get (mg_adj g) u v))) as Hold.
  { destruct (adj_get (mg_adj g) u v); simpl; [|done].
    apply length_keydict_edges. }
  rewrite Hold in Hput.
  assert (mg_adj (add_edge_pure g u v data)
          = adj_put (mg_adj g) u v
              (default [] (adj_get (mg_adj g) u v) ++
               [(VInt (Z.of_nat (length (default []
                                           (adj_get (mg_adj g) u v)))),
                 data)])) as Hadj.
  { unfold add_edge_pure, adj_put. cbn [mg_adj].
    by rewrite od_get_default_nbrs. }
  unfold mg_edges_data. rewrite Hadj.
  change (length (adj_bind
                    (λ u v (keydict : odict value attrs),
                       '(_, data) ← keydict; [(u, v, data)])
                    (adj_put (mg_adj g) u v
                       (default [] (adj_get (mg_adj g) u v) ++
                        [(VInt (Z.of_nat (length (default []
                             (adj_get (mg_adj g) u v)))), data)])))
          = S (length (adj_bind
                         (λ u v (keydict : odict value attrs),
                            '(_, data) ← keydict; [(u, v, data)])
                         (mg_adj g)))).
  lia.
Qed.

Lemma add_node_pure_count g spec :
  length (mg_edges_data (add_node_pure g spec)) = length (mg_edges_data g).
Proof.
  unfold add_node_pure. case_match; [done|]. unfold mg_edges_data.
  cbn [mg_adj]. rewrite bind_app, length_app. csimpl. lia.
Qed.

Lemma foldl_add_row_pure_count df (rows : list (Z * Row)) g :
  length (mg_edges_data (foldl (add_row_pure df) g rows.*2))
  = length (mg_edges_data g) + length rows.
Proof.
  revert g. induction rows as [|[index row] rows IH]; intros g; csimpl; [lia|].
  rewrite IH. unfold add_row_pure.
  rewrite add_edge_pure_count, !add_node_pure_count. lia.
Qed.

(** A key dictionary with the keys [m, m+1, ...] is read by index. *)
Lemma od_get_sequential {D} (keydict : odict value D) (m : Z) key :
  od_keys keydict = VInt <$> seqZ m (Z.of_nat (length keydict)) →
  od_get key keydict
  = match key with
    | VInt z => if decide (m ≤ z)%Z then od_values keydict !! Z.to_nat (z - m)
                else None
    | _ => None
    end.
Proof.
  revert m. unfold od_keys, od_values.
  induction keydict as [|[k0 d0] keydict IH]; intros m Hk.
  - simpl. destruct key; try done. by case_decide.
  - cbn [length] in Hk. rewrite Nat2Z.inj_succ, seqZ_cons in Hk by lia.
    csimpl in Hk. injection Hk as -> Hk.
    replace (Z.pred (Z.succ (Z.of_nat (length keydict))))
      with (Z.of_nat (length keydict)) in Hk by lia.
    cbn [od_get]. rewrite (IH (Z.succ m) Hk).
    destruct key as [| | |z| |]; try (by rewrite decide_False).
    destruct (decide (VInt z = VInt m)) as [[= ->]|Hne].
    + rewrite decide_True by lia. by rewrite Z.sub_diag.
    + assert (z ≠ m) by congruence.
      destruct (decide (m ≤ z)%Z) as [Hle|Hgt].
      * rewrite decide_True by lia. csimpl.
        replace (Z.to_nat (z - m)) with (S (Z.to_nat (z - Z.succ m))) by lia.
        done.
      * by rewrite decide_False by lia.
Qed.

Lemma raw_edges_between_pair_data (g : IndraNet) u v :
  adj_wf (mg_adj g) → raw_edges_between g u v = pair_data g u v.
Proof.
  intros Hwf. unfold raw_edges_between, pair_data, mg_keydict.
  fold (adj_get (mg_adj g) u v).
  assert (filter (λ e : value * value * attrs, e.1.1 = u ∧ e.1.2 = v)
            (mg_edges_data g)
          = from_option (λ keydict : odict value attrs,
                           '(_, data) ← keydict; [(u, v, data)])
              [] (adj_get (mg_adj g) u v)) as ->.
  { apply (filter_adj_bind
             (λ u' v' (keydict : odict value attrs),
                '(_, data) ← keydict; [(u', v', data)])
             (λ e : value * value * attrs, e.1.1 = u ∧ e.1.2 = v) u v);
      [|done].
    intros u' v' keydict b
      ([k d] & ->%list_elem_of_singleton & _)%list_elem_of_bind.
    done. }
  destruct (adj_get (mg_adj g) u v) as [keydict|]; [|done]. simpl.
  unfold od_values. induction keydict as [|[k d] keydict IH]; [done|].
  csimpl. by rewrite IH.
Qed.

Lemma mg_edges_data_between {D} (g : MultiDiGraph D) u v data :
  (u, v, data) ∈ mg_edges_data g
  ↔ (u, v, data) ∈ filter (λ e : value * value * D, e.1.1 = u ∧ e.1.2 = v)
                     (mg_edges_data g).
Proof. rewrite list_elem_of_filter. naive_solver. Qed.

(** The graph of a valid table, with the invariants it satisfies. *)
Lemma from_df_valid_wf df :
  valid_table df = true →
  ∃ g, from_df df = (skip_log df, inr g)
       ∧ g = foldl (add_row_pure df) mg_empty (kept_rows df).*2
       ∧ from_df_inv g ∧ adj_wf (mg_adj g).
Proof.
  intros Hvalid. destruct (from_df_valid df Hvalid) as [Hrun Hinv].
  eexists. split_and!; [exact Hrun|done|done|].
  apply foldl_add_row_pure_inv; [apply from_df_inv_empty|apply adj_wf_nil].
Qed.

(** X1: on a valid table [from_df] creates one raw edge per kept row,
    also for repeated rows, and the edge key is the position of the row
    among the kept rows with the same ordered endpoints: the edge
    [(u, v, i)] carries the data of the [i]-th such row, and there is no
    edge under any other key. *)
Theorem from_df_edge_per_row (df : DataFrame) :
  valid_table df = true →
  ∃ g, from_df df = (skip_log df, inr g)
       ∧ length (mg_edges_data g) = length (kept_rows df)
       ∧ ∀ u v key,
           mg_edge_data g (u, v, key)
           = (i ← key_index key;
              ir ← rows_between df u v !! i;
              Some (edge_data df ir.2)).
Proof.
  intros Hvalid.
  destruct (from_df_valid_wf df Hvalid) as (g & Hrun & Hg & Hinv & Hwf).
  exists g. split_and!; [done| |].
  - rewrite Hg, foldl_add_row_pure_count. done.
  - intros u v key. unfold mg_edge_data.
    pose proof (pair_data_foldl df (kept_rows df) mg_empty u v) as Hpair.
    rewrite <- Hg in Hpair. fold (rows_between df u v) in Hpair.
    unfold pair_data in Hpair. simpl in Hpair.
    destruct (mg_keydict g u v) as [keydict|] eqn:Hkd; simpl in *.
    + rewrite (od_get_sequential keydict 0 key (inv_keys g Hinv u v _ Hkd)).
      rewrite Hpair. unfold key_index.
      destruct key as [| | |z| |]; try done.
      rewrite Z.sub_0_r. case_decide; [|done]. simpl.
      rewrite !list_lookup_fmap. unfold rows_between.
      by destruct (filter _ (kept_rows df) !! Z.to_nat z).
    + symmetry in Hpair. apply fmap_nil_inv, fmap_nil_inv in Hpair.
      assert (rows_between df u v = []) as -> by exact Hpair.
      by destruct (key_index key).
Qed.

Lemma from_df_edge_per_row_witness :
  ∃ g, from_df df_mixed = (skip_log df_mixed, inr g)
       ∧ length (mg_edges_data g) = length (kept_rows df_mixed)
       ∧ ∀ u v key,
           mg_edge_data g (u, v, key)
           = (i ← key_index key;
              ir ← rows_between df_mixed u v !! i;
              Some (edge_data df_mixed ir.2)).
Proof. apply (from_df_edge_per_row df_mixed). reflexivity. Defined.

(** ** The attributes of a raw edge *)

Lemma row_attrs_lookup_Some keys row k :
  k ∈ keys → row_attrs keys row !! k = Some (row k).
Proof.
  unfold row_attrs. induction keys as [|k0 keys IH]; [by intros ?%elem_of_nil|].
  csimpl. destruct (decide (k = k0)) as [->|Hne].
  - intros _. apply lookup_insert_eq.
  - intros [?|Hin]%elem_of_cons; [done|].
    rewrite lookup_insert_ne by done. by apply IH.
Qed.

Lemma edge_keys_not_field df k : k ∈ edge_keys df → k ∉ edge_fields.
Proof.
  unfold edge_keys, extra_column.
  intros [[Hex _]%andb_True _]%list_elem_of_filter Hf.
  apply bool_decide_unpack in Hex. apply Hex.
  unfold edge_fields, mandatory_columns in *. set_solver.
Qed.

Lemma edge_data_lookup df row k :
  forallb (λ c, bool_decide (c ∉ reserved_keywords)) (columns df) = true →
  edge_data df row !! k
  = if decide (k ∈ edge_fields ∨ k ∈ edge_keys df) then Some (row k)
    else None.
Proof.
  intros Hcols. rewrite forallb_forall in Hcols.
  assert (∀ c, c ∈ edge_keys df → c ∉ reserved_keywords) as Hres.
  { intros c Hc%edge_keys_columns.
    apply list_elem_of_In, Hcols, bool_decide_eq_true in Hc. done. }
  unfold edge_data.
  destruct (decide (k ∈ ["u_for_edge"; "v_for_edge"; "key"])) as [Hk|Hk].
  - rewrite decide_False.
    + assert (k = "u_for_edge" ∨ k = "v_for_edge" ∨ k = "key")
        as [->|[->| ->]] by set_solver.
      * apply lookup_delete_eq.
      * rewrite lookup_delete_ne by done. apply lookup_delete_eq.
      * rewrite !lookup_delete_ne by done. apply lookup_delete_eq.
    + intros [Hf|Hc].
      * unfold edge_fields in Hf. set_solver.
      * apply Hres in Hc. unfold reserved_keywords in Hc. set_solver.
  - rewrite !lookup_delete_ne by set_solver. unfold edge_kwargs.
    destruct (decide (k ∈ edge_keys df)) as [Hc|Hc].
    + rewrite decide_True by (by right).
      apply lookup_union_Some_l. by apply row_attrs_lookup_Some.
    + rewrite lookup_union_r by (by apply row_attrs_lookup_None).
      destruct (decide (k ∈ edge_fields)) as [Hf|Hf].
      * rewrite decide_True by (by left). unfold edge_fields in Hf.
        repeat (apply elem_of_cons in Hf as [->|Hf]; [done|]).
        by apply elem_of_nil in Hf.
      * rewrite decide_False by naive_solver.
        apply not_elem_of_list_to_map_1. csimpl.
        unfold edge_fields in Hf. set_solver.
Qed.

(** X2: on a valid table every raw edge of the graph comes from a kept
    row with the same endpoints, and its data dictionary holds exactly the
    cells of that row in the five edge fields and in the residual columns
    that do not start with [ag]; endpoint names and node columns are not
    edge attributes. *)
Theorem from_df_edge_attributes (df : DataFrame) :
  valid_table df = true →
  ∃ g, from_df df = (skip_log df, inr g)
       ∧ ∀ u v data, (u, v, data) ∈ mg_edges_data g →
           ∃ ir, ir ∈ kept_rows df
                 ∧ ir.2 "agA_name" = u ∧ ir.2 "agB_name" = v
                 ∧ ∀ k, data !! k
                        = if decide (k ∈ edge_fields ∨ k ∈ edge_keys df)
                          then Some (ir.2 k) else None.
Proof.
  intros Hvalid.
  destruct (from_df_valid_wf df Hvalid) as (g & Hrun & Hg & Hinv & Hwf).
  exists g. split; [done|]. intros u v data Hin.
  assert (data ∈ raw_edges_between g u v) as Hd.
  { unfold raw_edges_between. apply list_elem_of_fmap.
    exists (u, v, data). split; [done|]. by apply mg_edges_data_between. }
  rewrite (raw_edges_between_pair_data g u v Hwf) in Hd.
  rewrite Hg, pair_data_foldl in Hd. simpl in Hd.
  apply list_elem_of_fmap in Hd as (row & -> & Hrow).
  apply list_elem_of_fmap in Hrow as (ir & -> & Hir).
  apply list_elem_of_filter in Hir as [[HA HB] Hir].
  exists ir. split_and!; [done..|]. intros k. apply edge_data_lookup.
  unfold valid_table in Hvalid.
  by apply andb_true_iff in Hvalid as [[_ ?]%andb_true_iff _].
Qed.

Lemma from_df_edge_attributes_witness :
  ∃ g, from_df df_mixed = (skip_log df_mixed, inr g)
       ∧ ∀ u v data, (u, v, data) ∈ mg_edges_data g →
           ∃ ir, ir ∈ kept_rows df_mixed
                 ∧ ir.2 "agA_name" = u ∧ ir.2 "agB_name" = v
                 ∧ ∀ k, data !! k
                        = if decide (k ∈ edge_fields ∨ k ∈ edge_keys df_mixed)
                          then Some (ir.2 k) else None.
Proof. apply (from_df_edge_attributes df_mixed). reflexivity. Defined.

(** ** The attributes of a node and the use of the columns *)

Ltac prefix_head :=
  cbn [String.prefix];
  match goal with
  | |- context [Ascii.ascii_dec ?a ?b] =>
      destruct (Ascii.ascii_dec a b) as [<-|?]; [|done]
  end.

Lemma prefix_agA_ag key :
  String.prefix "agA_" key = true → String.prefix "ag" key = true.
Proof.
  destruct key as [|c1 [|c2 key]]; [done| |].
  - prefix_head. done.
  - prefix_head. prefix_head. intros _. by destruct key.
Qed.

Lemma prefix_agB_ag key :
  String.prefix "agB_" key = true → String.prefix "ag" key = true.
Proof.
  destruct key as [|c1 [|c2 key]]; [done| |].
  - prefix_head. done.
  - prefix_head. prefix_head. intros _. by destruct key.
Qed.

Lemma prefix_agA_agB key :
  String.prefix "agA_" key = true → String.prefix "agB_" key = false.
Proof.
  destruct key as [|c1 [|c2 [|c3 key]]]; [done| | |].
  - prefix_head. done.
  - prefix_head. prefix_head. done.
  - prefix_head. prefix_head. prefix_head. intros _. reflexivity.
Qed.

Lemma node_keys_elem role df key :
  key ∈ node_keys role df
  ↔ key ∈ columns df ∧ ¬ (key ∈ mandatory_columns)
    ∧ String.prefix (role +:+ "_") key = true.
Proof.
  unfold node_keys, extra_column.
  rewrite list_elem_of_filter, andb_True, bool_decide_spec, Is_true_true.
  naive_solver.
Qed.

Lemma edge_keys_elem df key :
  key ∈ edge_keys df
  ↔ key ∈ columns df ∧ ¬ (key ∈ mandatory_columns)
    ∧ String.prefix "ag" key = false.
Proof.
  unfold edge_keys, extra_column.
  rewrite list_elem_of_filter, andb_True, bool_decide_spec, negb_True,
    Is_true_false.
  naive_solver.
Qed.

(** X3: the columns of a table are put to at most one use.  A column is
    never an extra attribute for both roles, nor for a role and the edge; a
    mandatory column is never an extra attribute; and a column that starts
    with [ag] without starting with [agA_] or [agB_] is used for
    nothing. *)
Theorem from_df_column_uses (df : DataFrame) (key : string) :
  ¬ (key ∈ node_keys "agA" df ∧ key ∈ node_keys "agB" df)
  ∧ ¬ (key ∈ node_keys "agA" df ∧ key ∈ edge_keys df)
  ∧ ¬ (key ∈ node_keys "agB" df ∧ key ∈ edge_keys df)
  ∧ (key ∈ mandatory_columns ∨
     (String.prefix "ag" key = true ∧ String.prefix "agA_" key = false
      ∧ String.prefix "agB_" key = false) →
     ¬ (key ∈ node_keys "agA" df) ∧ ¬ (key ∈ node_keys "agB" df)
     ∧ ¬ (key ∈ edge_keys df)).
Proof.
  rewrite !node_keys_elem, !edge_keys_elem.
  change ("agA" +:+ "_") with "agA_". change ("agB" +:+ "_") with "agB_".
  split_and!.
  - intros [(_ & _ & HA) (_ & _ & HB)].
    apply prefix_agA_agB in HA. congruence.
  - intros [(_ & _ & HA) (_ & _ & He)].
    apply prefix_agA_ag in HA. congruence.
  - intros [(_ & _ & HB) (_ & _ & He)].
    apply prefix_agB_ag in HB. congruence.
  - intros [Hm|(Hag & HA & HB)]; split_and!; intros (? & ? & ?);
      first [done|congruence].
Qed.

Lemma node_spec_lookup role df row k :
  (role = "agA" ∨ role = "agB") →
  (node_spec role df row).2 !! k = node_attr_of role df row k.
Proof.
  intros Hrole. unfold node_spec, node_attr_of. cbn [snd].
  destruct (decide (k = "ns")) as [->|Hns]; [apply lookup_insert_eq|].
  rewrite lookup_insert_ne by done.
  destruct (decide (k = "id")) as [->|Hid]; [apply lookup_insert_eq|].
  rewrite lookup_insert_ne by done.
  case_decide; [by apply row_attrs_lookup_Some|by apply row_attrs_lookup_None].
Qed.

Lemma foldl_add_if_new_elem specs acc spec :
  spec ∈ foldl add_if_new acc specs → spec ∈ acc ∨ spec ∈ specs.
Proof.
  revert acc. induction specs as [|s specs IH]; intros acc; simpl; [by left|].
  intros [Hin|Hin]%IH; [|right; by right].
  unfold add_if_new in Hin. case_match; [by left|].
  apply elem_of_app in Hin as [?|Hs]; [by left|].
  apply list_elem_of_singleton in Hs as ->. right. by left.
Qed.

(** X4: on a valid table every node of the graph was named by a kept
    row in one of the two roles, and its attribute dictionary holds exactly
    [ns] and [id] from the columns of that role and the extra columns
    prefixed with the role; columns of the other role and edge columns are
    not among a node's attributes. *)
Theorem from_df_node_attributes (df : DataFrame) :
  valid_table df = true →
  ∃ g, from_df df = (skip_log df, inr g)
       ∧ ∀ name node_attr, (name, node_attr) ∈ mg_node g →
           ∃ ir role, ir ∈ kept_rows df
                      ∧ (role = "agA" ∨ role = "agB")
                      ∧ ir.2 (role +:+ "_name") = name
                      ∧ ∀ k, node_attr !! k = node_attr_of role df ir.2 k.
Proof.
  intros Hvalid.
  destruct (from_df_nodes_first_seen_aux df Hvalid) as (g & Hrun & Hnodes).
  exists g. split; [done|]. intros name node_attr. rewrite Hnodes.
  unfold first_seen.
  intros [Hnil|Hin]%foldl_add_if_new_elem; [by apply elem_of_nil in Hnil|].
  unfold endpoint_specs in Hin.
  apply list_elem_of_bind in Hin as (ir & Hspec & Hir).
  apply elem_of_cons in Hspec as [Hspec|Hspec];
    [|apply list_elem_of_singleton in Hspec].
  - exists ir, "agA". split_and!; [done|by left|by inversion Hspec|].
    intros k. etrans; [|apply node_spec_lookup; by left].
    by inversion Hspec.
  - exists ir, "agB". split_and!; [done|by right|by inversion Hspec|].
    intros k. etrans; [|apply node_spec_lookup; by right].
    by inversion Hspec.
Qed.

Lemma from_df_node_attributes_witness :
  ∃ g, from_df df_mixed = (skip_log df_mixed, inr g)
       ∧ ∀ name node_attr, (name, node_attr) ∈ mg_node g →
           ∃ ir role, ir ∈ kept_rows df_mixed
                      ∧ (role = "agA" ∨ role = "agB")
                      ∧ ir.2 (role +:+ "_name") = name
                      ∧ ∀ k, node_attr !! k = node_attr_of role df_mixed ir.2 k.
Proof. apply (from_df_node_attributes df_mixed). reflexivity. Defined.

(** ** The exceptions of [from_df] *)













(** *** Exceptions on a table with arbitrary labels *)









(** A column labelled by an integer, and a skipped row labelled by
    NaN. *)
Example from_df_label_errors :
  from_df_labelled int_column_frame = raise AttributeError
  ∧ (from_df_labelled nan_index_frame).2 = inl (ValueError []).
Proof. split; vm_compute; reflexivity. Qed.

(** ** The nodes of a flattened graph *)

Lemma add_if_new_known nodes (spec : value * attrs) :
  spec.1 ∈ od_keys nodes → add_if_new nodes spec = nodes.
Proof. intros Hin%od_mem_true. unfold add_if_new. by rewrite Hin. Qed.

Lemma adj_get_Some_key {V} (adj : odict value (odict value V)) u v :
  is_Some (adj_get adj u v) → u ∈ od_keys adj.
Proof.
  unfold adj_get. intros [x Hx]. apply od_mem_true. unfold od_mem.
  by destruct (od_get u adj).
Qed.

Lemma dg_touch_nodes {D} (g : DiGraph D) n :
  dg_nodes_inv g →
  dg_nodes_inv (dg_touch n g)
  ∧ dg_node (dg_touch n g) = add_if_new (dg_node g) (n, ∅)
  ∧ n ∈ od_keys (dg_adj (dg_touch n g))
  ∧ ∀ m, m ∈ od_keys (dg_adj g) → m ∈ od_keys (dg_adj (dg_touch n g)).
Proof.
  intros [Hkeys Hends]. unfold dg_touch, add_if_new. cbn [fst].
  rewrite (od_mem_keys_eq n (dg_node g) (dg_adj g) Hkeys).
  destruct (od_mem n (dg_adj g)) eqn:Hm.
  - split_and!; [by split|done|by apply od_mem_true|done].
  - cbn [dg_node dg_adj].
    assert (od_get n (dg_node g) = None) as Hnode.
    { apply od_mem_false.
      by rewrite (od_mem_keys_eq n (dg_node g) (dg_adj g) Hkeys). }
    assert (od_keys (V:=odict value D)
              (od_set (V:=odict value D) n [] (dg_adj g))
            = od_keys (dg_adj g) ++ [n]) as Hadj.
    { rewrite od_set_fresh by (apply od_mem_false; exact Hm).
      unfold od_keys. by rewrite fmap_app. }
    assert (∀ m, m ∈ od_keys (dg_adj g) ∨ m = n
                 → m ∈ od_keys (od_set n [] (dg_adj g))) as Hin.
    { intros m Hm'. eapply (eq_ind_r (λ l, m ∈ l)); [|exact Hadj].
      rewrite elem_of_app, list_elem_of_singleton. done. }
    split_and!.
    + split; cbn [dg_node dg_adj].
      * etrans; [|symmetry; exact Hadj].
        rewrite (od_set_fresh _ _ _ Hnode). unfold od_keys.
        rewrite fmap_app. by f_equal.
      * intros u v Huv. rewrite adj_get_touch in Huv by done.
        destruct (Hends u v Huv). split; apply Hin; by left.
    + by apply od_set_fresh.
    + apply Hin. by right.
    + intros m Hm'. apply Hin. by left.
Qed.

Lemma dg_put_nodes {D} (g g' : DiGraph D) u v x :
  dg_nodes_inv g →
  u ∈ od_keys (dg_adj g) → v ∈ od_keys (dg_adj g) →
  dg_node g' = dg_node g →
  dg_adj g' = adj_put (dg_adj g) u v x →
  dg_nodes_inv g'.
Proof.
  intros [Hkeys Hends] Hu Hv Hnode Hadj.
  assert (od_keys (dg_adj g') = od_keys (dg_adj g)) as Hsame.
  { rewrite Hadj. unfold adj_put. apply od_keys_set_present.
    apply od_mem_true in Hu. unfold od_mem in Hu.
    destruct (od_get u (dg_adj g)); [eauto|done]. }
  split.
  - by rewrite Hnode, Hsame.
  - intros u' v'. rewrite Hsame, Hadj, adj_get_put.
    case_decide as Hd; [by destruct Hd as [-> ->]|apply Hends].
Qed.

(** One step of the loop of [to_digraph] adds the endpoints that are
    new, each with no attributes. *)
Lemma to_digraph_step_nodes (g g' : DiGraph FlatAttrs) u v data l :
  to_digraph_step g (u, v, data) = (l, inr g') →
  dg_nodes_inv g →
  dg_nodes_inv g'
  ∧ dg_node g' = add_if_new (add_if_new (dg_node g) (u, ∅)) (v, ∅).
Proof.
  unfold to_digraph_step.
  intros (l1 & present & l2 & Hhas & Hstep & ->)%bind_inr Hinv.
  destruct present.
  - destruct (dg_edge_data g (u, v)) as [fa|] eqn:Hfa; [|done].
    injection Hstep as <- <-.
    assert (is_Some (adj_get (dg_adj g) u v)) as Huv by (by exists fa).
    destruct (proj2 Hinv u v Huv) as [Hu Hv].
    split.
    + eapply (dg_put_nodes g _ u v); [done..|reflexivity|reflexivity].
    + cbn [dg_node].
      rewrite (add_if_new_known (dg_node g) (u, ∅))
        by (cbn [fst]; by rewrite (proj1 Hinv)).
      by rewrite (add_if_new_known (dg_node g) (v, ∅))
        by (cbn [fst]; by rewrite (proj1 Hinv)).
  - unfold dg_add_edge in Hstep.
    apply bind_check_hashable_inr in Hstep as [_ Hstep].
    apply bind_check_hashable_inr in Hstep as [_ Hstep].
    injection Hstep as <- <-.
    destruct (dg_touch_nodes g u Hinv) as (Hinv1 & Hnode1 & Hu1 & Hmono1).
    destruct (dg_touch_nodes (dg_touch u g) v Hinv1)
      as (Hinv2 & Hnode2 & Hv2 & Hmono2).
    split.
    + eapply (dg_put_nodes (dg_touch v (dg_touch u g)) _ u v);
        [done|by apply Hmono2|done|reflexivity|reflexivity].
    + cbn [dg_node]. by rewrite Hnode2, Hnode1.
Qed.

Lemma foldl_add_if_new_bare {D} nodes (e : value * value * D) edges :
  foldl add_if_new nodes (bare_endpoints (e :: edges))
  = foldl add_if_new
      (add_if_new (add_if_new nodes (e.1.1, ∅)) (e.1.2, ∅))
      (bare_endpoints edges).
Proof. by destruct e as [[u v] data]. Qed.

Lemma to_digraph_loop_nodes edges (g g' : DiGraph FlatAttrs) l :
  foldM to_digraph_step g edges = (l, inr g') →
  dg_nodes_inv g →
  dg_nodes_inv g'
  ∧ dg_node g' = foldl add_if_new (dg_node g) (bare_endpoints edges).
Proof.
  revert g l. induction edges as [|[[u v] data] edges IH]; intros g l.
  - intros [= <- <-]. done.
  - cbn [foldM]. intros (l1 & g1 & l2 & Hstep & Hrest & ->)%bind_inr Hinv.
    destruct (to_digraph_step_nodes _ _ _ _ _ _ Hstep Hinv) as [Hinv1 Hn1].
    destruct (IH _ _ Hrest Hinv1) as [Hinv' Hn'].
    split; [done|]. rewrite Hn', Hn1. by rewrite foldl_add_if_new_bare.
Qed.

Lemma dg_set_belief_node (g : DiGraph FlatAttrs) e b :
  dg_node (dg_set_belief g e b) = dg_node g.
Proof. destruct e as [u v]. unfold dg_set_belief. by repeat case_match. Qed.

Lemma update_with_dg_node
    (f : DiGraph FlatAttrs → value * value → M longfloat) es
    (g g' : DiGraph FlatAttrs) l :
  foldM (λ g e, b <- f g e ;; ret (dg_set_belief g e b)) g es = (l, inr g') →
  dg_node g' = dg_node g.
Proof.
  revert g l. induction es as [|e es IH]; intros g l.
  - by intros [= <- <-].
  - cbn [foldM]. intros (l1 & g1 & l2 & Hstep & Hrest & ->)%bind_inr.
    apply bind_inr in Hstep as (l3 & b & l4 & _ & [= <- <-] & _).
    rewrite (IH _ _ Hrest). apply dg_set_belief_node.
Qed.

Lemma update_edge_belief_dg_node fmt score (g g' : DiGraph FlatAttrs)
    method l :
  _update_edge_belief fmt score g method = (l, inr g') →
  dg_node g' = dg_node g.
Proof.
  unfold _update_edge_belief, update_with.
  destruct method as [|name|f]; repeat case_decide;
    apply update_with_dg_node.
Qed.

(** X6: the nodes of the directed flattening are the endpoints of the
    raw edges, in the order in which the edge enumeration first meets them
    (source before target), and none of them has an attribute: the node
    attributes of the multigraph and its nodes without an edge are not
    carried over. *)
Theorem to_digraph_nodes fmt score (self : IndraNet)
    (method : flattening_method (DiGraph FlatAttrs))
    (logs : list log_record) (G : DiGraph FlatAttrs) :
  to_digraph fmt score self method = (logs, inr G) →
  dg_node G = first_seen (bare_endpoints (mg_edges_data self))
  ∧ (∀ n, n ∈ od_keys (dg_node G)
          ↔ ∃ u v data, (u, v, data) ∈ mg_edges_data self ∧ (n = u ∨ n = v))
  ∧ ∀ n node_attr, (n, node_attr) ∈ dg_node G → node_attr = ∅.
Proof.
  unfold to_digraph.
  intros (l1 & g1 & l2 & Hloop & Hupd & ->)%bind_inr.
  assert (dg_nodes_inv (@dg_empty FlatAttrs)) as Hinv0.
  { split; [done|]. intros u v [x Hx]. done. }
  destruct (to_digraph_loop_nodes _ _ _ _ Hloop Hinv0) as [_ Hnodes].
  apply update_edge_belief_dg_node in Hupd.
  assert (dg_node G = first_seen (bare_endpoints (mg_edges_data self)))
    as Heq by (by rewrite Hupd, Hnodes).
  split_and!; [done|..].
  - intros n. rewrite Heq, first_seen_keys. unfold bare_endpoints.
    rewrite list_elem_of_fmap. split.
    + intros ([n' a] & -> & Hin).
      apply list_elem_of_bind in Hin as ([[u v] data] & Hin & He).
      exists u, v, data. split; [done|].
      apply elem_of_cons in Hin as [[= -> _]|Hin]; [by left|].
      apply list_elem_of_singleton in Hin as [= -> _]. by right.
    + intros (u & v & data & He & Hn). exists (n, ∅). split; [done|].
      apply list_elem_of_bind. exists (u, v, data). split; [|done].
      destruct Hn as [->| ->]; [by left|right; by left].
  - intros n node_attr. rewrite Heq. unfold first_seen.
    intros [Hnil|Hin]%foldl_add_if_new_elem; [by apply elem_of_nil in Hnil|].
    apply list_elem_of_bind in Hin as ([[u v] data] & Hin & _).
    apply elem_of_cons in Hin as [[= _ ->]|Hin]; [done|].
    by apply list_elem_of_singleton in Hin as [= _ ->].
Qed.

Lemma to_digraph_nodes_witness :
  dg_node scenario_digraph
  = first_seen (bare_endpoints (mg_edges_data scenario_net))
  ∧ (∀ n, n ∈ od_keys (dg_node scenario_digraph)
          ↔ ∃ u v data, (u, v, data) ∈ mg_edges_data scenario_net
                        ∧ (n = u ∨ n = v))
  ∧ ∀ n node_attr, (n, node_attr) ∈ dg_node scenario_digraph → node_attr = ∅.
Proof.
  apply (to_digraph_nodes x87_extended example_scorer scenario_net
           (MethodStr "complementary_belief") [] scenario_digraph).
  vm_compute. reflexivity.
Defined.

(** ** The belief update *)

Lemma mapM_cons {A B} (f : A → M B) a l :
  mapM f (a :: l) = (b <- f a ;; bs <- mapM f l ;; ret (b :: bs)).
Proof. done. Qed.

Lemma mapM_ext_in {A B} (f g : A → M B) l :
  (∀ a, a ∈ l → f a = g a) → mapM f l = mapM g l.
Proof.
  induction l as [|a l IH]; intros Hfg; [done|].
  rewrite !mapM_cons, (Hfg a) by (by left).
  rewrite IH; [done|]. intros a' Ha'. apply Hfg. by right.
Qed.

Lemma complementary_belief_reads fmt {G} `{NxGraph G} :
  reads_statements (_complementary_belief fmt) (complementary_of fmt).
Proof.
  intros g e. unfold _complementary_belief, edge_statements, complementary_of.
  destruct (nx_edge_data g e); [by rewrite bind_ret_l|done].
Qed.

Lemma simple_scorer_update_reads score {G} `{NxGraph G} :
  reads_statements (_simple_scorer_update score) (simple_scorer_of score).
Proof.
  intros g e. unfold _simple_scorer_update, edge_statements, simple_scorer_of.
  destruct (nx_edge_data g e); [by rewrite bind_ret_l|done].
Qed.

Section update.
Context {G : Type} `{NxGraph G} `{EqDecision (@edge_id G _)}.
Context (wf : G → Prop) `{!NxGraphLaws G wf}.

(** The loop of [_update_edge_belief] over edges that are listed once:
    each of them receives a belief, the others keep their data. *)
Lemma update_loop_any (f : G → edge_id → M longfloat) es (gc g' : G) l :
  foldM (λ g e, b <- f g e ;; ret (nx_set_belief g e b)) gc es
  = (l, inr g') →
  wf gc → NoDup es →
  wf g'
  ∧ nx_edges g' = nx_edges gc
  ∧ (∀ e, e ∉ es → nx_edge_data g' e = nx_edge_data gc e)
  ∧ ∀ e, e ∈ es → ∃ b, nx_edge_data g' e = set_belief b <$> nx_edge_data gc e.
Proof using Type*.
  revert gc l. induction es as [|e0 es IH]; intros gc l.
  - intros [= <- <-] Hwf _. split_and!; [done..|]. by intros e ?%elem_of_nil.
  - cbn [foldM]. intros (l1 & g1 & l2 & Hstep & Hrest & ->)%bind_inr Hwf.
    intros [Hnotin Hnodup]%NoDup_cons.
    apply bind_inr in Hstep as (l3 & b & l4 & _ & [= <- <-] & _).
    destruct (IH _ _ Hrest (nx_set_belief_wf gc e0 b Hwf) Hnodup)
      as (Hwf' & Hedges & Hout & Hin).
    split_and!; [done|by rewrite Hedges, nx_set_belief_edges|..].
    + intros e He. rewrite not_elem_of_cons in He. destruct He as [Hne He].
      rewrite (Hout e He), nx_set_belief_data by done.
      by rewrite decide_False.
    + intros e [->|He]%elem_of_cons.
      * exists b. rewrite (Hout e0 Hnotin), nx_set_belief_data by done.
        by rewrite decide_True.
      * destruct (Hin e He) as [b' Hb']. exists b'.
        rewrite Hb', nx_set_belief_data by done.
        rewrite decide_False; [done|]. by intros ->.
Qed.

(** The same loop for a strategy that reads only the statements of its
    edge: every call computes what it would compute on the graph the loop
    started from. *)
Lemma update_loop_reads (f : G → edge_id → M longfloat) S (g : G) es
    (gc : G) :
  reads_statements f S → wf gc → NoDup es →
  (∀ e, statements <$> nx_edge_data gc e = statements <$> nx_edge_data g e) →
  match mapM (f g) es with
  | (l, inl err) =>
      foldM (λ g e, b <- f g e ;; ret (nx_set_belief g e b)) gc es
      = (l, inl err)
  | (l, inr bs) =>
      ∃ g', foldM (λ g e, b <- f g e ;; ret (nx_set_belief g e b)) gc es
            = (l, inr g')
            ∧ wf g'
            ∧ nx_edges g' = nx_edges gc
            ∧ (∀ e, e ∉ es → nx_edge_data g' e = nx_edge_data gc e)
            ∧ ∀ i e b, es !! i = Some e → bs !! i = Some b →
                nx_edge_data g' e = set_belief b <$> nx_edge_data gc e
  end.
Proof using Type*.
  intros Hreads. revert gc. induction es as [|e0 es IH]; intros gc Hwf Hnd Hst.
  - cbn. exists gc. split_and!; done.
  - apply NoDup_cons in Hnd as [Hnotin Hnodup].
    rewrite mapM_cons. cbn [foldM].
    assert (f gc e0 = f g e0) as Hsame.
    { rewrite !Hreads. specialize (Hst e0).
      destruct (nx_edge_data gc e0), (nx_edge_data g e0); simplify_eq/=;
        congruence. }
    rewrite Hsame. destruct (f g e0) as [l0 [err|b]]; [done|].
    cbn [bind ret]. rewrite app_nil_r.
    assert (∀ e, statements <$> nx_edge_data (nx_set_belief gc e0 b) e
                 = statements <$> nx_edge_data g e) as Hst1.
    { intros e. rewrite nx_set_belief_data by done. case_decide as He.
      - subst e. rewrite <- Hst. by destruct (nx_edge_data gc e0).
      - apply Hst. }
    specialize (IH (nx_set_belief gc e0 b) (nx_set_belief_wf gc e0 b Hwf)
                  Hnodup Hst1).
    destruct (mapM (f g) es) as [l1 [err|bs]].
    + rewrite IH. done.
    + destruct IH as (g' & -> & Hwf' & Hedges & Hout & Hin).
      exists g'. rewrite app_nil_r.
      split_and!; [done|done|by rewrite Hedges, nx_set_belief_edges|..].
      * intros e He. rewrite not_elem_of_cons in He. destruct He as [Hne He].
        rewrite (Hout e He), nx_set_belief_data by done.
        by rewrite decide_False.
      * intros [|i] e b'; cbn.
        -- intros [= <-] [= <-].
           rewrite (Hout e0 Hnotin), nx_set_belief_data by done.
           by rewrite decide_True.
        -- intros Hi Hb. rewrite (Hin i e b' Hi Hb).
           rewrite nx_set_belief_data by done.
           rewrite decide_False; [done|]. intros ->.
           apply Hnotin. by eapply list_elem_of_lookup_2.
Qed.

Lemma update_with_reads (f : G → edge_id → M longfloat) S (g : G) :
  reads_statements f S → wf g →
  match mapM (λ e, S (from_option statements [] (nx_edge_data g e)))
          (nx_edges g) with
  | (l, inl err) => update_with f g = (l, inl err)
  | (l, inr bs) =>
      ∃ g', update_with f g = (l, inr g')
            ∧ wf g'
            ∧ nx_edges g' = nx_edges g
            ∧ (∀ e, e ∉ nx_edges g → nx_edge_data g' e = nx_edge_data g e)
            ∧ ∀ i e b, nx_edges g !! i = Some e → bs !! i = Some b →
                nx_edge_data g' e = set_belief b <$> nx_edge_data g e
  end.
Proof using Type*.
  intros Hreads Hwf.
  rewrite <- (mapM_ext_in (f g)).
  - apply (update_loop_reads f S g (nx_edges g) g);
      [done|done|by apply nx_edges_NoDup|done].
  - intros e [fa Hfa]%nx_edges_data; [|done]. by rewrite Hreads, Hfa.
Qed.

Lemma update_with_reads_inr (f : G → edge_id → M longfloat) S (g g' : G) l :
  reads_statements f S → wf g →
  update_with f g = (l, inr g') →
  ∃ bs, mapM (λ e, S (from_option statements [] (nx_edge_data g e)))
          (nx_edges g) = (l, inr bs)
        ∧ wf g'
        ∧ nx_edges g' = nx_edges g
        ∧ ∀ i e b, nx_edges g !! i = Some e → bs !! i = Some b →
            nx_edge_data g' e = set_belief b <$> nx_edge_data g e.
Proof using Type*.
  intros Hreads Hwf Hupd.
  pose proof (update_with_reads f S g Hreads Hwf) as Hrun.
  destruct (mapM _ (nx_edges g)) as [l' [err|bs]].
  - rewrite Hrun in Hupd. done.
  - destruct Hrun as (g'' & Hrun & Hwf' & Hedges & _ & Hin).
    rewrite Hrun in Hupd. injection Hupd as <- <-. by exists bs.
Qed.

Lemma update_with_reads_inl (f : G → edge_id → M longfloat) S (g : G) l err :
  reads_statements f S → wf g →
  mapM (λ e, S (from_option statements [] (nx_edge_data g e))) (nx_edges g)
  = (l, inl err) →
  update_with f g = (l, inl err).
Proof using Type*.
  intros Hreads Hwf Hmap.
  pose proof (update_with_reads f S g Hreads Hwf) as Hrun.
  by rewrite Hmap in Hrun.
Qed.
End update.

(** *** Directed graphs and multigraphs satisfy the laws *)

Lemma NoDup_filter_family {A I} (P : I → A → Prop)
    {Hdec : ∀ i a, Decision (P i a)} (l : list A) :
  (∀ a, ∃ i, P i a) → (∀ i, NoDup (filter (P i) l)) → NoDup l.
Proof.
  intros Hcover. induction l as [|a l IH]; intros Hnd; [constructor|].
  apply NoDup_cons. split.
  - destruct (Hcover a) as [i Hi]. specialize (Hnd i).
    rewrite filter_cons_True in Hnd by done.
    apply NoDup_cons in Hnd as [Hnotin _].
    intros Hin. apply Hnotin. by apply list_elem_of_filter.
  - apply IH. intros i. specialize (Hnd i). rewrite filter_cons in Hnd.
    case_decide; [by apply NoDup_cons in Hnd as [_ ?]|done].
Qed.

Lemma od_set_bind_same {K V B} `{EqDecision K} (f : K * V → list B)
    k v v' (d : odict K V) :
  od_get k d = Some v → f (k, v') = f (k, v) → od_set k v' d ≫= f = d ≫= f.
Proof.
  intros Hget Hf. induction d as [|[k0 v0] d IH]; [done|]. simpl in *.
  case_decide as Hk.
  - subst k0. injection Hget as ->. csimpl. by rewrite Hf.
  - csimpl. by rewrite IH.
Qed.

Lemma adj_put_bind_same {V B} (h : value → value → V → list B)
    (adj : odict value (odict value V)) u v x x' :
  adj_get adj u v = Some x → h u v x' = h u v x →
  adj_bind h (adj_put adj u v x') = adj_bind h adj.
Proof.
  unfold adj_get, adj_put, adj_bind. intros Hget Hh.
  destruct (od_get u adj) as [nbrs|] eqn:Hu; [|done]. simpl in Hget. simpl.
  apply (od_set_bind_same
           (λ '(u, nbrs), '(v, x) ← nbrs; h u v x) u nbrs); [done|].
  by apply (od_set_bind_same (λ '(v, x), h u v x) v x).
Qed.

Lemma od_get_is_Some {K V} `{EqDecision K} (k : K) (d : odict K V) :
  is_Some (od_get k d) ↔ k ∈ od_keys d.
Proof.
  rewrite <- od_mem_true. unfold od_mem.
  destruct (od_get k d); split; by eauto.
Qed.

Lemma dg_set_belief_adj (g : DiGraph FlatAttrs) u v b :
  dg_adj (dg_set_belief g (u, v) b)
  = match adj_get (dg_adj g) u v with
    | Some fa => adj_put (dg_adj g) u v (set_belief b fa)
    | None => dg_adj g
    end.
Proof.
  unfold dg_set_belief, adj_get, adj_put.
  destruct (od_get u (dg_adj g)) as [nbrs|]; [|done]. simpl.
  by destruct (od_get v nbrs).
Qed.

Global Instance dg_laws : NxGraphLaws (DiGraph FlatAttrs) dg_wf.
Proof.
  split.
  - intros g Hwf. cbn.
    apply (NoDup_filter_family (λ i e, e = i)
             (Hdec:=λ i e, decide (e = i))); [by eexists|].
    intros [u v]. change (NoDup (filter (λ e, e = (u, v)) (dg_edges g))).
    rewrite (dg_edges_filter g u v Hwf).
    case_match; [apply NoDup_singleton|constructor].
  - intros g [u v] Hwf. by apply dg_edges_elem.
  - intros g [u v] b Hwf. unfold dg_wf. rewrite dg_set_belief_adj.
    case_match; [by apply adj_wf_put|done].
  - intros g [u v] b Hwf. cbn.
    change (adj_bind (λ u v _, [(u, v)]) (dg_adj (dg_set_belief g (u, v) b))
            = adj_bind (λ u v _, [(u, v)]) (dg_adj g)).
    rewrite dg_set_belief_adj.
    destruct (adj_get (dg_adj g) u v) eqn:Huv; [|done].
    by eapply adj_put_bind_same.
  - intros g [u v] b [u' v'] Hwf. cbn.
    change (adj_get (dg_adj (dg_set_belief g (u, v) b)) u' v'
            = if decide ((u', v') = (u, v))
              then set_belief b <$> adj_get (dg_adj g) u v
              else adj_get (dg_adj g) u' v').
    rewrite dg_set_belief_adj.
    destruct (adj_get (dg_adj g) u v) eqn:Huv.
    + rewrite adj_get_put. repeat case_decide; naive_solver.
    + case_decide as He; [|done]. injection He as -> ->. by rewrite Huv.
Qed.

Lemma mg_set_belief_adj (g : MultiDiGraph FlatAttrs) u v key b :
  mg_adj (mg_set_belief g (u, v, key) b)
  = match adj_get (mg_adj g) u v with
    | Some keydict =>
        match od_get key keydict with
        | Some fa =>
            adj_put (mg_adj g) u v (od_set key (set_belief b fa) keydict)
        | None => mg_adj g
        end
    | None => mg_adj g
    end.
Proof.
  unfold mg_set_belief, adj_get, adj_put.
  destruct (od_get u (mg_adj g)) as [nbrs|]; [|done]. simpl.
  destruct (od_get v nbrs) as [keydict|]; [|done].
  by destruct (od_get key keydict).
Qed.

Lemma mg_edges_elem (g : MultiDiGraph FlatAttrs) u v key :
  adj_wf (mg_adj g) →
  (u, v, key) ∈ mg_edges g ↔ is_Some (mg_edge_data g (u, v, key)).
Proof.
  intros Hwf.
  trans ((u, v, key) ∈ signed_edges_between g u v).
  { unfold signed_edges_between. rewrite list_elem_of_filter. naive_solver. }
  rewrite signed_edges_between_keys by done.
  rewrite list_elem_of_fmap. cbn. unfold mg_keydict.
  change (nbrs ← od_get u (mg_adj g); od_get v nbrs)
    with (adj_get (mg_adj g) u v).
  destruct (adj_get (mg_adj g) u v) as [keydict|]; cbn.
  - rewrite od_get_is_Some. split; [by intros (k & [= ->] & ?)|eauto].
  - split; [by intros (k & _ & ?%elem_of_nil)|by intros [? ?]].
Qed.

Global Instance mg_laws : NxGraphLaws (MultiDiGraph FlatAttrs) mg_wf.
Proof.
  split.
  - intros g [Hwf Hkeys]. cbn.
    apply (NoDup_filter_family
             (λ (i : value * value) (e : value * value * value),
                e.1.1 = i.1 ∧ e.1.2 = i.2)
             (Hdec:=λ i e, decide (e.1.1 = i.1 ∧ e.1.2 = i.2))).
    { intros e. by exists (e.1.1, e.1.2). }
    intros [u v]. cbn [fst snd].
    change (NoDup (signed_edges_between g u v)).
    rewrite signed_edges_between_keys by done.
    apply NoDup_fmap_2; [by intros k1 k2 [= ->]|].
    destruct (adj_get (mg_adj g) u v) eqn:Huv; [by eapply Hkeys|constructor].
  - intros g [[u v] key] [Hwf _]. by apply mg_edges_elem.
  - intros g [[u v] key] b [Hwf Hkeys]. unfold mg_wf.
    rewrite mg_set_belief_adj.
    destruct (adj_get (mg_adj g) u v) as [keydict|] eqn:Huv; [|done].
    destruct (od_get key keydict) as [fa|] eqn:Hkey; [|done].
    split; [by apply adj_wf_put|].
    intros u' v' keydict'. rewrite adj_get_put. case_decide as Hd.
    + intros [= <-]. apply od_set_NoDup. by eapply Hkeys.
    + apply Hkeys.
  - intros g [[u v] key] b [Hwf Hkeys]. cbn.
    change (adj_bind (λ u v keydict, '(key, _) ← keydict; [(u, v, key)])
              (mg_adj (mg_set_belief g (u, v, key) b))
            = adj_bind (λ u v keydict, '(key, _) ← keydict; [(u, v, key)])
                (mg_adj g)).
    rewrite mg_set_belief_adj.
    destruct (adj_get (mg_adj g) u v) as [keydict|] eqn:Huv; [|done].
    destruct (od_get key keydict) as [fa|] eqn:Hkey; [|done].
    eapply adj_put_bind_same; [done|].
    by apply (od_set_bind_same (λ '(key, _), [(u, v, key)]) key fa).
  - intros g [[u v] key] b [[u' v'] key'] [Hwf Hkeys]. cbn.
    unfold mg_keydict.
    change (adj_get (mg_adj (mg_set_belief g (u, v, key) b)) u' v'
              ≫= od_get key'
            = if decide ((u', v', key') = (u, v, key))
              then set_belief b <$> (adj_get (mg_adj g) u v ≫= od_get key)
              else adj_get (mg_adj g) u' v' ≫= od_get key').
    rewrite mg_set_belief_adj.
    destruct (adj_get (mg_adj g) u v) as [keydict|] eqn:Huv.
    + destruct (od_get key keydict) as [fa|] eqn:Hkey.
      * rewrite adj_get_put. case_decide as Hd.
        -- destruct Hd as [-> ->]. cbn. rewrite od_get_set.
           case_decide as Hk.
           ++ subst key'. rewrite decide_True by done. by rewrite Hkey.
           ++ rewrite decide_False by congruence. by rewrite Huv.
        -- rewrite decide_False; [done|]. intros [= -> -> ->]. naive_solver.
      * case_decide as He; [|done]. injection He as -> -> ->.
        rewrite Huv. cbn. by rewrite Hkey.
    + case_decide as He; [|done]. injection He as -> -> ->. by rewrite Huv.
Qed.

Lemma update_edge_belief_update_with fmt score {G} `{NxGraph G} (g : G)
    method :
  ∃ f, _update_edge_belief fmt score g method = update_with f g.
Proof.
  unfold _update_edge_belief.
  destruct method as [|name|f]; repeat case_decide; eauto.
Qed.

Lemma update_edge_belief_builtin_with fmt score {G} `{NxGraph G} (g : G)
    method S :
  builtin_strategy fmt score method S →
  ∃ f, reads_statements f S
       ∧ _update_edge_belief fmt score g method = update_with f g.
Proof.
  intros [| |].
  - exists (_simple_scorer_update score).
    split; [apply simple_scorer_update_reads|done].
  - exists (_simple_scorer_update score).
    split; [apply simple_scorer_update_reads|done].
  - exists (_complementary_belief fmt).
    split; [apply complementary_belief_reads|done].
Qed.

(** X7: on a graph without edges [_update_edge_belief] returns the graph
    as it is whatever the strategy, and never calls it; on a graph with an
    edge a strategy given by a name other than the empty string and
    ['complementary_belief'] raises [TypeError] at the first edge, since a
    string is not callable. *)
Theorem update_edge_belief_no_edges fmt score {G} `{NxGraph G} (g : G) :
  (nx_edges g = [] →
   ∀ method, _update_edge_belief fmt score g method = ret g)
  ∧ (nx_edges g ≠ [] →
     ∀ name, name ≠ "" → name ≠ "complementary_belief" →
       _update_edge_belief fmt score g (MethodStr name) = raise TypeError).
Proof.
  split.
  - intros Hnil method.
    destruct (update_edge_belief_update_with fmt score g method) as [f ->].
    unfold update_with. by rewrite Hnil.
  - intros Hne name Hname Hname'. unfold _update_edge_belief, update_with.
    rewrite !decide_False by done.
    by destruct (nx_edges g).
Qed.

(** A strategy name that is not known fails on a graph with an edge and
    goes unnoticed on the empty graph. *)
Example update_edge_belief_unknown_name :
  _update_edge_belief x87_extended example_scorer two_edge_graph
    (MethodStr "max") = raise TypeError
  ∧ _update_edge_belief x87_extended example_scorer
      (@dg_empty FlatAttrs) (MethodStr "max") = ret dg_empty.
Proof. split; vm_compute; reflexivity. Qed.

(** *** The edge data of the directed flattening *)

Lemma unsigned_put adj u v fa :
  unsigned adj → sign fa = None → unsigned (adj_put adj u v fa).
Proof.
  intros Hun Hfa u' v' fa'. rewrite adj_get_put.
  case_decide; [by intros [= <-]|apply Hun].
Qed.

Lemma to_digraph_step_unsigned (g g' : DiGraph FlatAttrs) u v data l :
  to_digraph_step g (u, v, data) = (l, inr g') →
  unsigned (dg_adj g) → unsigned (dg_adj g').
Proof.
  unfold to_digraph_step.
  intros (l1 & present & l2 & Hhas & Hstep & ->)%bind_inr Hun.
  destruct present.
  - destruct (dg_edge_data g (u, v)) as [fa|] eqn:Hfa; [|done].
    injection Hstep as <- <-.
    apply (unsigned_put (dg_adj g) u v); [done|]. exact (Hun u v fa Hfa).
  - apply dg_add_edge_inr in Hstep as (adj & Hget & _ & ->).
    apply unsigned_put.
    + intros u' v' fa'. rewrite Hget. apply Hun.
    + destruct (adj_get adj u v) as [fa|] eqn:Hfa; [|done].
      rewrite Hget in Hfa. cbn. by rewrite (Hun _ _ _ Hfa).
Qed.

Lemma to_digraph_loop_unsigned edges (g g' : DiGraph FlatAttrs) l :
  foldM to_digraph_step g edges = (l, inr g') →
  unsigned (dg_adj g) → unsigned (dg_adj g').
Proof.
  revert g l. induction edges as [|[[u v] data] edges IH]; intros g l.
  - by intros [= <- <-].
  - cbn [foldM]. intros (l1 & g1 & l2 & Hstep & Hrest & ->)%bind_inr Hun.
    eapply IH; [done|]. by eapply to_digraph_step_unsigned.
Qed.

Lemma silent_to_digraph_loop edges (g : DiGraph FlatAttrs) :
  silent (foldM to_digraph_step g edges).
Proof.
  apply silent_foldM. intros g' [[u v] data].
  unfold to_digraph_step, dg_has_edge, dg_add_edge.
  repeat first
    [ apply silent_ret | apply silent_raise | apply silent_check_hashable
    | apply silent_bind; [|intros ?] | case_match ].
Qed.

(** The graph the loop of [to_digraph] builds. *)
Lemma to_digraph_loop_data (self : IndraNet) (g1 : DiGraph FlatAttrs) l :
  foldM to_digraph_step dg_empty (mg_edges_data self) = (l, inr g1) →
  l = [] ∧ dg_wf g1
  ∧ ∀ u v fa, dg_edge_data g1 (u, v) = Some fa →
      statements fa = raw_edges_between self u v ∧ sign fa = None.
Proof.
  intros Hloop.
  destruct (to_digraph_loop_inr _ _ _ _ Hloop flat_inv_empty) as [Hinv Hst].
  assert (unsigned (dg_adj g1)) as Hun.
  { eapply to_digraph_loop_unsigned; [done|]. by intros u v fa. }
  pose proof (silent_to_digraph_loop (mg_edges_data self) dg_empty) as Hs.
  unfold silent in Hs. rewrite Hloop in Hs.
  split_and!; [done|apply Hinv|].
  intros u v fa Hfa. split; [|by eapply Hun].
  specialize (Hst u v). unfold statements_at in Hst. by rewrite Hfa in Hst.
Qed.

Lemma to_digraph_flat_edges fmt score (self : IndraNet)
    (method : flattening_method (DiGraph FlatAttrs))
    (logs : list log_record) (G : DiGraph FlatAttrs) :
  to_digraph fmt score self method = (logs, inr G) →
  NoDup (dg_edges G)
  ∧ (∀ u v, (u, v) ∈ dg_edges G ↔ raw_edges_between self u v ≠ [])
  ∧ ∀ u v, (u, v) ∈ dg_edges G →
      ∃ b, dg_edge_data G (u, v)
           = Some (flat_edge (raw_edges_between self u v) b).
Proof.
  unfold to_digraph.
  intros (l1 & g1 & l2 & Hloop & Hupd & ->)%bind_inr.
  destruct (to_digraph_loop_data _ _ _ Hloop) as (-> & Hwf & Hdata).
  destruct (to_digraph_loop_inr _ _ _ _ Hloop flat_inv_empty) as [Hinv1 Hst1].
  destruct (update_edge_belief_dg _ _ _ _ _ _ Hupd Hinv1) as [Hinv Hst].
  destruct (update_edge_belief_update_with fmt score g1 method) as [f Hf].
  rewrite Hf in Hupd.
  destruct (update_loop_any dg_wf f _ _ _ _ Hupd Hwf
              (nx_edges_NoDup g1 Hwf)) as (Hwf' & Hedges & _ & Hin).
  split_and!; [exact (nx_edges_NoDup G Hwf')|..].
  - intros u v. rewrite (dg_edges_elem G u v (proj1 Hinv)).
    assert (statements_at G u v = raw_edges_between self u v) as Heq
      by (by rewrite Hst, Hst1).
    rewrite <- Heq. unfold statements_at. split.
    + intros [fa Hfa]. rewrite Hfa. cbn. by eapply (proj2 Hinv).
    + destruct (dg_edge_data G (u, v)); [eauto|done].
  - intros u v Huv.
    assert ((u, v) ∈ nx_edges g1) as Huv1 by (by rewrite <- Hedges).
    destruct (Hin _ Huv1) as [b Hb]. exists b.
    apply (nx_edges_data g1 _ Hwf) in Huv1 as [fa Hfa].
    destruct (Hdata u v fa Hfa) as [Hst' Hsign].
    etrans; [exact Hb|].
    etrans; [exact (f_equal (fmap (set_belief b)) Hfa)|].
    cbn. unfold set_belief, flat_edge. by rewrite Hst', Hsign.
Qed.

(** *** The values the strategy returns *)

Lemma update_edge_belief_strategy fmt score {G} `{NxGraph G} (g : G) method :
  _update_edge_belief fmt score g method
  = update_with (strategy_of fmt score method) g.
Proof.
  unfold _update_edge_belief, strategy_of.
  destruct method as [|name|f]; by repeat case_decide.
Qed.

Section returned.
Context {G : Type} `{NxGraph G} `{EqDecision (@edge_id G _)}.
Context (wf : G → Prop) `{!NxGraphLaws G wf}.

(** The loop of [_update_edge_belief] stores on the [i]-th edge the value
    the [i]-th call of the strategy returned. *)
Lemma update_loop_returned (f : G → edge_id → M longfloat) es (gc g' : G) l :
  foldM (λ g e, b <- f g e ;; ret (nx_set_belief g e b)) gc es
  = (l, inr g') →
  wf gc → NoDup es →
  ∃ bs, returned_beliefs f gc es = (l, inr bs)
        ∧ length bs = length es
        ∧ ∀ i e b, es !! i = Some e → bs !! i = Some b →
            nx_edge_data g' e = set_belief b <$> nx_edge_data gc e.
Proof using Type*.
  revert gc l. induction es as [|e0 es IH]; intros gc l.
  - intros [= <- <-] Hwf _. exists []. split_and!; done.
  - cbn [foldM]. intros (l1 & g1 & l2 & Hstep & Hrest & ->)%bind_inr Hwf.
    intros [Hnotin Hnodup]%NoDup_cons.
    apply bind_inr in Hstep as (l3 & b & l4 & Hcall & [= <- <-] & ->).
    pose proof (nx_set_belief_wf gc e0 b Hwf) as Hwf1.
    destruct (IH _ _ Hrest Hwf1 Hnodup) as (bs & Hbs & Hlen & Hin).
    destruct (update_loop_any wf f _ _ _ _ Hrest Hwf1 Hnodup)
      as (_ & _ & Hout & _).
    exists (b :: bs). split_and!.
    + cbn [returned_beliefs]. rewrite Hcall. cbn [bind]. rewrite Hbs.
      cbn. by rewrite !app_nil_r.
    + cbn. by rewrite Hlen.
    + intros [|i] e b'; cbn.
      * intros [= <-] [= <-].
        rewrite (Hout e0 Hnotin), nx_set_belief_data by done.
        by rewrite decide_True.
      * intros Hi Hb. rewrite (Hin i e b' Hi Hb).
        rewrite nx_set_belief_data by done.
        rewrite decide_False; [done|]. intros ->.
        apply Hnotin. by eapply list_elem_of_lookup_2.
Qed.
End returned.

(** X8: whatever the strategy, when [to_digraph] returns, the flattened
    graph has an edge [(u, v)], listed once in its edge view, exactly when
    there is a raw edge from [u] to [v].  The data of the [i]-th edge
    consists of the raw edges between its ends as its statements, no sign,
    and for its belief the value the [i]-th call of the strategy returned,
    the calls being made on the grouped graph in the order of the edge view,
    each after the values of the earlier calls are stored; the log of
    [to_digraph] is the log of these calls. *)
Theorem to_digraph_edge_data fmt score (self : IndraNet)
    (method : flattening_method (DiGraph FlatAttrs))
    (logs : list log_record) (G : DiGraph FlatAttrs) :
  to_digraph fmt score self method = (logs, inr G) →
  NoDup (dg_edges G)
  ∧ (∀ u v, (u, v) ∈ dg_edges G ↔ raw_edges_between self u v ≠ [])
  ∧ ∃ g1 bs,
      grouped_digraph self = ret g1
      ∧ returned_beliefs (strategy_of fmt score method) g1 (dg_edges G)
        = (logs, inr bs)
      ∧ length bs = length (dg_edges G)
      ∧ ∀ i e b, dg_edges G !! i = Some e → bs !! i = Some b →
          dg_edge_data G e
          = Some (flat_edge (raw_edges_between self e.1 e.2) b).
Proof.
  intros Hto.
  destruct (to_digraph_flat_edges _ _ _ _ _ _ Hto) as (Hnd & Hiff & _).
  split_and!; [done..|].
  unfold to_digraph in Hto.
  apply bind_inr in Hto as (l1 & g1 & l2 & Hloop & Hupd & ->).
  destruct (to_digraph_loop_data _ _ _ Hloop) as (-> & Hwf & Hdata).
  rewrite update_edge_belief_strategy in Hupd.
  destruct (update_loop_any dg_wf _ _ _ _ _ Hupd Hwf
              (nx_edges_NoDup g1 Hwf)) as (_ & Hedges & _ & _).
  destruct (update_loop_returned dg_wf _ _ _ _ _ Hupd Hwf
              (nx_edges_NoDup g1 Hwf)) as (bs & Hbs & Hlen & Hin).
  exists g1, bs.
  change (dg_edges G) with (nx_edges G). rewrite Hedges.
  split_and!; [done..|].
  intros i [u v] b Hi Hb.
  etrans; [exact (Hin i (u, v) b Hi Hb)|].
  assert ((u, v) ∈ nx_edges g1) as Hel by (by eapply list_elem_of_lookup_2).
  apply (nx_edges_data g1 _ Hwf) in Hel as [fa Hfa].
  etrans; [exact (f_equal (fmap (set_belief b)) Hfa)|].
  cbn. unfold set_belief, flat_edge.
  by destruct (Hdata u v fa Hfa) as [-> ->].
Qed.

Lemma to_digraph_edge_data_witness :
  NoDup (dg_edges scenario_digraph)
  ∧ (∀ u v, (u, v) ∈ dg_edges scenario_digraph
            ↔ raw_edges_between scenario_net u v ≠ [])
  ∧ ∃ g1 bs,
      grouped_digraph scenario_net = ret g1
      ∧ returned_beliefs
          (strategy_of x87_extended example_scorer
             (MethodStr "complementary_belief"))
          g1 (dg_edges scenario_digraph)
        = ([], inr bs)
      ∧ length bs = length (dg_edges scenario_digraph)
      ∧ ∀ i e b, dg_edges scenario_digraph !! i = Some e →
          bs !! i = Some b →
          dg_edge_data scenario_digraph e
          = Some (flat_edge (raw_edges_between scenario_net e.1 e.2) b).
Proof.
  apply (to_digraph_edge_data x87_extended example_scorer scenario_net
           (MethodStr "complementary_belief") [] scenario_digraph).
  vm_compute. reflexivity.
Defined.

(** X9: with a built-in strategy [S], when [to_digraph] returns, the
    beliefs of the flattened edges are the results of [S] on the raw edges
    of each pair, computed edge by edge in the order of the edge view, and
    the log of [to_digraph] is the log of these computations. *)
Theorem to_digraph_builtin fmt score (self : IndraNet)
    (method : flattening_method (DiGraph FlatAttrs))
    (S : list attrs → M longfloat)
    (logs : list log_record) (G : DiGraph FlatAttrs) :
  builtin_strategy fmt score method S →
  to_digraph fmt score self method = (logs, inr G) →
  ∃ bs, mapM (λ e, S (raw_edges_between self e.1 e.2)) (dg_edges G)
        = (logs, inr bs)
        ∧ ∀ i e b, dg_edges G !! i = Some e → bs !! i = Some b →
            dg_edge_data G e
            = Some (flat_edge (raw_edges_between self e.1 e.2) b).
Proof.
  intros Hbuiltin. unfold to_digraph.
  intros (l1 & g1 & l2 & Hloop & Hupd & ->)%bind_inr.
  destruct (to_digraph_loop_data _ _ _ Hloop) as (-> & Hwf & Hdata).
  destruct (update_edge_belief_builtin_with fmt score g1 method S Hbuiltin)
    as (f & Hreads & Hf).
  rewrite Hf in Hupd.
  destruct (update_with_reads_inr dg_wf f S g1 G l2 Hreads Hwf Hupd)
    as (bs & Hmap & _ & Hedges & Hin).
  assert (mapM (λ e, S (from_option statements [] (nx_edge_data g1 e)))
               (nx_edges g1)
          = mapM (λ e, S (raw_edges_between self e.1 e.2)) (dg_edges G))
    as Hext.
  { change (dg_edges G) with (nx_edges G). rewrite Hedges.
    apply mapM_ext_in. intros [u v] Hel.
    apply (nx_edges_data g1 _ Hwf) in Hel as [fa Hfa].
    rewrite Hfa. cbn. by destruct (Hdata u v fa Hfa) as [-> _]. }
  exists bs. split; [by rewrite <- Hext|].
  intros i [u v] b Hi Hb.
  assert (nx_edges g1 !! i = Some (u, v)) as Hi1 by (by rewrite <- Hedges).
  etrans; [exact (Hin i (u, v) b Hi1 Hb)|].
  assert ((u, v) ∈ nx_edges g1) as Hel by (by eapply list_elem_of_lookup_2).
  apply (nx_edges_data g1 _ Hwf) in Hel as [fa Hfa].
  etrans; [exact (f_equal (fmap (set_belief b)) Hfa)|].
  cbn. unfold set_belief, flat_edge.
  by destruct (Hdata u v fa Hfa) as [-> ->].
Qed.

Lemma to_digraph_builtin_witness :
  ∃ bs, mapM (λ e, complementary_of x87_extended
                     (raw_edges_between scenario_net e.1 e.2))
          (dg_edges scenario_digraph)
        = ([], inr bs)
        ∧ ∀ i e b, dg_edges scenario_digraph !! i = Some e →
            bs !! i = Some b →
            dg_edge_data scenario_digraph e
            = Some (flat_edge (raw_edges_between scenario_net e.1 e.2) b).
Proof.
  apply (to_digraph_builtin x87_extended example_scorer scenario_net
           (MethodStr "complementary_belief")).
  - constructor.
  - vm_compute. reflexivity.
Defined.

(** X10: when a built-in strategy raises an exception at some edge,
    [_update_edge_belief] raises that exception, with the log of the edges
    before it; no graph is returned. *)
Theorem update_edge_belief_raises fmt score (g : DiGraph FlatAttrs)
    (method : flattening_method (DiGraph FlatAttrs))
    (S : list attrs → M longfloat) (logs : list log_record) (err : exn) :
  dg_wf g →
  builtin_strategy fmt score method S →
  mapM (λ e, S (statements_at g e.1 e.2)) (dg_edges g) = (logs, inl err) →
  _update_edge_belief fmt score g method = (logs, inl err).
Proof.
  intros Hwf Hbuiltin Hmap.
  destruct (update_edge_belief_builtin_with fmt score g method S Hbuiltin)
    as (f & Hreads & ->).
  apply (update_with_reads_inl dg_wf f S g logs err Hreads Hwf).
  etrans; [|exact Hmap]. apply mapM_ext_in. by intros [u v] _.
Qed.

Lemma update_edge_belief_raises_witness :
  dg_wf two_edge_graph
  ∧ _update_edge_belief x87_extended example_scorer two_edge_graph
      (MethodStr "complementary_belief")
    = ([], inl KeyError).
Proof.
  assert (dg_wf two_edge_graph) as Hwf.
  { unfold dg_wf, adj_wf. cbn. split.
    - apply (bool_decide_unpack _). vm_compute. exact I.
    - intros u nbrs Hin.
      repeat (apply elem_of_cons in Hin as [[= -> ->]|Hin];
              [apply (bool_decide_unpack _); vm_compute; exact I|]).
      by apply elem_of_nil in Hin. }
  split; [exact Hwf|].
  apply (update_edge_belief_raises x87_extended example_scorer
           two_edge_graph (MethodStr "complementary_belief")
           (complementary_of x87_extended) [] KeyError Hwf).
  - constructor.
  - vm_compute. reflexivity.
Defined.

(** ** The simple scorer *)

Lemma expand_source_counts_dict (s : attrs) d :
  s !! "source_counts" = Some (VDict d) →
  expand_source_counts s = ret ('(k, v) ← d; replicate (Z.to_nat v) k).
Proof. intros Hs. unfold expand_source_counts, getitem. by rewrite Hs. Qed.

Lemma mapM_expand_source_counts (stmts : list attrs) ds :
  source_counts_of stmts = Some ∘ VDict <$> ds →
  mapM expand_source_counts stmts
  = ret ((λ d : list (string * Z), '(k, v) ← d; replicate (Z.to_nat v) k)
           <$> ds).
Proof.
  revert ds. induction stmts as [|s stmts IH]; intros [|d ds]; try done.
  intros [= Hs Hrest]. rewrite mapM_cons.
  rewrite (expand_source_counts_dict s d Hs), bind_ret_l.
  by rewrite (IH ds Hrest), bind_ret_l.
Qed.

Lemma count_replicate (k k' : string) n :
  length (filter (λ x, x = k) (replicate n k'))
  = if decide (k' = k) then n else O.
Proof.
  case_decide as Hk.
  - subst k'. induction n as [|n IH]; cbn [replicate]; [done|].
    rewrite filter_cons_True by done. cbn. by rewrite IH.
  - induction n as [|n IH]; cbn [replicate]; [done|].
    by rewrite filter_cons_False.
Qed.

Lemma count_expansion (k : string) (d : list (string * Z)) :
  length (filter (λ x, x = k) ('(k', v) ← d; replicate (Z.to_nat v) k'))
  = sum_list ((λ kv : string * Z,
                 if decide (kv.1 = k) then Z.to_nat kv.2 else O) <$> d).
Proof.
  induction d as [|[k' v] d IH]; [done|]. csimpl.
  rewrite filter_app, length_app, count_replicate, IH. done.
Qed.

Lemma length_expansion (d : list (string * Z)) :
  length ('(k', v) ← d; replicate (Z.to_nat v) k')
  = sum_list ((λ kv : string * Z, Z.to_nat kv.2) <$> d).
Proof.
  induction d as [|[k' v] d IH]; [done|]. csimpl.
  by rewrite length_app, length_replicate, IH.
Qed.

Lemma sum_list_fmap_app {A} (f : A → nat) l1 l2 :
  sum_list (f <$> l1 ++ l2) = sum_list (f <$> l1) + sum_list (f <$> l2).
Proof. induction l1 as [|a l1 IH]; csimpl; [done|]. rewrite IH. lia. Qed.

(** X11: when every grouped statement of an edge has a dictionary of
    source counts, [_simple_scorer_update] calls the scorer once, on a list
    of evidences in which each source occurs as many times as its counts
    add up to over all the statements; a count that is zero or negative
    adds no evidence. *)
Theorem simple_scorer_update_evidence score {G} `{NxGraph G}
    (g : G) (edge : edge_id) (fa : FlatAttrs)
    (ds : list (list (string * Z))) :
  nx_edge_data g edge = Some fa →
  source_counts_of (statements fa) = Some ∘ VDict <$> ds →
  ∃ evidence,
    _simple_scorer_update score g edge = score evidence
    ∧ length evidence = evidence_total ds
    ∧ ∀ k, length (filter (λ x, x = k) evidence) = source_total k ds.
Proof.
  intros Hfa Hds.
  exists (concat ((λ d : list (string * Z),
                     '(k, v) ← d; replicate (Z.to_nat v) k) <$> ds)).
  split_and!.
  - unfold _simple_scorer_update, edge_statements. rewrite Hfa, bind_ret_l.
    by rewrite (mapM_expand_source_counts _ ds Hds), bind_ret_l.
  - unfold evidence_total. clear Hds.
    induction ds as [|d ds IH]; [done|]. csimpl.
    by rewrite length_app, length_expansion, IH, sum_list_fmap_app.
  - intros k. unfold source_total. clear Hds.
    induction ds as [|d ds IH]; [done|]. csimpl.
    by rewrite filter_app, length_app, count_expansion, IH, sum_list_fmap_app.
Qed.

Lemma simple_scorer_update_evidence_witness :
  ∃ evidence,
    _simple_scorer_update counting_scorer counted_graph edge_AB
    = counting_scorer evidence
    ∧ length evidence
      = evidence_total [[("reach", 2%Z); ("sparser", 0%Z)];
                        [("signor", 1%Z); ("reach", (-1)%Z)]]
    ∧ ∀ k, length (filter (λ x, x = k) evidence)
           = source_total k [[("reach", 2%Z); ("sparser", 0%Z)];
                             [("signor", 1%Z); ("reach", (-1)%Z)]].
Proof.
  eapply (simple_scorer_update_evidence counting_scorer counted_graph
            edge_AB); reflexivity.
Defined.

Lemma mapM_app_raise {A B} (f : A → M B) pre a post bs e :
  mapM f pre = ret bs → f a = raise e →
  mapM f (pre ++ a :: post) = raise e.
Proof.
  revert bs. induction pre as [|a0 pre IH]; intros bs.
  - intros _ Ha. cbn [app]. by rewrite mapM_cons, Ha.
  - rewrite mapM_cons. intros Hpre Ha. cbn [app]. rewrite mapM_cons.
    destruct (f a0) as [l0 [e0|b0]]; [done|].
    cbn [bind] in Hpre |- *.
    destruct (mapM f pre) as [l1 [e1|bs1]] eqn:Hrest; [done|].
    cbn in Hpre. injection Hpre as Hl _.
    apply app_eq_nil in Hl as [-> Hl]. apply app_eq_nil in Hl as [-> _].
    by rewrite (IH bs1 eq_refl Ha).
Qed.

(** X12: [_simple_scorer_update] raises [KeyError] for an edge that is
    not in the graph and for the first grouped statement without
    [source_counts], and [AttributeError] when that entry is not a
    dictionary; in these cases the scorer is not called. *)
Theorem simple_scorer_update_errors score {G} `{NxGraph G}
    (g : G) (edge : edge_id) :
  (nx_edge_data g edge = None →
   _simple_scorer_update score g edge = raise KeyError)
  ∧ ∀ fa pre s post ds,
      nx_edge_data g edge = Some fa →
      statements fa = pre ++ s :: post →
      source_counts_of pre = Some ∘ VDict <$> ds →
      (s !! "source_counts" = None →
       _simple_scorer_update score g edge = raise KeyError)
      ∧ (∀ v, s !! "source_counts" = Some v → (∀ d, v ≠ VDict d) →
              _simple_scorer_update score g edge = raise AttributeError).
Proof.
  split.
  - intros Hnone. unfold _simple_scorer_update, edge_statements.
    by rewrite Hnone.
  - intros fa pre s post ds Hfa Hst Hpre.
    apply mapM_expand_source_counts in Hpre.
    split.
    + intros Hs. unfold _simple_scorer_update, edge_statements.
      rewrite Hfa, bind_ret_l, Hst.
      erewrite mapM_app_raise; [done|exact Hpre|].
      unfold expand_source_counts, getitem. by rewrite Hs.
    + intros v Hs Hv. unfold _simple_scorer_update, edge_statements.
      rewrite Hfa, bind_ret_l, Hst.
      erewrite mapM_app_raise; [done|exact Hpre|].
      unfold expand_source_counts, getitem. rewrite Hs, bind_ret_l.
      destruct v; try done. by destruct (Hv d).
Qed.

(** A grouped statement without source counts, and one whose source
    counts are [None]. *)
Example simple_scorer_update_bad_counts :
  _simple_scorer_update example_scorer two_edge_graph edge_AB
  = raise KeyError
  ∧ _simple_scorer_update example_scorer
      {| dg_node := [(VStr "A", ∅); (VStr "B", ∅)];
         dg_adj := [(VStr "A",
                     [(VStr "B", {| statements := [{[ "source_counts" := VNone ]}];
                                    sign := None; belief := None |})]);
                    (VStr "B", [])] |}
      edge_AB
    = raise AttributeError.
Proof. split; vm_compute; reflexivity. Qed.

(** ** More on the complementary belief *)

Lemma read_beliefs_inr (stmts : list attrs) l (belief_list : list value) :
  mapM (λ s, getitem s "belief") stmts = (l, inr belief_list) →
  l = [] ∧ beliefs_of stmts = Some <$> belief_list.
Proof.
  revert l belief_list. induction stmts as [|s stmts IH]; intros l bl.
  - by intros [= <- <-].
  - rewrite mapM_cons.
    intros (l1 & b & l2 & Hs & Hrest & ->)%bind_inr.
    apply bind_inr in Hrest as (l3 & bs & l4 & Hrest & [= <- <-] & ->).
    destruct (IH _ _ Hrest) as [-> Hbs].
    unfold getitem in Hs. destruct (s !! "belief") as [b'|] eqn:Hb; [|done].
    injection Hs as <- <-. split; [done|]. csimpl. by rewrite Hb, Hbs.
Qed.

Lemma mapM_inr_elem {A B} (f : A → M B) l logs bs a :
  mapM f l = (logs, inr bs) → a ∈ l →
  ∃ l' b, f a = (l', inr b) ∧ b ∈ bs.
Proof.
  revert logs bs. induction l as [|a0 l IH]; intros logs bs.
  - by intros _ ?%elem_of_nil.
  - rewrite mapM_cons.
    intros (l1 & b & l2 & Ha0 & Hrest & ->)%bind_inr.
    apply bind_inr in Hrest as (l3 & bs' & l4 & Hrest & [= <- <-] & ->).
    intros [->|Hin]%elem_of_cons.
    + exists l1, b. split; [done|]. by left.
    + destruct (IH _ _ Hrest Hin) as (l' & b' & Hb' & Hin').
      exists l', b'. split; [done|]. by right.
Qed.

Lemma lf_mul_nan_l fmt y : lf_mul fmt LNaN y = ret LNaN.
Proof. done. Qed.

Lemma lf_mul_nan_r fmt x : lf_mul fmt x LNaN = ret LNaN.
Proof. by destruct x. Qed.

Lemma foldM_mul_nan fmt rest : foldM (lf_mul fmt) LNaN rest = ret LNaN.
Proof.
  induction rest as [|y rest IH]; [done|].
  cbn [foldM]. by rewrite lf_mul_nan_l, bind_ret_l.
Qed.

Lemma foldM_mul_has_nan fmt x rest l r :
  LNaN ∈ rest → foldM (lf_mul fmt) x rest = (l, inr r) → r = LNaN.
Proof.
  revert x l. induction rest as [|y rest IH]; intros x l.
  - by intros ?%elem_of_nil.
  - cbn [foldM]. intros [<-|Hin]%elem_of_cons.
    + rewrite lf_mul_nan_r, bind_ret_l, foldM_mul_nan. by intros [= _ <-].
    + intros (l1 & x' & l2 & _ & Hrest & _)%bind_inr. by eapply IH.
Qed.

Lemma np_prod_has_nan fmt terms l r :
  LNaN ∈ terms → np_prod fmt terms = (l, inr r) → r = LNaN.
Proof.
  destruct terms as [|x rest]; [by intros ?%elem_of_nil|].
  cbn [np_prod]. intros [<-|Hin]%elem_of_cons.
  - rewrite foldM_mul_nan. by intros [= _ <-].
  - by apply foldM_mul_has_nan.
Qed.

Lemma complement_product_nan fmt belief_list l r :
  VNaN ∈ belief_list →
  complement_product fmt belief_list = (l, inr r) → r = LNaN.
Proof.
  intros Hnan. unfold complement_product.
  intros (l1 & terms & l2 & Hterms & Hrest & ->)%bind_inr.
  apply bind_inr in Hrest as (l3 & p & l4 & Hprod & Hsub & ->).
  destruct (mapM_inr_elem _ _ _ _ _ Hterms Hnan) as (l' & t & Ht & Hin).
  injection Ht as <- <-.
  apply (np_prod_has_nan fmt terms l3 p Hin) in Hprod as ->.
  by injection Hsub as _ <-.
Qed.

(** X13: a NaN among the beliefs of the grouped statements is not an
    error.  When [_complementary_belief] returns for such an edge, its
    result is NaN and nothing is logged, unless a floating-point error
    occurred before the NaN was met, in which case it is the fallback value
    with its warning; it is never another number. *)
Theorem complementary_belief_nan fmt {G} `{NxGraph G}
    (g : G) (edge : edge_id) (fa : FlatAttrs)
    (logs : list log_record) (r : longfloat) :
  nx_edge_data g edge = Some fa →
  Some VNaN ∈ beliefs_of (statements fa) →
  _complementary_belief fmt g edge = (logs, inr r) →
  (logs = [] ∧ r = LNaN)
  ∨ (∃ err, logs = [WarnResetBelief err (fallback_belief fmt)]
            ∧ r = LNum (fallback_belief fmt)).
Proof.
  intros Hfa Hnan. unfold _complementary_belief, edge_statements.
  rewrite Hfa, bind_ret_l.
  intros (l1 & bl & l2 & Hread & Hagg & ->)%bind_inr.
  apply read_beliefs_inr in Hread as [-> Hbl].
  rewrite Hbl in Hnan.
  apply list_elem_of_fmap in Hnan as (b & [= <-] & Hnan).
  cbn [app]. unfold aggregate_beliefs in Hagg.
  pose proof (silent_complement_product fmt bl) as Hs. unfold silent in Hs.
  destruct (complement_product fmt bl) as [l [e|x]] eqn:Hprod;
    cbn [fst] in Hs; subst l.
  - destruct e as [err| | | |]; try done.
    right. exists err. cbn in Hagg. by injection Hagg as <- <-.
  - left. cbn in Hagg. injection Hagg as <- <-.
    split; [done|]. by eapply complement_product_nan.
Qed.

Lemma complementary_belief_nan_witness :
  ([] : list log_record) = [] ∧ LNaN = LNaN
  ∨ (∃ err, [] = [WarnResetBelief err (fallback_belief x87_extended)]
            ∧ LNaN = LNum (fallback_belief x87_extended)).
Proof.
  apply (complementary_belief_nan x87_extended nan_graph edge_AB
           {| statements := [stmt_with_belief (Q2Qc (1 # 2));
                             {[ "belief" := VNaN ]}];
              sign := None; belief := None |}).
  - reflexivity.
  - apply list_elem_of_lookup_2 with 1%nat. reflexivity.
  - vm_compute. reflexivity.
Defined.

Lemma prob_or_unit (bs : list Qc) :
  Forall (λ b, 0 ≤ b ≤ 1)%Qc bs → (0 ≤ prob_or bs ≤ 1)%Qc.
Proof.
  intros Hbs. unfold prob_or.
  destruct (complements_product_unit bs Hbs) as [Hlo Hhi].
  revert Hlo Hhi. generalize (foldr (λ b acc, (1 - b) * acc)%Qc 1%Qc bs).
  intros p Hlo Hhi. split; Qc_to_Q; lra.
Qed.

Lemma prob_or_cons_le (b : Qc) (bs : list Qc) :
  (0 ≤ b ≤ 1)%Qc → Forall (λ b, 0 ≤ b ≤ 1)%Qc bs →
  (prob_or bs ≤ prob_or (b :: bs))%Qc.
Proof.
  intros Hb Hbs. unfold prob_or. cbn [foldr].
  pose proof (Qc_complement_unit b Hb) as Hc.
  pose proof (complements_product_unit bs Hbs) as Hp.
  destruct (Qc_mult_unit _ _ Hc Hp) as [_ Hle].
  revert Hle.
  generalize (foldr (λ b acc, (1 - b) * acc)%Qc 1%Qc bs) ((1 - b)%Qc).
  intros p c Hle. revert Hle. generalize (c * p)%Qc. intros q Hle.
  Qc_to_Q; lra.
Qed.

(** X14: over exact arithmetic, with beliefs between 0 and 1 and when
    neither computation raises a floating-point error, the complementary
    belief of an edge lies between 0 and 1, and an edge that groups one
    more statement than another, with the same other beliefs, has a
    complementary belief at least as large. *)
Theorem complementary_belief_monotone fmt {G} `{NxGraph G}
    (g : G) (e1 e2 : edge_id) (fa1 fa2 : FlatAttrs) (b : Qc) (bs : list Qc) :
  nx_edge_data g e1 = Some fa1 →
  nx_edge_data g e2 = Some fa2 →
  beliefs_of (statements fa1) = Some <$> (VFloat <$> bs) →
  beliefs_of (statements fa2) = Some <$> (VFloat <$> b :: bs) →
  Forall (λ b, 0 ≤ b ≤ 1)%Qc (b :: bs) →
  arithmetic_failure fmt (VFloat <$> bs) = None →
  arithmetic_failure fmt (VFloat <$> b :: bs) = None →
  ∃ r1 r2,
    _complementary_belief fmt g e1 = ret (LNum r1)
    ∧ _complementary_belief fmt g e2 = ret (LNum r2)
    ∧ (0 ≤ r1 ≤ r2)%Qc ∧ (r2 ≤ 1)%Qc.
Proof.
  intros Hfa1 Hfa2 Hbs1 Hbs2 Hunit Hok1 Hok2.
  exists (prob_or bs), (prob_or (b :: bs)).
  apply Forall_cons in Hunit as [Hb Hbs].
  split_and!.
  - by eapply complementary_belief_exact.
  - by eapply (complementary_belief_exact fmt g e2 fa2 (b :: bs)).
  - by apply prob_or_unit.
  - by apply prob_or_cons_le.
  - apply (prob_or_unit (b :: bs)). by apply Forall_cons.
Qed.

Lemma complementary_belief_monotone_witness :
  ∃ r1 r2,
    _complementary_belief x87_extended nested_graph edge_AB = ret (LNum r1)
    ∧ _complementary_belief x87_extended nested_graph edge_AC
      = ret (LNum r2)
    ∧ (0 ≤ r1 ≤ r2)%Qc ∧ (r2 ≤ 1)%Qc.
Proof.
  apply (complementary_belief_monotone x87_extended nested_graph
           edge_AB edge_AC
           {| statements := stmt_with_belief <$> [Q2Qc (8 # 10)];
              sign := None; belief := None |}
           {| statements :=
                stmt_with_belief <$> [Q2Qc (9 # 10); Q2Qc (8 # 10)];
              sign := None; belief := None |}
           (Q2Qc (9 # 10)) [Q2Qc (8 # 10)]).
  - reflexivity.
  - reflexivity.
  - vm_compute. reflexivity.
  - vm_compute. reflexivity.
  - repeat constructor; vm_compute; discriminate.
  - vm_compute. reflexivity.
  - vm_compute. reflexivity.
Defined.

(** ** From a table to a flattened graph *)

(** The raw edges of the graph of a valid table. *)
Lemma from_df_raw_edges df :
  valid_table df = true →
  ∃ g, from_df df = (skip_log df, inr g)
       ∧ (∀ u v, raw_edges_between g u v
                 = edge_data df <$> (rows_between df u v).*2)
       ∧ Forall (λ e : value * value * attrs,
                   hashable e.1.1 = true ∧ hashable e.1.2 = true)
           (mg_edges_data g).
Proof.
  intros Hvalid.
  destruct (from_df_valid_wf df Hvalid) as (g & Hrun & Hg & Hinv & Hwf).
  assert (∀ u v, raw_edges_between g u v
                 = edge_data df <$> (rows_between df u v).*2) as Hraw.
  { intros u v. rewrite (raw_edges_between_pair_data g u v Hwf).
    by rewrite Hg, pair_data_foldl. }
  exists g. split_and!; [done..|].
  apply Forall_forall. intros [[u v] data] Hin.
  assert (data ∈ raw_edges_between g u v) as Hd.
  { unfold raw_edges_between. apply list_elem_of_fmap.
    exists (u, v, data). split; [done|]. by apply mg_edges_data_between. }
  rewrite Hraw in Hd.
  apply list_elem_of_fmap in Hd as (row & _ & Hrow).
  apply list_elem_of_fmap in Hrow as (ir & -> & Hir).
  apply list_elem_of_filter in Hir as [[HA HB] Hir].
  unfold valid_table in Hvalid.
  apply andb_true_iff in Hvalid as [_ Hhash].
  rewrite forallb_forall in Hhash.
  apply list_elem_of_In, Hhash, andb_true_iff in Hir.
  cbn [fst snd]. by rewrite <- HA, <- HB.
Qed.

(** X15: on a valid table [digraph_from_df] fails only if the belief
    strategy fails: it is the belief update of a well-formed flattened
    graph, after the warnings of [from_df] about skipped rows.  When it
    returns, the graph has an edge [(u, v)] exactly when some kept row goes
    from [u] to [v], and the statements of that edge are the edge data of
    those rows, in row order. *)
Theorem digraph_from_df_valid fmt score (df : DataFrame)
    (method : flattening_method (DiGraph FlatAttrs)) :
  valid_table df = true →
  (∃ g1, dg_wf g1
         ∧ digraph_from_df fmt score df method
           = (let '(l, r) := _update_edge_belief fmt score g1 method in
              (skip_log df ++ l, r)))
  ∧ ∀ logs G,
      digraph_from_df fmt score df method = (logs, inr G) →
      (∃ l, logs = skip_log df ++ l)
      ∧ NoDup (dg_edges G)
      ∧ (∀ u v, (u, v) ∈ dg_edges G ↔ rows_between df u v ≠ [])
      ∧ ∀ u v, (u, v) ∈ dg_edges G →
          ∃ b, dg_edge_data G (u, v)
               = Some (flat_edge
                         (edge_data df <$> (rows_between df u v).*2) b).
Proof.
  intros Hvalid.
  destruct (from_df_raw_edges df Hvalid) as (g & Hrun & Hraw & Hhash).
  destruct (to_digraph_loop_total (mg_edges_data g) dg_empty Hhash)
    as [g1 Hloop].
  assert (to_digraph fmt score g method
          = _update_edge_belief fmt score g1 method) as Hflat.
  { unfold to_digraph. by rewrite Hloop, bind_nil_inr. }
  assert (digraph_from_df fmt score df method
          = (let '(l, r) := to_digraph fmt score g method in
             (skip_log df ++ l, r))) as Hdef.
  { unfold digraph_from_df. by rewrite Hrun. }
  split.
  - exists g1. split; [|by rewrite Hdef, Hflat].
    by destruct (to_digraph_loop_data _ _ _ Hloop) as (_ & ? & _).
  - intros logs G. rewrite Hdef.
    destruct (to_digraph fmt score g method) as [l r] eqn:Hto.
    intros [= <- ->]. split; [by exists l|].
    destruct (to_digraph_flat_edges _ _ _ _ _ _ Hto) as (Hnd & Hiff & Hdata).
    split_and!; [done|..].
    + intros u v. rewrite Hiff, Hraw.
      by destruct (rows_between df u v).
    + intros u v Huv. rewrite <- Hraw. by apply Hdata.
Qed.

Lemma digraph_from_df_valid_witness :
  (∃ g1, dg_wf g1
         ∧ digraph_from_df x87_extended example_scorer df_mixed
             (MethodStr "complementary_belief")
           = (let '(l, r) :=
                _update_edge_belief x87_extended example_scorer g1
                  (MethodStr "complementary_belief") in
              (skip_log df_mixed ++ l, r)))
  ∧ ∀ logs G,
      digraph_from_df x87_extended example_scorer df_mixed
        (MethodStr "complementary_belief") = (logs, inr G) →
      (∃ l, logs = skip_log df_mixed ++ l)
      ∧ NoDup (dg_edges G)
      ∧ (∀ u v, (u, v) ∈ dg_edges G ↔ rows_between df_mixed u v ≠ [])
      ∧ ∀ u v, (u, v) ∈ dg_edges G →
          ∃ b, dg_edge_data G (u, v)
               = Some (flat_edge
                         (edge_data df_mixed <$> (rows_between df_mixed u v).*2)
                         b).
Proof.
  apply (digraph_from_df_valid x87_extended example_scorer df_mixed
           (MethodStr "complementary_belief")).
  reflexivity.
Defined.

(** The table with a skipped row logs its two warnings and flattens to
    two edges, one of them from the node NaN. *)
Example digraph_from_df_mixed :
  ∃ G, digraph_from_df x87_extended example_scorer df_mixed
         (MethodStr "complementary_belief")
       = ([WarnNoneNode 2; WarnSkipped 1], inr G)
       ∧ dg_edges G = [(VStr "A", VStr "B"); (VNaN, VStr "B")].
Proof. eexists. split; vm_compute; reflexivity. Qed.

(** ** Signed flattening groups by sign *)

Lemma mg_edge_data_put (sg sg' : MultiDiGraph FlatAttrs) adj u v key X :
  (∀ u' v', adj_get adj u' v' = adj_get (mg_adj sg) u' v') →
  mg_adj sg' = adj_put adj u v (od_set key X (default [] (adj_get adj u v))) →
  ∀ u' v' k,
    mg_edge_data sg' (u', v', k)
    = if decide (u' = u ∧ v' = v ∧ k = key) then Some X
      else mg_edge_data sg (u', v', k).
Proof.
  intros Hget Hadj u' v' k. unfold mg_edge_data, mg_keydict.
  change (adj_get (mg_adj sg') u' v' ≫= od_get k
          = if decide (u' = u ∧ v' = v ∧ k = key) then Some X
            else adj_get (mg_adj sg) u' v' ≫= od_get k).
  rewrite Hadj, adj_get_put.
  destruct (decide (u' = u ∧ v' = v)) as [[-> ->]|Hne].
  - cbn. rewrite od_get_set. destruct (decide (k = key)) as [->|Hk].
    + by rewrite decide_True.
    + rewrite decide_False by naive_solver.
      rewrite Hget. by destruct (adj_get (mg_adj sg) u v).
  - rewrite decide_False by naive_solver. by rewrite Hget.
Qed.

Lemma mg_wf_put (sg sg' : MultiDiGraph FlatAttrs) adj u v key X :
  (∀ u' v', adj_get adj u' v' = adj_get (mg_adj sg) u' v') →
  adj_wf adj →
  mg_adj sg' = adj_put adj u v (od_set key X (default [] (adj_get adj u v))) →
  mg_wf sg → mg_wf sg'.
Proof.
  intros Hget Hwf Hadj [_ Hkeys]. split.
  - rewrite Hadj. by apply adj_wf_put.
  - intros u' v' keydict. rewrite Hadj, adj_get_put. case_decide as Hd.
    + intros [= <-]. apply od_set_NoDup.
      destruct (adj_get adj u v) as [keydict'|] eqn:Hkd; [|constructor].
      rewrite Hget in Hkd. by eapply Hkeys.
    + rewrite Hget. apply Hkeys.
Qed.

(** [has_edge] with a key tells whether that edge has data. *)
Lemma mg_has_edge_key (sg : MultiDiGraph FlatAttrs) u v key l present :
  key ≠ VNone →
  mg_has_edge sg u v key = (l, inr present) →
  present = bool_decide (is_Some (mg_edge_data sg (u, v, key))).
Proof.
  intros Hkey. unfold mg_has_edge.
  assert (mg_edge_data sg (u, v, key)
          = match od_get u (mg_adj sg) with
            | Some nbrs =>
                match od_get v nbrs with
                | Some keydict => od_get key keydict
                | None => None
                end
            | None => None
            end) as ->.
  { unfold mg_edge_data, mg_keydict. by destruct (od_get u (mg_adj sg)). }
  intros [_ Hhas]%bind_check_hashable_inr.
  destruct (od_get u (mg_adj sg)) as [nbrs|].
  - apply bind_check_hashable_inr in Hhas as [_ Hhas].
    rewrite decide_False in Hhas by done.
    destruct (od_get v nbrs) as [keydict|].
    + apply bind_check_hashable_inr in Hhas as [_ [= _ <-]].
      unfold od_mem. destruct (od_get key keydict); symmetry.
      * apply bool_decide_eq_true_2. eauto.
      * apply bool_decide_eq_false_2. by intros [? ?].
    + injection Hhas as _ <-. symmetry.
      apply bool_decide_eq_false_2. by intros [? ?].
  - injection Hhas as _ <-. symmetry.
    apply bool_decide_eq_false_2. by intros [? ?].
Qed.

(** [add_edge] with a key stores the attributes under that key. *)
Lemma mg_add_edge_key (sg sg' : MultiDiGraph FlatAttrs) u v key attr l :
  key ≠ VNone →
  mg_add_edge sg u v key attr = (l, inr sg') →
  ∃ adj,
    (∀ u' v', adj_get adj u' v' = adj_get (mg_adj sg) u' v')
    ∧ (adj_wf (mg_adj sg) → adj_wf adj)
    ∧ mg_adj sg'
      = adj_put adj u v
          (od_set key
             match mg_edge_data sg (u, v, key) with
             | Some datadict => dict_update datadict attr
             | None => attr
             end
             (default [] (adj_get adj u v))).
Proof.
  intros Hkey. unfold mg_add_edge.
  intros [_ [_ Hret]%bind_check_hashable_inr]%bind_check_hashable_inr.
  rewrite decide_False in Hret by done.
  apply bind_check_hashable_inr in Hret as [_ Hret].
  injection Hret as <- <-. cbn [mg_adj].
  set (G := mg_touch v (mg_touch u sg)).
  assert (∀ u' v', adj_get (mg_adj G) u' v' = adj_get (mg_adj sg) u' v')
    as Hget by (intros; unfold G; by rewrite !mg_touch_get).
  exists (mg_adj G). split_and!; [done|intros; by do 2 apply mg_touch_wf|].
  assert (mg_edge_data sg (u, v, key)
          = adj_get (mg_adj G) u v ≫= od_get key) as ->.
  { by rewrite Hget. }
  rewrite od_get_default_nbrs. unfold adj_put.
  destruct (adj_get (mg_adj G) u v) as [keydict|] eqn:Hkd; cbn; [|done].
  by destruct (od_get key keydict).
Qed.

Lemma sign_of_Some sign_dict (data : attrs) stmt_type sgn :
  data !! "stmt_type" = Some stmt_type →
  od_get stmt_type sign_dict = Some sgn →
  sign_of sign_dict data = Some sgn.
Proof. intros Ht Hs. unfold sign_of. by rewrite Ht. Qed.

(** One step of the loop of [to_signed_graph]: a raw edge with a sign is
    appended to the flattened edge keyed by its sign, which is created if
    need be; a raw edge without a sign changes nothing. *)
Lemma to_signed_graph_step_groups sign_dict
    (sg sg' : MultiDiGraph FlatAttrs) u v data l :
  VNone ∉ od_values sign_dict →
  to_signed_graph_step sign_dict sg (u, v, data) = (l, inr sg') →
  signed_flat sg →
  signed_flat sg'
  ∧ ∀ u' v' k,
      signed_statements_at sg' u' v' k
      = signed_statements_at sg u' v' k ++
        (if decide (u' = u ∧ v' = v ∧ sign_of sign_dict data = Some k)
         then [data] else []).
Proof.
  intros Hnone Hstep [Hwf Hflat]. unfold to_signed_graph_step in Hstep.
  apply bind_inr in Hstep as (l1 & stmt_type & l2 & Htype & Hstep & ->).
  apply getitem_inr in Htype.
  apply bind_check_hashable_inr in Hstep as [_ Hstep].
  destruct (od_get stmt_type sign_dict) as [sgn|] eqn:Hsgn.
  2:{ injection Hstep as _ <-. split; [done|]. intros u' v' k.
      rewrite decide_False, app_nil_r; [done|].
      unfold sign_of. rewrite Htype. cbn. rewrite Hsgn. naive_solver. }
  assert (sgn ≠ VNone) as Hkey.
  { intros ->. apply Hnone. apply od_get_Some_elem in Hsgn.
    apply list_elem_of_fmap. by exists (stmt_type, VNone). }
  pose proof (sign_of_Some sign_dict data stmt_type sgn Htype Hsgn) as Hsign.
  apply bind_inr in Hstep as (l3 & present & l4 & Hhas & Hstep & ->).
  apply (mg_has_edge_key _ _ _ _ _ _ Hkey) in Hhas.
  assert (∃ adj X,
            (∀ u' v', adj_get adj u' v' = adj_get (mg_adj sg) u' v')
            ∧ adj_wf adj
            ∧ mg_adj sg'
              = adj_put adj u v
                  (od_set sgn X (default [] (adj_get adj u v)))
            ∧ statements X = signed_statements_at sg u v sgn ++ [data]
            ∧ sign X = Some sgn) as (adj & X & Hget & Hwf' & Hadj & HX & HsX).
  { destruct (mg_edge_data sg (u, v, sgn)) as [fa|] eqn:Hfa.
    - rewrite bool_decide_eq_true_2 in Hhas by done. subst present.
      injection Hstep as _ <-.
      exists (mg_adj sg), (append_statement data fa).
      split_and!; [done|apply Hwf| | |].
      + cbn [mg_adj]. unfold adj_put. by rewrite !od_get_default_nbrs.
      + unfold signed_statements_at. by rewrite Hfa.
      + exact (proj2 (Hflat _ _ Hfa)).
    - rewrite bool_decide_eq_false_2 in Hhas by (by intros [? ?]).
      subst present.
      apply (mg_add_edge_key _ _ _ _ _ _ _ Hkey) in Hstep
        as (adj & Hget & Hwf' & Hadj).
      rewrite Hfa in Hadj.
      eexists adj, _. split_and!; [done|apply Hwf', Hwf|exact Hadj| |done].
      unfold signed_statements_at. by rewrite Hfa. }
  pose proof (mg_edge_data_put sg sg' adj u v sgn X Hget Hadj) as Hdata.
  split; [split|].
  - by eapply mg_wf_put.
  - intros [[u' v'] k] fa. rewrite Hdata. case_decide as Hd.
    + destruct Hd as (-> & -> & ->). intros [= <-]. split; [|done].
      rewrite HX. by destruct (signed_statements_at sg u v sgn).
    + apply Hflat.
  - intros u' v' k. unfold signed_statements_at at 1. rewrite Hdata.
    rewrite Hsign. case_decide as Hd.
    + destruct Hd as (-> & -> & ->). cbn. rewrite HX.
      by rewrite decide_True.
    + rewrite decide_False, app_nil_r; [done|]. naive_solver.
Qed.

Lemma to_signed_graph_loop_groups sign_dict es
    (sg sg' : MultiDiGraph FlatAttrs) l :
  VNone ∉ od_values sign_dict →
  foldM (to_signed_graph_step sign_dict) sg es = (l, inr sg') →
  signed_flat sg →
  signed_flat sg'
  ∧ ∀ u v k,
      signed_statements_at sg' u v k
      = signed_statements_at sg u v k ++
        filter (λ data, sign_of sign_dict data = Some k)
          (filter (λ e : value * value * attrs, e.1.1 = u ∧ e.1.2 = v) es).*2.
Proof.
  intros Hnone. revert sg l.
  induction es as [|[[u0 v0] data] es IH]; intros sg l.
  - intros [= _ <-] Hflat. split; [done|]. intros. by rewrite app_nil_r.
  - cbn [foldM]. intros (l1 & sg1 & l2 & Hstep & Hrest & ->)%bind_inr Hflat.
    destruct (to_signed_graph_step_groups _ _ _ _ _ _ _ Hnone Hstep Hflat)
      as [Hflat1 Hst1].
    destruct (IH _ _ Hrest Hflat1) as [Hflat' Hst'].
    split; [done|]. intros u v k. rewrite Hst', Hst1, <- app_assoc. f_equal.
    rewrite filter_cons. cbn [fst snd].
    destruct (decide (u0 = u ∧ v0 = v)) as [[-> ->]|Hne].
    + csimpl. rewrite filter_cons.
      destruct (decide (sign_of sign_dict data = Some k)) as [Hs|Hs].
      * by rewrite decide_True.
      * by rewrite decide_False by naive_solver.
    + by rewrite decide_False by naive_solver.
Qed.

Lemma signed_flat_empty : signed_flat mg_empty.
Proof.
  split; [split|].
  - apply adj_wf_nil.
  - by intros u v keydict.
  - by intros [[u v] k] fa.
Qed.

Lemma silent_to_signed_graph_loop sign_dict edges
    (sg : MultiDiGraph FlatAttrs) :
  silent (foldM (to_signed_graph_step sign_dict) sg edges).
Proof.
  apply silent_foldM. intros sg' [[u v] data].
  unfold to_signed_graph_step, getitem, mg_has_edge, mg_add_edge.
  repeat first
    [ apply silent_ret | apply silent_raise | apply silent_check_hashable
    | apply silent_bind; [|intros ?] | case_match ].
Qed.

Lemma to_signed_graph_grouped fmt score (self : IndraNet)
    (sign_dict : odict value value)
    (method : flattening_method (MultiDiGraph FlatAttrs))
    (logs : list log_record) (SG : MultiDiGraph FlatAttrs) :
  VNone ∉ od_values sign_dict →
  to_signed_graph fmt score self sign_dict method = (logs, inr SG) →
  NoDup (mg_edges SG)
  ∧ (∀ u v s, (u, v, s) ∈ mg_edges SG
              ↔ signed_raw_edges self sign_dict u v s ≠ [])
  ∧ ∀ u v s, (u, v, s) ∈ mg_edges SG →
      ∃ b, mg_edge_data SG (u, v, s)
           = Some (signed_edge (signed_raw_edges self sign_dict u v s) s b).
Proof.
  intros Hnone. unfold to_signed_graph.
  intros (l1 & g1 & l2 & Hloop & Hupd & ->)%bind_inr.
  destruct (to_signed_graph_loop_groups _ _ _ _ _ Hnone Hloop
              signed_flat_empty) as [[Hwf Hflat] Hst].
  assert (∀ u v s, signed_statements_at g1 u v s
                   = signed_raw_edges self sign_dict u v s) as Hraw.
  { intros u v s. by rewrite Hst. }
  destruct (update_edge_belief_update_with fmt score g1 method) as [f Hf].
  rewrite Hf in Hupd.
  destruct (update_loop_any mg_wf f _ _ _ _ Hupd Hwf
              (nx_edges_NoDup g1 Hwf)) as (Hwf' & Hedges & _ & Hin).
  assert (∀ u v s, (u, v, s) ∈ mg_edges SG
                   ↔ signed_raw_edges self sign_dict u v s ≠ []) as Hiff.
  { intros u v s. rewrite <- Hraw. unfold signed_statements_at. split.
    - intros Huv.
      assert ((u, v, s) ∈ nx_edges g1) as Huv1 by (by rewrite <- Hedges).
      apply (nx_edges_data g1 _ Hwf) in Huv1 as [fa Hfa].
      change (mg_edge_data g1 (u, v, s) = Some fa) in Hfa.
      rewrite Hfa. cbn. by apply (Hflat _ _ Hfa).
    - intros Hne.
      assert (is_Some (nx_edge_data g1 (u, v, s))) as Hsome.
      { destruct (mg_edge_data g1 (u, v, s)) as [fa|] eqn:Hfa; [|done].
        exists fa. exact Hfa. }
      pose proof (proj2 (nx_edges_data g1 (u, v, s) Hwf) Hsome) as Hin1.
      rewrite <- Hedges in Hin1. exact Hin1. }
  split_and!; [exact (nx_edges_NoDup SG Hwf')|done|].
  intros u v s Huv.
  assert ((u, v, s) ∈ nx_edges g1) as Huv1 by (by rewrite <- Hedges).
  destruct (Hin _ Huv1) as [b Hb]. exists b.
  apply (nx_edges_data g1 _ Hwf) in Huv1 as [fa Hfa].
  etrans; [exact Hb|].
  etrans; [exact (f_equal (fmap (set_belief b)) Hfa)|].
  change (mg_edge_data g1 (u, v, s) = Some fa) in Hfa.
  cbn. unfold set_belief, signed_edge.
  destruct (Hflat _ _ Hfa) as [_ ->]. cbn.
  rewrite <- Hraw. unfold signed_statements_at.
  by rewrite Hfa.
Qed.

(** X16: for a mapping none of whose signs is [None], when
    [to_signed_graph] returns, the signed graph has an edge from [u] to [v]
    with the key [s], listed once in its edge view, exactly when some raw
    edge from [u] to [v] has a statement type that the mapping sends to
    [s]; the data of that edge consists of those raw edges as its
    statements, in their order of enumeration, the sign [s], and a
    belief. *)
Theorem to_signed_graph_groups fmt score (self : IndraNet)
    (sign_dict : odict value value)
    (method : flattening_method (MultiDiGraph FlatAttrs))
    (logs : list log_record) (SG : MultiDiGraph FlatAttrs) :
  VNone ∉ od_values sign_dict →
  to_signed_graph fmt score self sign_dict method = (logs, inr SG) →
  NoDup (mg_edges SG)
  ∧ (∀ u v s, (u, v, s) ∈ mg_edges SG
              ↔ signed_raw_edges self sign_dict u v s ≠ [])
  ∧ ∀ u v s, (u, v, s) ∈ mg_edges SG →
      ∃ b, mg_edge_data SG (u, v, s)
           = Some (signed_edge (signed_raw_edges self sign_dict u v s) s b).
Proof. apply to_signed_graph_grouped. Qed.

Lemma to_signed_graph_groups_witness :
  NoDup (mg_edges two_signs_signed)
  ∧ (∀ u v s, (u, v, s) ∈ mg_edges two_signs_signed
              ↔ signed_raw_edges three_types_net two_signs u v s ≠ [])
  ∧ ∀ u v s, (u, v, s) ∈ mg_edges two_signs_signed →
      ∃ b, mg_edge_data two_signs_signed (u, v, s)
           = Some (signed_edge
                     (signed_raw_edges three_types_net two_signs u v s) s b).
Proof.
  apply (to_signed_graph_groups x87_extended example_scorer three_types_net
           two_signs (MethodStr "complementary_belief") []).
  - apply (bool_decide_unpack _). vm_compute. exact I.
  - vm_compute. reflexivity.
Defined.

Lemma filter_fmap_comm {A B} (f : A → B) (P : B → Prop)
    `{∀ b, Decision (P b)} (l : list A) :
  filter P (f <$> l) = f <$> filter (λ a, P (f a)) l.
Proof.
  induction l as [|a l IH]; [done|]. csimpl. rewrite !filter_cons.
  case_decide; csimpl; by rewrite IH.
Qed.

Lemma filter_ext_in {A} (P Q : A → Prop) `{∀ a, Decision (P a)}
    `{∀ a, Decision (Q a)} (l : list A) :
  (∀ a, a ∈ l → P a ↔ Q a) → filter P l = filter Q l.
Proof.
  induction l as [|a l IH]; intros Hext; [done|]. rewrite !filter_cons.
  assert (filter P l = filter Q l) as ->.
  { apply IH. intros a' Ha'. apply Hext. by right. }
  destruct (decide (P a)) as [HP|HP].
  - rewrite decide_True; [done|]. by apply (Hext a); [left|].
  - rewrite decide_False; [done|]. intros HQ. apply HP.
    by apply (Hext a); [left|].
Qed.

Lemma sign_of_edge_data df sign_dict row :
  valid_table df = true →
  sign_of sign_dict (edge_data df row) = od_get (row "stmt_type") sign_dict.
Proof.
  intros Hvalid. unfold valid_table in Hvalid.
  apply andb_true_iff in Hvalid as [[_ Hres]%andb_true_iff _].
  unfold sign_of. rewrite (edge_data_lookup df row "stmt_type" Hres).
  rewrite decide_True; [done|]. left. unfold edge_fields.
  right. by left.
Qed.

(** X17: on a valid table and with a mapping none of whose signs is
    [None], when [signed_from_df] returns, its log starts with the warnings
    of [from_df], and the signed graph has an edge from [u] to [v] with the
    key [s] exactly when some kept row goes from [u] to [v] with a
    statement type that the mapping sends to [s]; the statements of that
    edge are the edge data of those rows, in row order, and its sign is
    [s]. *)
Theorem signed_from_df_valid fmt score (df : DataFrame)
    (sign_dict : odict value value)
    (method : flattening_method (MultiDiGraph FlatAttrs))
    (logs : list log_record) (SG : MultiDiGraph FlatAttrs) :
  valid_table df = true →
  VNone ∉ od_values sign_dict →
  signed_from_df fmt score df sign_dict method = (logs, inr SG) →
  (∃ l, logs = skip_log df ++ l)
  ∧ NoDup (mg_edges SG)
  ∧ (∀ u v s, (u, v, s) ∈ mg_edges SG ↔ signed_rows df sign_dict u v s ≠ [])
  ∧ ∀ u v s, (u, v, s) ∈ mg_edges SG →
      ∃ b, mg_edge_data SG (u, v, s)
           = Some (signed_edge
                     (edge_data df <$> (signed_rows df sign_dict u v s).*2)
                     s b).
Proof.
  intros Hvalid Hnone.
  destruct (from_df_raw_edges df Hvalid) as (g & Hrun & Hraw & _).
  unfold signed_from_df. rewrite Hrun. cbn [bind].
  destruct (to_signed_graph fmt score g sign_dict method) as [l r] eqn:Hto.
  intros [= <- ->]. split; [by exists l|].
  destruct (to_signed_graph_grouped _ _ _ _ _ _ _ Hnone Hto)
    as (Hnd & Hiff & Hdata).
  assert (∀ u v s, signed_raw_edges g sign_dict u v s
                   = edge_data df <$> (signed_rows df sign_dict u v s).*2)
    as Hrows.
  { intros u v s. unfold signed_raw_edges, signed_rows. rewrite Hraw.
    rewrite <- list_fmap_compose, filter_fmap_comm, list_fmap_compose.
    do 2 f_equal. apply filter_ext_in. intros ir _. cbn.
    by rewrite (sign_of_edge_data df sign_dict ir.2 Hvalid). }
  split_and!; [done|..].
  - intros u v s. rewrite Hiff, Hrows.
    by destruct (signed_rows df sign_dict u v s).
  - intros u v s Huv. rewrite <- Hrows. by apply Hdata.
Qed.

Lemma signed_from_df_valid_witness :
  (∃ l, ([] : list log_record) = skip_log df_three_types ++ l)
  ∧ NoDup (mg_edges two_signs_signed)
  ∧ (∀ u v s, (u, v, s) ∈ mg_edges two_signs_signed
              ↔ signed_rows df_three_types two_signs u v s ≠ [])
  ∧ ∀ u v s, (u, v, s) ∈ mg_edges two_signs_signed →
      ∃ b, mg_edge_data two_signs_signed (u, v, s)
           = Some (signed_edge
                     (edge_data df_three_types
                        <$> (signed_rows df_three_types two_signs u v s).*2)
                     s b).
Proof.
  apply (signed_from_df_valid x87_extended example_scorer df_three_types
           two_signs (MethodStr "complementary_belief")).
  - reflexivity.
  - apply (bool_decide_unpack _). vm_compute. exact I.
  - vm_compute. reflexivity.
Defined.

(** ** Beliefs that are missing or not numbers *)

Lemma read_beliefs_missing (stmts : list attrs) :
  None ∈ beliefs_of stmts →
  mapM (λ s, getitem s "belief") stmts = raise KeyError.
Proof.
  induction stmts as [|s stmts IH]; [by intros ?%elem_of_nil|].
  rewrite mapM_cons. csimpl. unfold getitem at 1.
  destruct (s !! "belief") as [b|] eqn:Hb; [|done].
  intros [?|Hin]%elem_of_cons; [done|].
  rewrite bind_ret_l, (IH Hin). done.
Qed.

Lemma complement_term_errors fmt v l e :
  complement_term fmt v = (l, inl e) →
  (∃ err, e = FloatingPointError err) ∨ e = TypeError.
Proof.
  unfold complement_term, as_longfloat.
  destruct v as [| |s|z|q|d]; cbn; try (intros [= _ <-]; by right).
  - case_decide as Hz; cbn; [|intros [= _ <-]; by right].
    destruct (fp_check_exact fmt (1 - Qc_of_Z z)%Qc) as [-> | [err ->]];
      [done|]. intros [= _ <-]. left. by exists err.
  - destruct (fp_check_exact fmt (1 - q)%Qc) as [-> | [err ->]]; [done|].
    intros [= _ <-]. left. by exists err.
Qed.

Lemma complement_term_non_number fmt v l t :
  non_number v = true → complement_term fmt v ≠ (l, inr t).
Proof.
  destruct v as [| |s|z|q|d]; try done.
  intros Hz%negb_true_iff%bool_decide_eq_false.
  unfold complement_term, as_longfloat. by rewrite decide_False.
Qed.

Lemma complement_terms_errors fmt (bl : list value) l e :
  mapM (complement_term fmt) bl = (l, inl e) →
  (∃ err, e = FloatingPointError err) ∨ e = TypeError.
Proof.
  revert l. induction bl as [|v bl IH]; intros l; [done|].
  rewrite mapM_cons.
  destruct (complement_term fmt v) as [l1 [e1|t]] eqn:Hv; cbn.
  - intros [= _ <-]. by eapply complement_term_errors.
  - destruct (mapM (complement_term fmt) bl) as [l2 [e2|ts]] eqn:Hrest;
      cbn; [|done].
    intros [= _ <-]. by eapply IH.
Qed.

(** A non-number among the beliefs stops the computation of the terms:
    with an exception of the arithmetic, or with [TypeError]. *)
Lemma complement_product_non_number fmt (bl : list value) :
  Exists (λ v, non_number v = true) bl →
  arithmetic_failure fmt bl = None →
  complement_product fmt bl = raise TypeError.
Proof.
  intros Hex Hok. unfold arithmetic_failure in Hok.
  pose proof (silent_complement_product fmt bl) as Hs. unfold silent in Hs.
  unfold complement_product in *.
  destruct (mapM (complement_term fmt) bl) as [l [e|ts]] eqn:Hterms.
  - cbn in Hs, Hok |- *. subst l.
    by destruct (complement_terms_errors _ _ _ _ Hterms) as [[err ->]| ->].
  - apply Exists_exists in Hex as (v & Hin & Hv).
    destruct (mapM_inr_elem _ _ _ _ _ Hterms Hin) as (l' & t & Ht & _).
    by apply complement_term_non_number in Ht.
Qed.

(** X18: [_complementary_belief] raises [KeyError] for an edge that is
    not in the graph and when a grouped statement has no [belief] entry,
    before any arithmetic.  A belief that is not a number (a missing cell
    [None], a string, a dictionary, an integer beyond the 64-bit range)
    raises [TypeError], which the [except] clause does not catch: unless
    the arithmetic fails before it is met, the exception propagates and
    nothing is logged. *)
Theorem complementary_belief_errors fmt {G} `{NxGraph G}
    (g : G) (edge : edge_id) :
  (nx_edge_data g edge = None →
   _complementary_belief fmt g edge = raise KeyError)
  ∧ ∀ fa,
      nx_edge_data g edge = Some fa →
      (None ∈ beliefs_of (statements fa) →
       _complementary_belief fmt g edge = raise KeyError)
      ∧ ∀ belief_list,
          beliefs_of (statements fa) = Some <$> belief_list →
          Exists (λ v, non_number v = true) belief_list →
          arithmetic_failure fmt belief_list = None →
          _complementary_belief fmt g edge = raise TypeError.
Proof.
  split.
  - intros Hnone. unfold _complementary_belief, edge_statements.
    by rewrite Hnone.
  - intros fa Hfa. split.
    + intros Hmiss. unfold _complementary_belief, edge_statements.
      rewrite Hfa, bind_ret_l. by rewrite (read_beliefs_missing _ Hmiss).
    + intros bl Hbl Hex Hok.
      rewrite (complementary_belief_unfold fmt g edge fa bl Hfa Hbl).
      unfold aggregate_beliefs.
      by rewrite (complement_product_non_number fmt bl Hex Hok).
Qed.

(** A missing belief cell makes the complementary strategy raise
    [TypeError], and so does the integer [2^64]. *)
Example complementary_belief_none :
  _complementary_belief x87_extended none_belief_graph edge_AB
  = raise TypeError
  ∧ _complementary_belief x87_extended big_int_belief_graph edge_AB
    = raise TypeError.
Proof. split; vm_compute; reflexivity. Qed.

(** ** Built-in strategies on the signed flattening *)

(** X19: with a built-in strategy [S] and a mapping without [None]
    signs, when [to_signed_graph] returns, the belief of each signed edge
    is the result of [S] on the raw edges grouped on it, computed edge by
    edge in the order of the edge view, and the log of [to_signed_graph]
    is the log of these computations. *)
Theorem to_signed_graph_builtin fmt score (self : IndraNet)
    (sign_dict : odict value value)
    (method : flattening_method (MultiDiGraph FlatAttrs))
    (S : list attrs → M longfloat)
    (logs : list log_record) (SG : MultiDiGraph FlatAttrs) :
  VNone ∉ od_values sign_dict →
  builtin_strategy fmt score method S →
  to_signed_graph fmt score self sign_dict method = (logs, inr SG) →
  ∃ bs, mapM (λ e : value * value * value,
                S (signed_raw_edges self sign_dict e.1.1 e.1.2 e.2))
          (mg_edges SG)
        = (logs, inr bs)
        ∧ ∀ i e b, mg_edges SG !! i = Some e → bs !! i = Some b →
            mg_edge_data SG e
            = Some (signed_edge
                      (signed_raw_edges self sign_dict e.1.1 e.1.2 e.2)
                      e.2 b).
Proof.
  intros Hnone Hbuiltin. unfold to_signed_graph.
  intros (l1 & g1 & l2 & Hloop & Hupd & ->)%bind_inr.
  destruct (to_signed_graph_loop_groups _ _ _ _ _ Hnone Hloop
              signed_flat_empty) as [[Hwf Hflat] Hst].
  pose proof (silent_to_signed_graph_loop sign_dict (mg_edges_data self)
                mg_empty) as Hs.
  unfold silent in Hs. rewrite Hloop in Hs. cbn in Hs. subst l1.
  assert (∀ u v s, signed_statements_at g1 u v s
                   = signed_raw_edges self sign_dict u v s) as Hraw.
  { intros u v s. by rewrite Hst. }
  destruct (update_edge_belief_builtin_with fmt score g1 method S Hbuiltin)
    as (f & Hreads & Hf).
  rewrite Hf in Hupd.
  destruct (update_with_reads_inr mg_wf f S g1 SG l2 Hreads Hwf Hupd)
    as (bs & Hmap & _ & Hedges & Hin).
  assert (mapM (λ e, S (from_option statements [] (nx_edge_data g1 e)))
               (nx_edges g1)
          = mapM (λ e : value * value * value,
                    S (signed_raw_edges self sign_dict e.1.1 e.1.2 e.2))
              (mg_edges SG)) as Hext.
  { change (mg_edges SG) with (nx_edges SG). rewrite Hedges.
    apply mapM_ext_in. intros [[u v] s] _. cbn [fst snd].
    by rewrite <- Hraw. }
  exists bs. split; [by rewrite <- Hext|].
  intros i [[u v] s] b Hi Hb. cbn [fst snd].
  assert (nx_edges g1 !! i = Some (u, v, s)) as Hi1 by (by rewrite <- Hedges).
  etrans; [exact (Hin i (u, v, s) b Hi1 Hb)|].
  assert ((u, v, s) ∈ nx_edges g1) as Hel by (by eapply list_elem_of_lookup_2).
  apply (nx_edges_data g1 _ Hwf) in Hel as [fa Hfa].
  etrans; [exact (f_equal (fmap (set_belief b)) Hfa)|].
  change (mg_edge_data g1 (u, v, s) = Some fa) in Hfa.
  cbn. unfold set_belief, signed_edge.
  destruct (Hflat _ _ Hfa) as [_ ->]. cbn.
  rewrite <- Hraw. unfold signed_statements_at. by rewrite Hfa.
Qed.

Lemma to_signed_graph_builtin_witness :
  ∃ bs, mapM (λ e : value * value * value,
                complementary_of x87_extended
                  (signed_raw_edges three_types_net two_signs e.1.1 e.1.2 e.2))
          (mg_edges two_signs_signed)
        = ([], inr bs)
        ∧ ∀ i e b, mg_edges two_signs_signed !! i = Some e →
            bs !! i = Some b →
            mg_edge_data two_signs_signed e
            = Some (signed_edge
                      (signed_raw_edges three_types_net two_signs
                         e.1.1 e.1.2 e.2)
                      e.2 b).
Proof.
  apply (to_signed_graph_builtin x87_extended example_scorer three_types_net
           two_signs (MethodStr "complementary_belief")).
  - apply (bool_decide_unpack _). vm_compute. exact I.
  - constructor.
  - vm_compute. reflexivity.
Defined.

(** ** A sign that is [None] *)

Lemma mg_put_pair (sg sg' : MultiDiGraph FlatAttrs) adj u v key X :
  (∀ u' v', adj_get adj u' v' = adj_get (mg_adj sg) u' v') →
  mg_adj sg' = adj_put adj u v (od_set key X (default [] (adj_get adj u v))) →
  is_Some (adj_get (mg_adj sg') u v)
  ∧ ∀ u' v', is_Some (adj_get (mg_adj sg) u' v') →
             is_Some (adj_get (mg_adj sg') u' v').
Proof.
  intros Hget Hadj. rewrite Hadj. split.
  - rewrite adj_get_put, decide_True by done. by eexists.
  - intros u' v'. rewrite adj_get_put.
    case_decide; [intros _; by eexists|by rewrite Hget].
Qed.

(** A step of the loop that returns keeps the edges of every pair, gives
    the pair of a signed raw edge an edge, and stores no key [None]. *)
Lemma to_signed_graph_step_pairs sign_dict
    (sg sg' : MultiDiGraph FlatAttrs) u v data l :
  to_signed_graph_step sign_dict sg (u, v, data) = (l, inr sg') →
  no_none_key sg →
  no_none_key sg'
  ∧ (is_Some (sign_of sign_dict data) → is_Some (adj_get (mg_adj sg') u v))
  ∧ ∀ u' v', is_Some (adj_get (mg_adj sg) u' v') →
             is_Some (adj_get (mg_adj sg') u' v').
Proof.
  intros Hstep Hkeys. unfold to_signed_graph_step in Hstep.
  apply bind_inr in Hstep as (l1 & stmt_type & l2 & Htype & Hstep & ->).
  apply getitem_inr in Htype.
  apply bind_check_hashable_inr in Hstep as [_ Hstep].
  destruct (od_get stmt_type sign_dict) as [sgn|] eqn:Hsgn.
  2:{ injection Hstep as _ <-. split_and!; [done| |done].
      unfold sign_of. rewrite Htype. cbn. rewrite Hsgn. by intros [? ?]. }
  apply bind_inr in Hstep as (l3 & present & l4 & Hhas & Hstep & ->).
  assert (∃ adj key X,
            key ≠ VNone
            ∧ (∀ u' v', adj_get adj u' v' = adj_get (mg_adj sg) u' v')
            ∧ mg_adj sg'
              = adj_put adj u v
                  (od_set key X (default [] (adj_get adj u v))))
    as (adj & key & X & Hkey & Hget & Hadj).
  { destruct present.
    - destruct (mg_edge_data sg (u, v, sgn)) as [fa|] eqn:Hfa; [|done].
      injection Hstep as _ <-.
      exists (mg_adj sg), sgn, (append_statement data fa).
      split_and!; [|done|].
      + intros ->. by rewrite Hkeys in Hfa.
      + cbn [mg_adj]. unfold adj_put. by rewrite !od_get_default_nbrs.
    - apply mg_add_edge_inr in Hstep as (adj & X & Hget & _ & _ & Hadj).
      eexists adj, _, X. split_and!; [|done|exact Hadj].
      case_decide; [by case_match|done]. }
  pose proof (mg_edge_data_put sg sg' adj u v key X Hget Hadj) as Hdata.
  destruct (mg_put_pair sg sg' adj u v key X Hget Hadj) as [Hpair Hmono].
  split_and!; [|done|done].
  intros u' v'. rewrite Hdata. rewrite decide_False by naive_solver.
  apply Hkeys.
Qed.

Lemma to_signed_graph_loop_pairs sign_dict es
    (sg sg' : MultiDiGraph FlatAttrs) l :
  foldM (to_signed_graph_step sign_dict) sg es = (l, inr sg') →
  no_none_key sg →
  no_none_key sg'
  ∧ (∀ u v data, (u, v, data) ∈ es → is_Some (sign_of sign_dict data) →
                 is_Some (adj_get (mg_adj sg') u v))
  ∧ ∀ u v, is_Some (adj_get (mg_adj sg) u v) →
           is_Some (adj_get (mg_adj sg') u v).
Proof.
  revert sg l. induction es as [|[[u0 v0] d0] es IH]; intros sg l.
  - intros [= _ <-] Hkeys. split_and!; [done| |done].
    by intros u v data ?%elem_of_nil.
  - cbn [foldM]. intros (l1 & sg1 & l2 & Hstep & Hrest & ->)%bind_inr Hkeys.
    destruct (to_signed_graph_step_pairs _ _ _ _ _ _ _ Hstep Hkeys)
      as (Hkeys1 & Hnew1 & Hmono1).
    destruct (IH _ _ Hrest Hkeys1) as (Hkeys' & Hnew' & Hmono').
    split_and!; [done| |by eauto].
    intros u v data [[= -> -> ->]|Hin]%elem_of_cons Hs; [|by eauto].
    by apply Hmono', Hnew1.
Qed.

(** A raw edge whose sign is [None] cannot join a pair that has an edge:
    [has_edge(u, v, None)] holds, and no edge has the key [None]. *)
Lemma to_signed_graph_step_none sign_dict
    (sg sg' : MultiDiGraph FlatAttrs) u v data l :
  sign_of sign_dict data = Some VNone →
  is_Some (adj_get (mg_adj sg) u v) →
  no_none_key sg →
  to_signed_graph_step sign_dict sg (u, v, data) ≠ (l, inr sg').
Proof.
  intros Hsign Hpair Hkeys Hstep. unfold to_signed_graph_step in Hstep.
  apply bind_inr in Hstep as (l1 & stmt_type & l2 & Htype & Hstep & ->).
  apply getitem_inr in Htype.
  apply bind_check_hashable_inr in Hstep as [_ Hstep].
  unfold sign_of in Hsign. rewrite Htype in Hsign. cbn in Hsign.
  rewrite Hsign in Hstep.
  apply bind_inr in Hstep as (l3 & present & l4 & Hhas & Hstep & ->).
  destruct present.
  - by rewrite Hkeys in Hstep.
  - apply mg_has_edge_false in Hhas; [|done].
    rewrite Hhas in Hpair. by destruct Hpair.
Qed.

Lemma foldM_app_inr {A S} (f : S → A → M S) s l1 l2 logs s' :
  foldM f s (l1 ++ l2) = (logs, inr s') →
  ∃ logs1 s1 logs2, foldM f s l1 = (logs1, inr s1)
                    ∧ foldM f s1 l2 = (logs2, inr s').
Proof.
  revert s logs. induction l1 as [|a l1 IH]; intros s logs; cbn [app foldM].
  - intros Hrun. by exists [], s, logs.
  - intros (la & sa & lb & Ha & Hrest & ->)%bind_inr.
    destruct (IH _ _ Hrest) as (logs1 & s1 & logs2 & H1 & H2).
    exists (la ++ logs1), s1, logs2. split; [|done].
    rewrite Ha. cbn. by rewrite H1.
Qed.

(** X20: a sign [None] does not work as a sign.  If the mapping sends
    the statement type of a raw edge to [None] and an earlier raw edge
    between the same ordered pair has a sign, [to_signed_graph] does not
    return a graph, whatever the strategy: the lookup [SG[u][v][None]]
    follows [SG.has_edge(u, v, None)], which holds for a pair with any
    edge, and no edge is stored under the key [None]. *)
Theorem to_signed_graph_none_sign fmt score (self : IndraNet)
    (sign_dict : odict value value)
    (method : flattening_method (MultiDiGraph FlatAttrs))
    (pre mid post : list (value * value * attrs)) (u v : value)
    (d1 d2 : attrs) (logs : list log_record) (SG : MultiDiGraph FlatAttrs) :
  mg_edges_data self = pre ++ (u, v, d1) :: mid ++ (u, v, d2) :: post →
  is_Some (sign_of sign_dict d1) →
  sign_of sign_dict d2 = Some VNone →
  to_signed_graph fmt score self sign_dict method ≠ (logs, inr SG).
Proof.
  intros Hedges Hs1 Hs2. unfold to_signed_graph. rewrite Hedges.
  intros (l1 & g1 & l2 & Hloop & _ & _)%bind_inr.
  replace (pre ++ (u, v, d1) :: mid ++ (u, v, d2) :: post)
    with ((pre ++ (u, v, d1) :: mid) ++ (u, v, d2) :: post) in Hloop
    by (by rewrite <- app_assoc).
  apply foldM_app_inr in Hloop as (logs1 & sg & logs2 & Hrun & Hrest).
  assert (no_none_key mg_empty) as Hkeys0 by (by intros u' v').
  destruct (to_signed_graph_loop_pairs _ _ _ _ _ Hrun Hkeys0)
    as (Hkeys & Hnew & _).
  assert (is_Some (adj_get (mg_adj sg) u v)) as Hpair.
  { apply (Hnew u v d1); [|done]. apply elem_of_app. right. by left. }
  cbn [foldM] in Hrest.
  apply bind_inr in Hrest as (la & sa & lb & Hstep & _ & _).
  by eapply to_signed_graph_step_none.
Qed.

Lemma to_signed_graph_none_sign_witness :
  to_signed_graph x87_extended example_scorer three_types_net none_signs
    (MethodStr "complementary_belief")
  ≠ ([], inr mg_empty).
Proof.
  apply (to_signed_graph_none_sign x87_extended example_scorer
           three_types_net none_signs (MethodStr "complementary_belief")
           [] []
           [(VStr "A", VStr "B", edge_data df_three_types row_AB_complex)]
           (VStr "A") (VStr "B")
           (edge_data df_three_types row_AB_09)
           (edge_data df_three_types row_AB_inhibition)).
  - vm_compute. reflexivity.
  - vm_compute. eauto.
  - vm_compute. reflexivity.
Defined.

(** With inhibitions mapped to [None], the activation and the inhibition
    from A to B make [to_signed_graph] raise [KeyError]. *)
Example to_signed_graph_none_sign_KeyError :
  to_signed_graph x87_extended example_scorer three_types_net none_signs
    (MethodStr "complementary_belief")
  = raise KeyError.
Proof. vm_compute. reflexivity. Qed.

(** ** The nodes of a signed graph *)

Lemma mg_touch_nodes {D} (g : MultiDiGraph D) n :
  mg_nodes_inv g →
  mg_nodes_inv (mg_touch n g)
  ∧ mg_node (mg_touch n g) = add_if_new (mg_node g) (n, ∅)
  ∧ n ∈ od_keys (mg_adj (mg_touch n g))
  ∧ ∀ m, m ∈ od_keys (mg_adj g) → m ∈ od_keys (mg_adj (mg_touch n g)).
Proof.
  intros [Hkeys Hends]. unfold mg_touch, add_if_new. cbn [fst].
  rewrite (od_mem_keys_eq n (mg_node g) (mg_adj g) Hkeys).
  destruct (od_mem n (mg_adj g)) eqn:Hm.
  - split_and!; [by split|done|by apply od_mem_true|done].
  - cbn [mg_node mg_adj].
    assert (od_get n (mg_node g) = None) as Hnode.
    { apply od_mem_false.
      by rewrite (od_mem_keys_eq n (mg_node g) (mg_adj g) Hkeys). }
    assert (od_keys (V:=odict value (odict value D))
              (od_set (V:=odict value (odict value D)) n [] (mg_adj g))
            = od_keys (mg_adj g) ++ [n]) as Hadj.
    { rewrite od_set_fresh by (apply od_mem_false; exact Hm).
      unfold od_keys. by rewrite fmap_app. }
    assert (∀ m, m ∈ od_keys (mg_adj g) ∨ m = n
                 → m ∈ od_keys (od_set n [] (mg_adj g))) as Hin.
    { intros m Hm'. eapply (eq_ind_r (λ l, m ∈ l)); [|exact Hadj].
      rewrite elem_of_app, list_elem_of_singleton. done. }
    split_and!.
    + split; cbn [mg_node mg_adj].
      * etrans; [|symmetry; exact Hadj].
        rewrite (od_set_fresh _ _ _ Hnode). unfold od_keys.
        rewrite fmap_app. by f_equal.
      * intros u v Huv. rewrite adj_get_touch in Huv by done.
        destruct (Hends u v Huv). split; apply Hin; by left.
    + by apply od_set_fresh.
    + apply Hin. by right.
    + intros m Hm'. apply Hin. by left.
Qed.

Lemma mg_put_nodes {D} (g g' : MultiDiGraph D) u v x :
  mg_nodes_inv g →
  u ∈ od_keys (mg_adj g) → v ∈ od_keys (mg_adj g) →
  mg_node g' = mg_node g →
  mg_adj g' = adj_put (mg_adj g) u v x →
  mg_nodes_inv g'.
Proof.
  intros [Hkeys Hends] Hu Hv Hnode Hadj.
  assert (od_keys (mg_adj g') = od_keys (mg_adj g)) as Hsame.
  { rewrite Hadj. unfold adj_put. apply od_keys_set_present.
    apply od_mem_true in Hu. unfold od_mem in Hu.
    destruct (od_get u (mg_adj g)); [eauto|done]. }
  split.
  - by rewrite Hnode, Hsame.
  - intros u' v'. rewrite Hsame, Hadj, adj_get_put.
    case_decide as Hd; [by destruct Hd as [-> ->]|apply Hends].
Qed.

(** One step of the loop of [to_signed_graph] adds the endpoints of a
    raw edge with a sign if they are new, each with no attributes. *)
Lemma to_signed_graph_step_nodes sign_dict
    (sg sg' : MultiDiGraph FlatAttrs) u v data l :
  to_signed_graph_step sign_dict sg (u, v, data) = (l, inr sg') →
  mg_nodes_inv sg →
  mg_nodes_inv sg'
  ∧ mg_node sg'
    = if decide (is_Some (sign_of sign_dict data))
      then add_if_new (add_if_new (mg_node sg) (u, ∅)) (v, ∅)
      else mg_node sg.
Proof.
  intros Hstep Hinv. unfold to_signed_graph_step in Hstep.
  apply bind_inr in Hstep as (l1 & stmt_type & l2 & Htype & Hstep & ->).
  apply getitem_inr in Htype.
  apply bind_check_hashable_inr in Hstep as [_ Hstep].
  unfold sign_of. rewrite Htype. cbn [mbind option_bind].
  destruct (od_get stmt_type sign_dict) as [sgn|] eqn:Hsgn.
  2:{ injection Hstep as _ <-. split; [done|].
      rewrite decide_False; [done|]. by intros [? ?]. }
  rewrite decide_True by eauto.
  apply bind_inr in Hstep as (l3 & present & l4 & Hhas & Hstep & ->).
  destruct present.
  - destruct (mg_edge_data sg (u, v, sgn)) as [fa|] eqn:Hfa; [|done].
    injection Hstep as _ <-.
    assert (is_Some (adj_get (mg_adj sg) u v)) as Huv.
    { unfold mg_edge_data, mg_keydict in Hfa.
      change (adj_get (mg_adj sg) u v ≫= od_get sgn = Some fa) in Hfa.
      destruct (adj_get (mg_adj sg) u v); [eauto|done]. }
    destruct (proj2 Hinv u v Huv) as [Hu Hv].
    split.
    + eapply (mg_put_nodes sg _ u v); [done..|reflexivity|].
      cbn [mg_adj]. unfold adj_put. by rewrite !od_get_default_nbrs.
    + cbn [mg_node].
      rewrite (add_if_new_known (mg_node sg) (u, ∅))
        by (cbn [fst]; by rewrite (proj1 Hinv)).
      by rewrite (add_if_new_known (mg_node sg) (v, ∅))
        by (cbn [fst]; by rewrite (proj1 Hinv)).
  - unfold mg_add_edge in Hstep.
    apply bind_check_hashable_inr in Hstep as [_ Hstep].
    apply bind_check_hashable_inr in Hstep as [_ Hstep].
    apply bind_check_hashable_inr in Hstep as [_ Hstep].
    injection Hstep as _ <-.
    destruct (mg_touch_nodes sg u Hinv) as (Hinv1 & Hnode1 & Hu1 & Hmono1).
    destruct (mg_touch_nodes (mg_touch u sg) v Hinv1)
      as (Hinv2 & Hnode2 & Hv2 & Hmono2).
    split.
    + eapply (mg_put_nodes (mg_touch v (mg_touch u sg)) _ u v);
        [done|by apply Hmono2|done|reflexivity|reflexivity].
    + cbn [mg_node]. by rewrite Hnode2, Hnode1.
Qed.

Lemma to_signed_graph_loop_nodes sign_dict es
    (sg sg' : MultiDiGraph FlatAttrs) l :
  foldM (to_signed_graph_step sign_dict) sg es = (l, inr sg') →
  mg_nodes_inv sg →
  mg_nodes_inv sg'
  ∧ mg_node sg'
    = foldl add_if_new (mg_node sg)
        (bare_endpoints
           (filter (λ e : value * value * attrs,
                      is_Some (sign_of sign_dict e.2)) es)).
Proof.
  revert sg l. induction es as [|[[u v] data] es IH]; intros sg l.
  - by intros [= _ <-].
  - cbn [foldM]. intros (l1 & sg1 & l2 & Hstep & Hrest & ->)%bind_inr Hinv.
    destruct (to_signed_graph_step_nodes _ _ _ _ _ _ _ Hstep Hinv)
      as [Hinv1 Hn1].
    destruct (IH _ _ Hrest Hinv1) as [Hinv' Hn'].
    split; [done|]. rewrite Hn', Hn1, filter_cons. cbn [snd].
    destruct (decide (is_Some (sign_of sign_dict data))); [|done].
    by rewrite foldl_add_if_new_bare.
Qed.

Lemma mg_set_belief_node (g : MultiDiGraph FlatAttrs) e b :
  mg_node (mg_set_belief g e b) = mg_node g.
Proof.
  destruct e as [[u v] key]. unfold mg_set_belief. by repeat case_match.
Qed.

Lemma update_with_mg_node
    (f : MultiDiGraph FlatAttrs → value * value * value → M longfloat) es
    (g g' : MultiDiGraph FlatAttrs) l :
  foldM (λ g e, b <- f g e ;; ret (mg_set_belief g e b)) g es = (l, inr g') →
  mg_node g' = mg_node g.
Proof.
  revert g l. induction es as [|e es IH]; intros g l.
  - by intros [= <- <-].
  - cbn [foldM]. intros (l1 & g1 & l2 & Hstep & Hrest & ->)%bind_inr.
    apply bind_inr in Hstep as (l3 & b & l4 & _ & [= <- <-] & _).
    rewrite (IH _ _ Hrest). apply mg_set_belief_node.
Qed.

Lemma update_edge_belief_mg_node fmt score (g g' : MultiDiGraph FlatAttrs)
    method l :
  _update_edge_belief fmt score g method = (l, inr g') →
  mg_node g' = mg_node g.
Proof.
  unfold _update_edge_belief, update_with.
  destruct method as [|name|f]; repeat case_decide;
    apply update_with_mg_node.
Qed.

(** X21: the nodes of the signed flattening are the endpoints of the
    raw edges whose statement type has a sign, in the order in which the
    edge enumeration first meets them, each with an empty attribute
    dictionary: a node all of whose edges have unsigned types is not in the
    signed graph, and no node attribute is carried over. *)
Theorem to_signed_graph_nodes fmt score (self : IndraNet)
    (sign_dict : odict value value)
    (method : flattening_method (MultiDiGraph FlatAttrs))
    (logs : list log_record) (SG : MultiDiGraph FlatAttrs) :
  to_signed_graph fmt score self sign_dict method = (logs, inr SG) →
  mg_node SG = first_seen (bare_endpoints (signed_edges_data self sign_dict))
  ∧ (∀ n, n ∈ od_keys (mg_node SG)
          ↔ ∃ u v data, (u, v, data) ∈ mg_edges_data self
                        ∧ is_Some (sign_of sign_dict data)
                        ∧ (n = u ∨ n = v))
  ∧ ∀ n node_attr, (n, node_attr) ∈ mg_node SG → node_attr = ∅.
Proof.
  unfold to_signed_graph.
  intros (l1 & g1 & l2 & Hloop & Hupd & ->)%bind_inr.
  assert (mg_nodes_inv (@mg_empty FlatAttrs)) as Hinv0.
  { split; [done|]. intros u v [x Hx]. done. }
  destruct (to_signed_graph_loop_nodes _ _ _ _ _ Hloop Hinv0) as [_ Hnodes].
  apply update_edge_belief_mg_node in Hupd.
  assert (mg_node SG
          = first_seen (bare_endpoints (signed_edges_data self sign_dict)))
    as Heq by (by rewrite Hupd, Hnodes).
  split_and!; [done|..].
  - intros n. rewrite Heq, first_seen_keys. unfold bare_endpoints.
    rewrite list_elem_of_fmap. split.
    + intros ([n' a] & -> & Hin).
      apply list_elem_of_bind in Hin as ([[u v] data] & Hin & He).
      apply list_elem_of_filter in He as [Hs He].
      exists u, v, data. split_and!; [done..|].
      apply elem_of_cons in Hin as [[= -> _]|Hin]; [by left|].
      apply list_elem_of_singleton in Hin as [= -> _]. by right.
    + intros (u & v & data & He & Hs & Hn). exists (n, ∅). split; [done|].
      apply list_elem_of_bind. exists (u, v, data). split.
      * destruct Hn as [->| ->]; [by left|right; by left].
      * by apply list_elem_of_filter.
  - intros n node_attr. rewrite Heq. unfold first_seen.
    intros [Hnil|Hin]%foldl_add_if_new_elem; [by apply elem_of_nil in Hnil|].
    apply list_elem_of_bind in Hin as ([[u v] data] & Hin & _).
    apply elem_of_cons in Hin as [[= _ ->]|Hin]; [done|].
    by apply list_elem_of_singleton in Hin as [= _ ->].
Qed.

Lemma to_signed_graph_nodes_witness :
  mg_node two_signs_signed
  = first_seen (bare_endpoints (signed_edges_data three_types_net two_signs))
  ∧ (∀ n, n ∈ od_keys (mg_node two_signs_signed)
          ↔ ∃ u v data, (u, v, data) ∈ mg_edges_data three_types_net
                        ∧ is_Some (sign_of two_signs data)
                        ∧ (n = u ∨ n = v))
  ∧ ∀ n node_attr, (n, node_attr) ∈ mg_node two_signs_signed → node_attr = ∅.
Proof.
  apply (to_signed_graph_nodes x87_extended example_scorer three_types_net
           two_signs (MethodStr "complementary_belief") []).
  vm_compute. reflexivity.
Defined.
